(** * Account-file reconciliation of [bot.py]

    A shallow embedding of the configuration engine of [bot.py]:
    [_strip_quotes], [parse_accounts_accounts_section], [read_accounts_file],
    [write_pk_yaml] and [sync_config_to_pk], together with the fragments of
    the Python runtime they rely on ([str.strip], [str.splitlines], the
    backtracking regular expressions of [re.match], insertion-ordered
    dictionaries and [sorted]). *)

From Stdlib Require Import String Ascii.
From Stdlib Require Import List Arith NArith Bool Lia Permutation Sorted.
Import ListNotations.
Local Open Scope N_scope.
Local Open Scope list_scope.

(** ** Python strings

    A [str] is a sequence of Unicode code points. *)

Definition char := N.
Definition str := list char.

(** ASCII literals of the source, as code-point sequences. *)
Definition py (s : string) : str := map N_of_ascii (list_ascii_of_string s).
Arguments py s%_string.

Definition NL : char := 10.
Definition CR : char := 13.
Definition SPACE : char := 32.
Definition DQUOTE : char := 34.
Definition SQUOTE : char := 39.
Definition COLON : char := 58.

Fixpoint str_eqb (a b : str) : bool :=
  match a, b with
  | [], [] => true
  | x :: a', y :: b' => (x =? y) && str_eqb a' b'
  | _, _ => false
  end.

(** Truthiness of a string: [bool(s)], i.e. [s] is not empty. *)
Definition truthy (s : str) : bool :=
  match s with [] => false | _ :: _ => true end.

(** [str.isspace] on one code point, which is also the class [\s] of [re] on
    [str] patterns (CPython's [Py_UNICODE_ISSPACE]). *)
Definition isspace (c : char) : bool :=
  ((9 <=? c) && (c <=? 13)) || ((28 <=? c) && (c <=? 31)) || (c =? 32)
  || (c =? 133) || (c =? 160) || (c =? 5760)
  || ((8192 <=? c) && (c <=? 8202)) || (c =? 8232) || (c =? 8233)
  || (c =? 8239) || (c =? 8287) || (c =? 12288).

(** Line boundaries of [str.splitlines]: LF, VT, FF, CR, FS, GS, RS, NEL, LS, PS. *)
Definition islinebreak (c : char) : bool :=
  ((10 <=? c) && (c <=? 13)) || ((28 <=? c) && (c <=? 30))
  || (c =? 133) || (c =? 8232) || (c =? 8233).

(** The class [[A-Za-z0-9_.-]]. *)
Definition istoken (c : char) : bool :=
  ((65 <=? c) && (c <=? 90)) || ((97 <=? c) && (c <=? 122))
  || ((48 <=? c) && (c <=? 57)) || (c =? 95) || (c =? 46) || (c =? 45).

(** The class [\S]. *)
Definition nonspace (c : char) : bool := negb (isspace c).

(** The class [.] (no DOTALL flag): anything but a line feed. *)
Definition anychar (c : char) : bool := negb (c =? NL).

(** [s.strip()] *)
Fixpoint lstrip (s : str) : str :=
  match s with
  | c :: s' => if isspace c then lstrip s' else s
  | [] => []
  end.

Definition rstrip (s : str) : str := rev (lstrip (rev s)).

Definition strip (s : str) : str := rstrip (lstrip s).

(** [s.startswith(c)] and [s.endswith(c)] for a one-character [c]. *)
Definition startswith (c : char) (s : str) : bool :=
  match s with x :: _ => x =? c | [] => false end.

Definition endswith (c : char) (s : str) : bool := startswith c (rev s).

(** [s.splitlines()]: [cur] is the line being collected. A CR LF pair is a
    single boundary; no empty line is produced after a final boundary. *)
Fixpoint splitlines_from (cur : str) (s : str) : list str :=
  match s with
  | [] => if truthy cur then [cur] else []
  | c :: s' =>
      if c =? CR then
        match s' with
        | d :: s'' =>
            if d =? NL then cur :: splitlines_from [] s''
            else cur :: splitlines_from [] s'
        | [] => [cur]
        end
      else if islinebreak c then cur :: splitlines_from [] s'
      else splitlines_from (cur ++ [c]) s'
  end.

Definition splitlines (s : str) : list str := splitlines_from [] s.

(** [_strip_quotes]: [s[1:-1]] is [removelast (tl s)]. *)
Definition _strip_quotes (s : str) : str :=
  let s := strip s in
  if (startswith DQUOTE s && endswith DQUOTE s)
     || (startswith SQUOTE s && endswith SQUOTE s)
  then removelast (tl s)
  else s.

(** ** Regular expressions

    The patterns of the source are sequences of quantified character
    classes. Each construct is a matcher taking the continuation that
    matches the rest of the pattern, so that a greedy quantifier first tries
    the longest repetition and gives characters back when the continuation
    fails, and a lazy one first tries the shortest, as [re] does. *)

Module Re.

Section Matchers.
Context {A : Type}.

Definition cont := str -> option A.

(** [X*] (greedy) *)
Fixpoint star (cls : char -> bool) (k : cont) (s : str) : option A :=
  match s with
  | c :: s' =>
      if cls c then
        match star cls k s' with
        | Some r => Some r
        | None => k s
        end
      else k s
  | [] => k []
  end.

(** [X{n}] *)
Fixpoint count (n : nat) (cls : char -> bool) (k : cont) (s : str) : option A :=
  match n with
  | O => k s
  | S n' =>
      match s with
      | c :: s' => if cls c then count n' cls k s' else None
      | [] => None
      end
  end.

(** a literal word *)
Fixpoint lit (w : str) (k : cont) (s : str) : option A :=
  match w with
  | [] => k s
  | x :: w' =>
      match s with
      | c :: s' => if c =? x then lit w' k s' else None
      | [] => None
      end
  end.

(** [(X+)] (greedy, capturing): [g] is the text captured so far. *)
Fixpoint plus_group (cls : char -> bool) (k : str -> cont) (g : str) (s : str)
  : option A :=
  match s with
  | c :: s' =>
      if cls c then
        match plus_group cls k (g ++ [c]) s' with
        | Some r => Some r
        | None => k (g ++ [c]) s'
        end
      else None
  | [] => None
  end.

(** [(X+?)] (lazy, capturing) *)
Fixpoint plus_lazy_group (cls : char -> bool) (k : str -> cont) (g : str) (s : str)
  : option A :=
  match s with
  | c :: s' =>
      if cls c then
        match k (g ++ [c]) s' with
        | Some r => Some r
        | None => plus_lazy_group cls k (g ++ [c]) s'
        end
      else None
  | [] => None
  end.

(** [$] (no MULTILINE flag): the end of the string, or just before a line
    feed that ends the string. *)
Definition eos (r : A) : cont :=
  fun s =>
    match s with
    | [] => Some r
    | c :: [] => if c =? NL then Some r else None
    | _ => None
    end.

End Matchers.

End Re.

Definition is_some {A} (o : option A) : bool :=
  match o with Some _ => true | None => false end.

(** [^\s*accounts\s*:\s*$] *)
Definition re_accounts (line : str) : option unit :=
  Re.star isspace
    (Re.lit (py "accounts")
      (Re.star isspace
        (Re.lit (py ":")
          (Re.star isspace (Re.eos tt))))) line.

(** [^[A-Za-z0-9_.-]+\s*:\s*$] *)
Definition re_toplevel (line : str) : option unit :=
  Re.plus_group istoken
    (fun _ => Re.star isspace
      (Re.lit (py ":")
        (Re.star isspace (Re.eos tt)))) [] line.

(** [^\s{2}([A-Za-z0-9_.-]+)\s*:\s*$], returning [group(1)] *)
Definition re_alias (line : str) : option str :=
  Re.count 2 isspace
    (Re.plus_group istoken
      (fun g => Re.star isspace
        (Re.lit (py ":")
          (Re.star isspace (Re.eos g)))) []) line.

(** [^\s{4}address\s*:\s*(.+?)\s*$], returning [group(1)] *)
Definition re_address (line : str) : option str :=
  Re.count 4 isspace
    (Re.lit (py "address")
      (Re.star isspace
        (Re.lit (py ":")
          (Re.star isspace
            (Re.plus_lazy_group anychar
              (fun g => Re.star isspace (Re.eos g)) []))))) line.

(** [^\s{4}private_key\s*:\s*(\S+)\s*$], returning [group(1)] *)
Definition re_private_key (line : str) : option str :=
  Re.count 4 isspace
    (Re.lit (py "private_key")
      (Re.star isspace
        (Re.lit (py ":")
          (Re.star isspace
            (Re.plus_group nonspace
              (fun g => Re.star isspace (Re.eos g)) []))))) line.

(** ** Exceptions *)

Inductive exn := KeyError | FileNotFoundError | RuntimeError.

Inductive result (A : Type) :=
| Ok (a : A)
| Raise (e : exn).
Arguments Ok {A} a.
Arguments Raise {A} e.

Definition bind {A B} (m : result A) (f : A -> result B) : result B :=
  match m with
  | Ok a => f a
  | Raise e => Raise e
  end.

Notation "x <- m ;; f" := (bind m (fun x => f))
  (at level 61, m at next level, right associativity).

(** ** Dictionaries

    A Python [dict] keeps its items in insertion order and holds a key at
    most once: an association list, in which [d[k] = v] replaces the value
    of a present key in place and appends an absent one. *)

Section Dict.
Context {V : Type}.

Definition dict := list (str * V).

(** [d.get(k)] *)
Fixpoint dict_get (k : str) (d : dict) : option V :=
  match d with
  | [] => None
  | (k', v) :: d' => if str_eqb k' k then Some v else dict_get k d'
  end.

(** [k in d] *)
Definition dict_in (k : str) (d : dict) : bool := is_some (dict_get k d).

(** [d[k]], raising [KeyError] on an absent key *)
Definition getitem (k : str) (d : dict) : result V :=
  match dict_get k d with
  | Some v => Ok v
  | None => Raise KeyError
  end.

(** [d[k] = v] *)
Fixpoint dict_set (k : str) (v : V) (d : dict) : dict :=
  match d with
  | [] => [(k, v)]
  | (k', v') :: d' =>
      if str_eqb k' k then (k', v) :: d' else (k', v') :: dict_set k v d'
  end.

(** [d.keys()] *)
Definition keys (d : dict) : list str := map fst d.

End Dict.
Arguments dict V : clear implicits.

(** The inner dictionary of an account has at most the keys ["address"] and
    ["private_key"]; [None] is an absent key. *)
Record account := mk_account {
  address : option str;
  private_key : option str
}.

Definition no_fields : account := mk_account None None.

Definition set_address (v : str) (d : account) : account :=
  mk_account (Some v) (private_key d).

Definition set_private_key (v : str) (d : account) : account :=
  mk_account (address d) (Some v).

Definition accounts_t := dict account.

(** [d.get(key) or ""] *)
Definition or_empty (o : option str) : str :=
  match o with
  | Some s => s
  | None => []
  end.

(** [d.get("address") or d.get("private_key")], as a truth value *)
Definition has_field (d : account) : bool :=
  truthy (or_empty (address d)) || truthy (or_empty (private_key d)).

(** [accounts[alias]["address"] = v] and [accounts[alias]["private_key"] = v] *)
Definition store_address (alias v : str) (accounts : accounts_t) : result accounts_t :=
  d <- getitem alias accounts ;;
  Ok (dict_set alias (set_address v d) accounts).

Definition store_private_key (alias v : str) (accounts : accounts_t) : result accounts_t :=
  d <- getitem alias accounts ;;
  Ok (dict_set alias (set_private_key v d) accounts).

(** ** The parser *)

(** The first loop of [parse_accounts_accounts_section]: the index of the
    first line matching [accounts:], counted from [i]; [None] is [start == -1]. *)
Fixpoint find_start (i : nat) (lines : list str) : option nat :=
  match lines with
  | [] => None
  | line :: rest =>
      if is_some (re_accounts line) then Some i else find_start (S i) rest
  end.

(** The second loop, over [lines[start + 1:]]; returning at once is [break]. *)
Fixpoint scan (lines : list str) (accounts : accounts_t) (current_alias : str)
  : result accounts_t :=
  match lines with
  | [] => Ok accounts
  | line :: rest =>
      if is_some (re_toplevel line) && negb (startswith SPACE line) then Ok accounts
      else
        match re_alias line with
        | Some g =>
            let current_alias := g in
            let accounts :=
              if negb (dict_in current_alias accounts)
              then dict_set current_alias no_fields accounts
              else accounts in
            scan rest accounts current_alias
        | None =>
            if negb (truthy current_alias) then scan rest accounts current_alias
            else
              match re_address line with
              | Some g =>
                  accounts <- store_address current_alias (_strip_quotes g) accounts ;;
                  scan rest accounts current_alias
              | None =>
                  match re_private_key line with
                  | Some g =>
                      accounts <- store_private_key current_alias (_strip_quotes g) accounts ;;
                      scan rest accounts current_alias
                  | None => scan rest accounts current_alias
                  end
              end
        end
  end.

(** The final comprehension: keep the accounts with at least one field. *)
Definition cleanup (accounts : accounts_t) : accounts_t :=
  filter (fun ad => has_field (snd ad)) accounts.

Definition parse_accounts_accounts_section (text : str) : result accounts_t :=
  let lines := splitlines text in
  match find_start 0 lines with
  | None => Ok []
  | Some start =>
      accounts <- scan (skipn (start + 1) lines) [] [] ;;
      Ok (cleanup accounts)
  end.

(** ** The serializer *)

(** [sorted] on strings: code-point lexicographic order. *)
Fixpoint str_leb (a b : str) : bool :=
  match a, b with
  | [], _ => true
  | _ :: _, [] => false
  | x :: a', y :: b' =>
      if x <? y then true else if x =? y then str_leb a' b' else false
  end.

Fixpoint insert_sorted (k : str) (l : list str) : list str :=
  match l with
  | [] => [k]
  | h :: t => if str_leb k h then k :: l else h :: insert_sorted k t
  end.

Fixpoint sorted (l : list str) : list str :=
  match l with
  | [] => []
  | h :: t => insert_sorted h (sorted t)
  end.

Definition warning_line : str :=
  py "# IMPORTANT: This file contains PRIVATE KEYS. KEEP IT SECRET. DO NOT COMMIT." ++ [NL].

Definition accounts_line : str := py "accounts:" ++ [NL].

(** The lines appended for one alias. *)
Definition alias_line (alias : str) : str := py "  " ++ alias ++ py ":" ++ [NL].

Definition address_line (addr : str) : str :=
  py "    address: " ++ [DQUOTE] ++ addr ++ [DQUOTE] ++ [NL].

Definition private_key_line (pk : str) : str :=
  py "    private_key: " ++ pk ++ [NL].

(** The loop of [write_pk_yaml] over the sorted aliases. *)
Fixpoint render_loop (aliases : list str) (accounts : accounts_t) (lines : list str)
  : result (list str) :=
  match aliases with
  | [] => Ok lines
  | alias :: rest =>
      d <- getitem alias accounts ;;
      let addr := strip (or_empty (address d)) in
      d' <- getitem alias accounts ;;
      let pk := strip (or_empty (private_key d')) in
      let lines := lines ++ [alias_line alias] in
      let lines := if truthy addr then lines ++ [address_line addr] else lines in
      let lines := if truthy pk then lines ++ [private_key_line pk] else lines in
      render_loop rest accounts lines
  end.

(** The text handed to [out.write_text]. *)
Definition render (accounts : accounts_t) : result str :=
  let lines := [] ++ [warning_line] in
  let lines := lines ++ [accounts_line] in
  lines <- render_loop (sorted (keys accounts)) accounts lines ;;
  Ok (concat lines).

(** ** Files and the synchronisation

    The two documents of the program: [config.yaml] (the source of truth)
    and [pk.txt] (the local copy); [None] is a file that does not exist. *)

Record files := mk_files {
  config_yaml : option str;
  pk_txt : option str
}.

(** [path.exists()] *)
Definition exists_ (f : option str) : bool := is_some f.

Definition read_accounts_file (f : option str) : result accounts_t :=
  match f with
  | None => Ok []
  | Some raw => parse_accounts_accounts_section raw
  end.

(** Truthiness of a dictionary: it has an item. *)
Definition truthy_dict {V} (d : dict V) : bool :=
  match d with [] => false | _ :: _ => true end.

(** [write_pk_yaml]: the new state of the files. *)
Definition write_pk_yaml (accounts : accounts_t) (fs : files) : result files :=
  text <- render accounts ;;
  Ok (mk_files (config_yaml fs) (Some text)).

Record report := mk_report {
  added : nat;
  filled : nat;
  mismatches : nat
}.

(** The [for alias, d in cfg_accounts.items()] loop of [sync_config_to_pk]. *)
Fixpoint merge_loop (items : list (str * account)) (pk_accounts : accounts_t)
  (added filled mismatches : nat) : result (accounts_t * report) :=
  match items with
  | [] => Ok (pk_accounts, mk_report added filled mismatches)
  | (alias, d) :: rest =>
      let cfg_addr := strip (or_empty (address d)) in
      let cfg_pk := strip (or_empty (private_key d)) in
      if negb (dict_in alias pk_accounts) then
        let pk_accounts :=
          dict_set alias (mk_account (Some cfg_addr) (Some cfg_pk)) pk_accounts in
        merge_loop rest pk_accounts (added + 1)%nat filled mismatches
      else
        e <- getitem alias pk_accounts ;;
        let pk_addr := strip (or_empty (address e)) in
        e <- getitem alias pk_accounts ;;
        let pk_priv := strip (or_empty (private_key e)) in
        st <- (if negb (truthy pk_addr) && truthy cfg_addr
               then pk_accounts <- store_address alias cfg_addr pk_accounts ;;
                    Ok (pk_accounts, filled + 1)%nat
               else Ok (pk_accounts, filled)) ;;
        let '(pk_accounts, filled) := st in
        st <- (if negb (truthy pk_priv) && truthy cfg_pk
               then pk_accounts <- store_private_key alias cfg_pk pk_accounts ;;
                    Ok (pk_accounts, filled + 1)%nat
               else Ok (pk_accounts, filled)) ;;
        let '(pk_accounts, filled) := st in
        e <- getitem alias pk_accounts ;;
        let pk_addr2 := strip (or_empty (address e)) in
        e <- getitem alias pk_accounts ;;
        let pk_priv2 := strip (or_empty (private_key e)) in
        let mismatches :=
          if truthy cfg_addr && truthy pk_addr2 && negb (str_eqb cfg_addr pk_addr2)
          then (mismatches + 1)%nat else mismatches in
        let mismatches :=
          if truthy cfg_pk && truthy pk_priv2 && negb (str_eqb cfg_pk pk_priv2)
          then (mismatches + 1)%nat else mismatches in
        merge_loop rest pk_accounts added filled mismatches
  end.

(** [sync_config_to_pk]: the state of the files afterwards, and the counts
    it prints or the exception it raises. *)
Definition sync_config_to_pk (fs : files) : files * result report :=
  let cfg := config_yaml fs in
  if negb (exists_ cfg) then (fs, Raise FileNotFoundError)
  else
    match read_accounts_file cfg with
    | Raise e => (fs, Raise e)
    | Ok cfg_accounts =>
        if negb (truthy_dict cfg_accounts) then (fs, Raise RuntimeError)
        else
          match read_accounts_file (pk_txt fs) with
          | Raise e => (fs, Raise e)
          | Ok pk_accounts =>
              match merge_loop cfg_accounts pk_accounts 0 0 0 with
              | Raise e => (fs, Raise e)
              | Ok (pk_accounts, rep) =>
                  match write_pk_yaml pk_accounts fs with
                  | Raise e => (fs, Raise e)
                  | Ok fs' => (fs', Ok rep)
                  end
              end
          end
    end.

(** ** Vocabulary of the properties *)

(** The number of whitespace characters a line starts with. *)
Fixpoint indent (line : str) : nat :=
  match line with
  | c :: rest => if isspace c then S (indent rest) else O
  | [] => O
  end.

(** The number of U+0020 characters a line starts with. *)
Fixpoint space_indent (line : str) : nat :=
  match line with
  | c :: rest => if c =? SPACE then S (space_indent rest) else O
  | [] => O
  end.

(** A value is blank when nothing is left of it after [strip]. *)
Definition blank (s : str) : bool := negb (truthy (strip s)).

(** Two dictionaries are equal ([==]) when they hold the same items,
    whatever the insertion order. *)
Definition dict_eq {V} (d1 d2 : dict V) : Prop :=
  forall k, dict_get k d1 = dict_get k d2.

(** *** The reconciliation, in the words of its description

    [src] is a source value after [strip]; [dst] a destination field. *)

(** The account stored for an alias the destination does not have. *)
Definition inserted (d : account) : account :=
  mk_account (Some (strip (or_empty (address d))))
             (Some (strip (or_empty (private_key d)))).

(** A destination field is filled when it is blank and the source is not. *)
Definition fills (dst : option str) (src : str) : bool :=
  blank (or_empty dst) && truthy src.

Definition fill_field (dst : option str) (src : str) : option str :=
  if fills dst src then Some src else dst.

(** A mismatch: the source and the destination field as it stands after
    the fills are both non-empty and differ. *)
Definition clashes (post : option str) (src : str) : bool :=
  truthy src && truthy (strip (or_empty post))
  && negb (str_eqb src (strip (or_empty post))).

(** The destination account [e] after the source account [d] was merged in. *)
Definition reconciled (e d : account) : account :=
  mk_account (fill_field (address e) (strip (or_empty (address d))))
             (fill_field (private_key e) (strip (or_empty (private_key d)))).

Definition b2n (b : bool) : nat := if b then 1%nat else 0%nat.

Definition fills_of (e d : account) : nat :=
  (b2n (fills (address e) (strip (or_empty (address d))))
   + b2n (fills (private_key e) (strip (or_empty (private_key d)))))%nat.

Definition clashes_of (e d : account) : nat :=
  (b2n (clashes (address (reconciled e d)) (strip (or_empty (address d))))
   + b2n (clashes (private_key (reconciled e d)) (strip (or_empty (private_key d)))))%nat.

(** One turn of the loop on the destination. *)
Definition merge_item (alias : str) (d : account) (pk : accounts_t) : accounts_t :=
  match dict_get alias pk with
  | None => dict_set alias (inserted d) pk
  | Some e => dict_set alias (reconciled e d) pk
  end.

(** The three counts, summed over the source against the destination [D]. *)
Fixpoint count_added (S D : accounts_t) : nat :=
  match S with
  | [] => O
  | (a, _) :: rest => (b2n (negb (dict_in a D)) + count_added rest D)%nat
  end.

Fixpoint count_filled (S D : accounts_t) : nat :=
  match S with
  | [] => O
  | (a, d) :: rest =>
      (match dict_get a D with Some e => fills_of e d | None => O end
       + count_filled rest D)%nat
  end.

Fixpoint count_mismatches (S D : accounts_t) : nat :=
  match S with
  | [] => O
  | (a, d) :: rest =>
      (match dict_get a D with Some e => clashes_of e d | None => O end
       + count_mismatches rest D)%nat
  end.

(** The destination after the whole loop. *)
Fixpoint merge_all (S pk : accounts_t) : accounts_t :=
  match S with
  | [] => pk
  | (a, d) :: rest => merge_all rest (merge_item a d pk)
  end.

(** [e'] keeps every field of [e] that is not blank. *)
Definition keeps (e e' : account) : Prop :=
  (blank (or_empty (address e)) = false -> address e' = address e)
  /\ (blank (or_empty (private_key e)) = false -> private_key e' = private_key e).

(** Nothing is left to add or fill for the source item [(a, d)]. *)
Definition settled (a : str) (d : account) (pk : accounts_t) : Prop :=
  exists e, dict_get a pk = Some e
    /\ fills (address e) (strip (or_empty (address d))) = false
    /\ fills (private_key e) (strip (or_empty (private_key d))) = false.

(** The subject [t] does not start with a character of the class. *)
Definition stops (cls : char -> bool) (t : str) : Prop :=
  match t with
  | [] => True
  | c :: _ => cls c = false
  end.

(** *** The field lines of a section *)

Inductive field := Address | PrivateKey.

Definition field_eqb (f g : field) : bool :=
  match f, g with
  | Address, Address | PrivateKey, PrivateKey => true
  | _, _ => false
  end.

Definition get_field (f : field) (d : account) : option str :=
  match f with
  | Address => address d
  | PrivateKey => private_key d
  end.

(** The value stored for field [f] of alias [a], if any. *)
Definition stored (f : field) (a : str) (accounts : accounts_t) : option str :=
  match dict_get a accounts with
  | Some d => get_field f d
  | None => None
  end.

(** The field lines that the scan recognises, in the order of the document:
    for each one the alias whose block it is in, the field, and the value
    it carries. *)
Fixpoint field_lines (lines : list str) (current_alias : str)
  : list (str * field * str) :=
  match lines with
  | [] => []
  | line :: rest =>
      if is_some (re_toplevel line) && negb (startswith SPACE line) then []
      else
        match re_alias line with
        | Some g => field_lines rest g
        | None =>
            if negb (truthy current_alias) then field_lines rest current_alias
            else
              match re_address line with
              | Some g =>
                  (current_alias, Address, _strip_quotes g)
                  :: field_lines rest current_alias
              | None =>
                  match re_private_key line with
                  | Some g =>
                      (current_alias, PrivateKey, _strip_quotes g)
                      :: field_lines rest current_alias
                  | None => field_lines rest current_alias
                  end
              end
        end
  end.

(** The value of the last field line for field [f] of alias [a]. *)
Fixpoint last_value (a : str) (f : field) (evs : list (str * field * str))
  : option str :=
  match evs with
  | [] => None
  | (a', f', v) :: rest =>
      match last_value a f rest with
      | Some v' => Some v'
      | None => if str_eqb a' a && field_eqb f' f then Some v else None
      end
  end.

(** A section in which field lines and a block are repeated. *)
Definition repeated_fields_text : str :=
  py "accounts:" ++ [NL] ++ py "  a:" ++ [NL]
  ++ py "    address: x" ++ [NL] ++ py "    address: y" ++ [NL]
  ++ py "  b:" ++ [NL] ++ py "    private_key: k" ++ [NL]
  ++ py "  a:" ++ [NL] ++ py "    address: z" ++ [NL].

(** *** The canonical text *)

Definition str_le (a b : str) : Prop := str_leb a b = true.

(** The lines of one account in the canonical text: the header, then the
    address in double quotes unless it is blank, then the private key as it
    is unless it is blank. *)
Definition emitted_lines (alias : str) (d : account) : list str :=
  [py "  " ++ alias ++ py ":" ++ [NL]]
  ++ (if blank (or_empty (address d)) then []
      else [py "    address: " ++ [DQUOTE] ++ strip (or_empty (address d))
            ++ [DQUOTE] ++ [NL]])
  ++ (if blank (or_empty (private_key d)) then []
      else [py "    private_key: " ++ strip (or_empty (private_key d)) ++ [NL]]).

Definition block (accounts : accounts_t) (alias : str) : list str :=
  match dict_get alias accounts with
  | Some d => emitted_lines alias d
  | None => []
  end.

Definition canonical_text (accounts : accounts_t) : str :=
  py "# IMPORTANT: This file contains PRIVATE KEYS. KEEP IT SECRET. DO NOT COMMIT."
  ++ [NL] ++ py "accounts:" ++ [NL]
  ++ concat (flat_map (block accounts) (sorted (keys accounts))).

(** *** Valid accounts *)

Definition valid_alias (a : str) : Prop := a <> [] /\ forallb istoken a = true.

(** The test of [_strip_quotes]: the text is wrapped in quote characters. *)
Definition quoted (s : str) : bool :=
  (startswith DQUOTE s && endswith DQUOTE s)
  || (startswith SQUOTE s && endswith SQUOTE s).

Definition no_linebreak (s : str) : bool :=
  forallb (fun c => negb (islinebreak c)) s.

(** A present field value: not empty, no whitespace at either end, no line
    boundary inside, no quote characters around it. *)
Definition valid_value (v : str) : Prop :=
  v <> [] /\ strip v = v /\ no_linebreak v = true /\ quoted v = false.

(** The valid dictionaries of the claim C1. *)
Definition claimed_valid (X : accounts_t) : Prop :=
  NoDup (keys X)
  /\ forall a d, In (a, d) X ->
     valid_alias a
     /\ (forall v, address d = Some v -> valid_value v)
     /\ (forall v, private_key d = Some v -> valid_value v).

(** What the round trip needs besides: every account has a field, and a
    private key is one token. *)
Definition round_trip_valid (X : accounts_t) : Prop :=
  claimed_valid X
  /\ forall a d, In (a, d) X ->
     (address d <> None \/ private_key d <> None)
     /\ (forall v, private_key d = Some v -> forallb nonspace v = true).

(** The lines of one account, without their line feed. *)
Definition header_text (alias : str) : str := py "  " ++ alias ++ py ":".

Definition address_text (v : str) : str :=
  py "    address: " ++ [DQUOTE] ++ v ++ [DQUOTE].

Definition private_key_text (v : str) : str := py "    private_key: " ++ v.

Definition bare_lines (alias : str) (d : account) : list str :=
  [header_text alias]
  ++ (if blank (or_empty (address d)) then []
      else [address_text (strip (or_empty (address d)))])
  ++ (if blank (or_empty (private_key d)) then []
      else [private_key_text (strip (or_empty (private_key d)))]).

Definition bare_block (accounts : accounts_t) (alias : str) : list str :=
  match dict_get alias accounts with
  | Some d => bare_lines alias d
  | None => []
  end.

(** The account of [alias] in [X]. *)
Definition entry (X : accounts_t) (alias : str) : account :=
  match dict_get alias X with
  | Some d => d
  | None => no_fields
  end.

(** The items of [X] in the order of the aliases. *)
Definition sorted_items (X : accounts_t) : accounts_t :=
  map (fun a => (a, entry X a)) (sorted (keys X)).

Definition terminate (l : str) : str := l ++ [NL].

(** The round trip: the text the serializer writes for [X] parses to [Y]. *)
Definition parses_back (X Y : accounts_t) : Prop :=
  exists text,
    render X = Ok text /\ parse_accounts_accounts_section text = Ok Y.

(** A valid dictionary used to exercise the round trip. *)
Definition sample_accounts : accounts_t :=
  [(py "bob", mk_account (Some (py "0xB")) (Some (py "k2")));
   (py "alice", mk_account (Some (py "0xA")) None)].

(** *** Documents as lists of lines *)

(** A document whose lines end with a line feed, and the same document
    with the line ends of Windows. *)
Definition unlines (ls : list str) : str := concat (map terminate ls).

Definition unlines_crlf (ls : list str) : str :=
  concat (map (fun l => l ++ [CR; NL]) ls).

(** No private key of the dictionary contains whitespace. *)
Definition private_key_token (d : account) : Prop :=
  forall v, private_key d = Some v -> forallb nonspace v = true.

(** What may follow the accounts section: nothing, or a top-level key and
    any lines after it. *)
Definition section_ends (tail : list str) : Prop :=
  match tail with
  | [] => True
  | top :: _ => re_toplevel top <> None
  end.

(** A text that starts and ends with a character that is not whitespace. *)
Definition trimmed (t : str) : Prop :=
  t <> [] /\ lstrip t = t /\ rstrip t = t.

(** A field line: four whitespace characters, the key, a colon with any
    whitespace around it, the written value, any whitespace. *)
Definition field_line (ind : str) (key : str) (w1 w2 : str) (t : str) (w3 : str) : str :=
  ind ++ key ++ w1 ++ py ":" ++ w2 ++ t ++ w3.

Definition spaces (w : str) : Prop := forallb isspace w = true.

(** The value [v] between two quote characters [q]. *)
Definition wrap (q : char) (v : str) : str := q :: v ++ [q].

(** Files used to exercise the synchronisation. *)
Definition sample_files : files :=
  mk_files
    (Some (unlines [py "accounts:"; py "  alice:"; py "    address: 0xAA"]))
    (Some (unlines [py "accounts:"; py "  bob:"; py "    private_key: k2"])).

(** ** Destination names

    [ensure_trailing_slash], [slugify_filename], [choose_prefix_by_ext] and
    [build_dst]. *)

Definition DASH : char := 45.
Definition DOT : char := 46.
Definition SLASH : char := 47.

Definition ensure_trailing_slash (s : str) : str :=
  if endswith SLASH s then s else s ++ py "/".

(** [re.sub(X+, repl, s)] for a character class [X]: every maximal run of
    characters of the class is replaced by [repl]; [inrun] tells that the
    run being read has been replaced already. *)
Fixpoint sub_runs (cls : char -> bool) (repl : str) (inrun : bool) (s : str) : str :=
  match s with
  | [] => []
  | c :: s' =>
      if cls c then
        if inrun then sub_runs cls repl true s'
        else repl ++ sub_runs cls repl true s'
      else c :: sub_runs cls repl false s'
  end.

(** [re.sub(x{2,}, repl, s)] for a character [x]: a run of two or more [x]
    is replaced by [repl], a single [x] stays. *)
Fixpoint sub_repeats (x : char) (repl : str) (inrun : bool) (s : str) : str :=
  match s with
  | [] => []
  | c :: s' =>
      if c =? x then
        if inrun then sub_repeats x repl true s'
        else
          match s' with
          | d :: _ =>
              if d =? x then repl ++ sub_repeats x repl true s'
              else c :: sub_repeats x repl false s'
          | [] => [c]
          end
      else c :: sub_repeats x repl false s'
  end.

(** [s.lstrip(x)] and [s.strip(x)] for a one-character [x]. *)
Fixpoint lstrip_char (x : char) (s : str) : str :=
  match s with
  | c :: s' => if c =? x then lstrip_char x s' else s
  | [] => []
  end.

Definition strip_char (x : char) (s : str) : str :=
  rev (lstrip_char x (rev (lstrip_char x s))).

(** The variable [stem] of [slugify_filename], from [Path(name).stem]. *)
Definition slug_stem (stem : str) : str :=
  let stem := sub_runs isspace (py "-") false (strip stem) in
  let stem := sub_runs (fun c => negb (istoken c)) (py "-") false stem in
  let stem := strip_char DASH (sub_repeats DASH (py "-") false stem) in
  if truthy stem then stem else py "file".

(** [x in xs] for a collection of strings *)
Definition str_in (x : str) (xs : list str) : bool := existsb (str_eqb x) xs.

Section Destination.

(** [str.lower], the environment ([None] for a variable that is not set)
    and the date [datetime.now().strftime("%Y-%m-%d")]. *)
Variable lower : str -> str.
Variable getenv : str -> option str.
Variable today : str.

(** [os.getenv(name, default)] *)
Definition getenv_default (name default : str) : str :=
  match getenv name with
  | Some v => v
  | None => default
  end.

(** [slugify_filename], from the [stem] and the [suffix] of [Path(name)]. *)
Definition slugify_filename (stem suffix : str) : str :=
  slug_stem stem ++ lower suffix.

Definition choose_prefix_by_ext (ext : str) : str :=
  let ext := lstrip_char DOT (lower ext) in
  let img := [py "png"; py "jpg"; py "jpeg"; py "webp"; py "gif"; py "bmp";
              py "tiff"; py "svg"] in
  let vid := [py "mp4"; py "mov"; py "mkv"; py "avi"; py "webm"; py "m4v"] in
  if str_in ext img then getenv_default (py "DEST_PREFIX_IMAGE") (py "images/")
  else if str_in ext vid then getenv_default (py "DEST_PREFIX_VIDEO") (py "videos/")
  else getenv_default (py "DEST_PREFIX_FILE") (py "files/").

(** [build_dst], from the [stem] and the [suffix] of [local_path]. *)
Definition build_dst (stem suffix : str) : str :=
  let prefix := ensure_trailing_slash (choose_prefix_by_ext suffix) in
  let fname := slugify_filename stem suffix in
  let prefix :=
    if str_in (lower (getenv_default (py "ADD_DATE_FOLDER") (py "false")))
              [py "1"; py "true"; py "yes"; py "y"]
    then ensure_trailing_slash (prefix ++ today)
    else prefix in
  prefix ++ fname.

End Destination.

(** No two adjacent characters of [s] are both [x]. *)
Fixpoint no_repeat (x : char) (s : str) : bool :=
  match s with
  | a :: t =>
      match t with
      | b :: _ => negb ((a =? x) && (b =? x)) && no_repeat x t
      | [] => true
      end
  | [] => true
  end.

(** ** Scraping the output of the command line tool

    [get_shelbyusd_faucet_url] and [shelby_balance] search the text printed
    by the [shelby] command. *)

Section Search.
Context {A : Type}.

(** The end of a pattern that is not anchored: whatever follows. *)
Definition accept (r : A) : @Re.cont A := fun _ => Some r.

(** [x?] (greedy), giving the text it matched to the rest of the pattern *)
Definition opt_group (x : char) (k : str -> @Re.cont A) (s : str) : option A :=
  match s with
  | c :: s' =>
      if c =? x then
        match k [x] s' with
        | Some r => Some r
        | None => k [] s
        end
      else k [] s
  | [] => k [] []
  end.

(** [X*?] (lazy) *)
Fixpoint star_lazy (cls : char -> bool) (k : @Re.cont A) (s : str) : option A :=
  match k s with
  | Some r => Some r
  | None =>
      match s with
      | c :: s' => if cls c then star_lazy cls k s' else None
      | [] => None
      end
  end.

(** [re.search]: the match at the leftmost position that has one. *)
Fixpoint search (m : str -> option A) (s : str) : option A :=
  match m s with
  | Some r => Some r
  | None =>
      match s with
      | _ :: s' => search m s'
      | [] => None
      end
  end.

End Search.

(** The classes [[a-fA-F0-9]] and [[0-9.,]], and [.] under [re.S]. *)
Definition ishex (c : char) : bool :=
  ((97 <=? c) && (c <=? 102)) || ((65 <=? c) && (c <=? 70))
  || ((48 <=? c) && (c <=? 57)).

Definition isamount (c : char) : bool :=
  ((48 <=? c) && (c <=? 57)) || (c =? 46) || (c =? 44).

Definition dotall (c : char) : bool := true.

(** [https?://\S+], returning [group(0)] *)
Definition re_url (s : str) : option str :=
  Re.lit (py "http")
    (opt_group 115
      (fun o => Re.lit (py "://")
        (Re.plus_group nonspace
          (fun g => accept (py "http" ++ o ++ py "://" ++ g)) []))) s.

(** [Address:\s*(0x[a-fA-F0-9]+)], returning [group(1)] *)
Definition re_balance_address (s : str) : option str :=
  Re.lit (py "Address:")
    (Re.star isspace
      (Re.lit (py "0x")
        (Re.plus_group ishex (fun g => accept (py "0x" ++ g)) []))) s.

(** [\|\s*APT\s*\|.*?\|\s*([0-9.,]+)\s*APT\s*\|] with [re.S], returning
    [group(1)] *)
Definition re_apt (s : str) : option str :=
  Re.lit (py "|") (Re.star isspace (Re.lit (py "APT") (Re.star isspace
    (Re.lit (py "|") (star_lazy dotall
      (Re.lit (py "|") (Re.star isspace
        (Re.plus_group isamount
          (fun g => Re.star isspace (Re.lit (py "APT") (Re.star isspace
             (Re.lit (py "|") (accept g))))) [])))))))) s.

(** [\|\s*ShelbyUS.*?\|\s*([0-9.,]+)\s*ShelbyUSD\s*\|] with [re.S],
    returning [group(1)] *)
Definition re_shelbyusd (s : str) : option str :=
  Re.lit (py "|") (Re.star isspace (Re.lit (py "ShelbyUS")
    (star_lazy dotall
      (Re.lit (py "|") (Re.star isspace
        (Re.plus_group isamount
          (fun g => Re.star isspace (Re.lit (py "ShelbyUSD") (Re.star isspace
             (Re.lit (py "|") (accept g))))) [])))))) s.

(** The text of a finished process:
    [(proc.stdout or "") + ("\n" + proc.stderr if proc.stderr else "")] *)
Definition process_text (proc : option str * option str) : str :=
  let '(stdout, stderr) := proc in
  or_empty stdout ++ (if truthy (or_empty stderr) then NL :: or_empty stderr else []).

(** [get_shelbyusd_faucet_url], from the outcome of [run_cmd]: any
    exception gives [None]. *)
Definition get_shelbyusd_faucet_url (ran : result (option str * option str))
  : option str :=
  match ran with
  | Ok proc => search re_url (process_text proc)
  | Raise _ => None
  end.

(** [s.replace(",", "")] *)
Definition remove_commas (s : str) : str := filter (fun c => negb (c =? 44)) s.

Module Balance.

Record t (dec : Type) := mk {
  address : option str;
  apt : option dec;
  shelbyusd : option dec;
  raw_text : str
}.
Arguments mk {dec}.
Arguments address {dec}.
Arguments apt {dec}.
Arguments shelbyusd {dec}.
Arguments raw_text {dec}.

End Balance.

Section ShelbyBalance.

(** The constructor [Decimal] on a string; [None] when it raises. *)
Variable dec : Type.
Variable Decimal : str -> option dec.

(** [parse_decimal] *)
Definition parse_decimal (s : str) : option dec := Decimal (remove_commas s).

(** [shelby_balance], from the outcome of [run_cmd], whose exception it
    lets through. *)
Definition shelby_balance (ran : result (option str * option str))
  : result (Balance.t dec) :=
  proc <- ran ;;
  let text := process_text proc in
  Ok (Balance.mk
        (search re_balance_address text)
        (match search re_apt text with
         | Some g => parse_decimal g
         | None => None
         end)
        (match search re_shelbyusd text with
         | Some g => parse_decimal g
         | None => None
         end)
        text).

End ShelbyBalance.

(** The class of the characters of an amount once the commas are removed. *)
Definition isdigit_or_dot (c : char) : bool :=
  ((48 <=? c) && (c <=? 57)) || (c =? 46).

(** * Properties *)

(** ** Strings *)

Lemma str_eqb_refl (a : str) : str_eqb a a = true.
Proof.
  induction a as [|x a IH]; simpl; [reflexivity|].
  now rewrite N.eqb_refl.
Qed.

Lemma str_eqb_eq (a b : str) : str_eqb a b = true <-> a = b.
Proof.
  split.
  - revert b; induction a as [|x a IH]; intros [|y b]; simpl; try discriminate; auto.
    intros H. apply andb_true_iff in H as [Hx Hab].
    apply N.eqb_eq in Hx. f_equal; auto.
  - intros ->. apply str_eqb_refl.
Qed.

Lemma str_eqb_neq (a b : str) : str_eqb a b = false <-> a <> b.
Proof.
  split.
  - intros H E. apply str_eqb_eq in E. congruence.
  - intros H. destruct (str_eqb a b) eqn:E; [|reflexivity].
    apply str_eqb_eq in E. contradiction.
Qed.

Lemma str_eqb_sym (a b : str) : str_eqb a b = str_eqb b a.
Proof.
  destruct (str_eqb a b) eqn:E.
  - apply str_eqb_eq in E. subst. symmetry. apply str_eqb_refl.
  - symmetry. apply str_eqb_neq. apply str_eqb_neq in E. congruence.
Qed.

Lemma truthy_true (s : str) : truthy s = true <-> s <> [].
Proof. destruct s; simpl; split; congruence. Qed.

Lemma truthy_false (s : str) : truthy s = false <-> s = [].
Proof. destruct s; simpl; split; congruence. Qed.

(** Turns a hypothesis on a character class into linear arithmetic. *)
Ltac class_arith :=
  repeat match goal with
  | H : _ && _ = true |- _ => apply andb_true_iff in H; destruct H
  | H : _ || _ = true |- _ => apply orb_true_iff in H; destruct H
  | H : _ && _ = false |- _ => apply andb_false_iff in H; destruct H
  | H : _ || _ = false |- _ => apply orb_false_iff in H; destruct H
  | H : negb _ = true |- _ => apply negb_true_iff in H
  | H : negb _ = false |- _ => apply negb_false_iff in H
  | H : (_ <=? _) = true |- _ => apply N.leb_le in H
  | H : (_ <=? _) = false |- _ => apply N.leb_gt in H
  | H : (_ =? _) = true |- _ => apply N.eqb_eq in H
  | H : (_ =? _) = false |- _ => apply N.eqb_neq in H
  end.

Lemma token_not_space (c : char) : istoken c = true -> isspace c = false.
Proof.
  intros H. destruct (isspace c) eqn:E; [|reflexivity].
  unfold istoken, isspace in *. class_arith; lia.
Qed.

Lemma linebreak_is_space (c : char) : islinebreak c = true -> isspace c = true.
Proof.
  intros H. destruct (isspace c) eqn:E; [reflexivity|].
  unfold islinebreak, isspace in *. class_arith; lia.
Qed.

Lemma token_not_linebreak (c : char) : istoken c = true -> islinebreak c = false.
Proof.
  intros H. destruct (islinebreak c) eqn:E; [|reflexivity].
  apply linebreak_is_space in E. apply token_not_space in H. congruence.
Qed.

(** *** [strip] *)

Lemma lstrip_app (a b : str) :
  lstrip (a ++ b) = if truthy (lstrip a) then lstrip a ++ b else lstrip b.
Proof.
  induction a as [|c a IH]; simpl; [reflexivity|].
  destruct (isspace c); [exact IH|reflexivity].
Qed.

Lemma lstrip_idem (s : str) : lstrip (lstrip s) = lstrip s.
Proof.
  induction s as [|c s IH]; simpl; [reflexivity|].
  destruct (isspace c) eqn:E; [exact IH|]. simpl. now rewrite E.
Qed.

Lemma lstrip_head (s : str) :
  match lstrip s with
  | [] => True
  | c :: _ => isspace c = false
  end.
Proof.
  induction s as [|c s IH]; simpl; [exact I|].
  destruct (isspace c) eqn:E; [exact IH|exact E].
Qed.

Lemma lstrip_fix (c : char) (s : str) : isspace c = false -> lstrip (c :: s) = c :: s.
Proof. intros H. simpl. now rewrite H. Qed.

(** [rstrip] by recursion on the string. *)
Lemma rstrip_cons (c : char) (s : str) :
  rstrip (c :: s) =
    if truthy (rstrip s) then c :: rstrip s
    else if isspace c then [] else [c].
Proof.
  unfold rstrip. simpl. rewrite lstrip_app.
  destruct (lstrip (rev s)) as [|x l] eqn:E; simpl.
  - destruct (isspace c); reflexivity.
  - destruct (rev (x :: l)) eqn:E2.
    + apply (f_equal (@rev _)) in E2. rewrite rev_involutive in E2. discriminate.
    + simpl. rewrite rev_app_distr. simpl. simpl in E2. now rewrite E2.
Qed.

Lemma rstrip_nil : rstrip [] = [].
Proof. reflexivity. Qed.

Lemma rstrip_idem (s : str) : rstrip (rstrip s) = rstrip s.
Proof.
  unfold rstrip. rewrite rev_involutive. now rewrite lstrip_idem.
Qed.

Lemma rstrip_keeps_head (c : char) (s : str) :
  isspace c = false -> exists r, rstrip (c :: s) = c :: r.
Proof.
  intros H. rewrite rstrip_cons, H.
  destruct (truthy (rstrip s)); eauto.
Qed.

Lemma strip_idem (s : str) : strip (strip s) = strip s.
Proof.
  unfold strip.
  assert (H : lstrip (rstrip (lstrip s)) = rstrip (lstrip s)).
  { pose proof (lstrip_head s) as Hh.
    destruct (lstrip s) as [|c t]; [reflexivity|].
    destruct (rstrip_keeps_head c t Hh) as [r Hr].
    rewrite Hr. now apply lstrip_fix. }
  rewrite H. apply rstrip_idem.
Qed.

Lemma blank_strip (s : str) : blank (strip s) = blank s.
Proof. unfold blank. now rewrite strip_idem. Qed.

Lemma strip_nil : strip [] = [].
Proof. reflexivity. Qed.

(** ** Dictionaries *)

Section DictFacts.
Context {V : Type}.
Implicit Types (d : dict V) (k : str) (v : V).

Lemma dict_get_set_same k v d : dict_get k (dict_set k v d) = Some v.
Proof.
  induction d as [|[k' v'] d IH]; simpl.
  - now rewrite str_eqb_refl.
  - destruct (str_eqb k' k) eqn:E; simpl; rewrite E; auto.
Qed.

Lemma dict_get_set_other k k' v d :
  k <> k' -> dict_get k' (dict_set k v d) = dict_get k' d.
Proof.
  intros Hne. induction d as [|[k0 v0] d IH]; simpl.
  - apply str_eqb_neq in Hne. now rewrite Hne.
  - destruct (str_eqb k0 k) eqn:E; simpl.
    + apply str_eqb_eq in E. subst k0.
      apply str_eqb_neq in Hne. now rewrite Hne.
    + destruct (str_eqb k0 k'); auto.
Qed.

Lemma dict_get_set k k' v d :
  dict_get k' (dict_set k v d) = if str_eqb k k' then Some v else dict_get k' d.
Proof.
  destruct (str_eqb k k') eqn:E.
  - apply str_eqb_eq in E. subst. apply dict_get_set_same.
  - apply str_eqb_neq in E. now apply dict_get_set_other.
Qed.

Lemma dict_set_get_id k v d : dict_get k d = Some v -> dict_set k v d = d.
Proof.
  induction d as [|[k' v'] d IH]; simpl; [discriminate|].
  destruct (str_eqb k' k) eqn:E.
  - now intros [= ->].
  - intros H. now rewrite IH.
Qed.

Lemma dict_set_set k v v' d : dict_set k v' (dict_set k v d) = dict_set k v' d.
Proof.
  induction d as [|[k0 v0] d IH]; simpl.
  - now rewrite str_eqb_refl.
  - destruct (str_eqb k0 k) eqn:E; simpl; rewrite E; [reflexivity|now rewrite IH].
Qed.

Lemma dict_get_In k v d : dict_get k d = Some v -> In (k, v) d.
Proof.
  induction d as [|[k' v'] d IH]; simpl; [discriminate|].
  destruct (str_eqb k' k) eqn:E.
  - apply str_eqb_eq in E. intros [= ->]. left. now subst.
  - auto.
Qed.

Lemma dict_get_None k d : dict_get k d = None <-> ~ In k (keys d).
Proof.
  induction d as [|[k' v'] d IH]; simpl.
  - tauto.
  - destruct (str_eqb k' k) eqn:E.
    + apply str_eqb_eq in E. split; [discriminate|]. intros H. exfalso. auto.
    + apply str_eqb_neq in E. rewrite IH. tauto.
Qed.

Lemma dict_in_keys k d : dict_in k d = true <-> In k (keys d).
Proof.
  unfold dict_in. destruct (dict_get k d) eqn:E; simpl.
  - split; [|reflexivity]. intros _.
    apply dict_get_In in E. apply (in_map fst) in E. exact E.
  - apply dict_get_None in E. split; [discriminate|contradiction].
Qed.

Lemma In_dict_get k v d : NoDup (keys d) -> In (k, v) d -> dict_get k d = Some v.
Proof.
  induction d as [|[k' v'] d IH]; simpl; [contradiction|].
  intros Hnd [H|H].
  - injection H as -> ->. now rewrite str_eqb_refl.
  - inversion Hnd as [|? ? Hnin Hnd']; subst.
    destruct (str_eqb k' k) eqn:E; [|auto].
    apply str_eqb_eq in E. subst k'.
    exfalso. apply Hnin. apply (in_map fst) in H. exact H.
Qed.

Lemma keys_dict_set k v d :
  keys (dict_set k v d) = if dict_in k d then keys d else keys d ++ [k].
Proof.
  unfold dict_in. induction d as [|[k' v'] d IH]; simpl; [reflexivity|].
  destruct (str_eqb k' k) eqn:E; simpl; [reflexivity|].
  rewrite IH. destruct (dict_get k d); reflexivity.
Qed.

Lemma dict_set_absent k v d : dict_get k d = None -> dict_set k v d = d ++ [(k, v)].
Proof.
  induction d as [|[k' v'] d IH]; simpl; [reflexivity|].
  destruct (str_eqb k' k); [discriminate|]. intros H. now rewrite IH.
Qed.

Lemma getitem_some k v d : dict_get k d = Some v -> getitem k d = Ok v.
Proof. unfold getitem. now intros ->. Qed.

End DictFacts.

(** ** The reconciliation loop *)

Lemma merge_loop_step alias d rest pk a f m :
  merge_loop ((alias, d) :: rest) pk a f m =
    merge_loop rest (merge_item alias d pk)
      (a + b2n (negb (dict_in alias pk)))
      (f + match dict_get alias pk with Some e => fills_of e d | None => O end)
      (m + match dict_get alias pk with Some e => clashes_of e d | None => O end).
Proof.
  unfold merge_item, dict_in. simpl merge_loop. unfold dict_in.
  destruct (dict_get alias pk) as [[ea ep]|] eqn:Hget; simpl is_some; cbv iota.
  - simpl negb. cbv iota.
    rewrite (getitem_some _ _ _ Hget). simpl bind.
    unfold fills_of, clashes_of, reconciled, fill_field, fills, blank.
    unfold store_address, store_private_key.
    set (ca := strip (or_empty (address d))).
    set (cp := strip (or_empty (private_key d))).
    simpl address; simpl private_key.
    destruct (negb (truthy (strip (or_empty ea))) && truthy ca) eqn:Ea;
      destruct (negb (truthy (strip (or_empty ep))) && truthy cp) eqn:Ep;
      simpl bind;
      repeat (first [ rewrite (getitem_some _ _ _ Hget)
                    | rewrite (getitem_some _ _ _ (dict_get_set_same _ _ _)) ];
              simpl bind);
      simpl address; simpl private_key; simpl or_empty;
      rewrite ?Ea, ?Ep;
      rewrite ?dict_set_set;
      rewrite ?(dict_set_get_id _ _ _ Hget);
      unfold clashes, b2n; simpl address; simpl private_key; simpl or_empty;
      repeat match goal with
             | |- context [if ?b then _ else _] => destruct b
             end;
      unfold set_address, set_private_key; simpl address; simpl private_key;
      rewrite ?(dict_set_get_id _ _ _ Hget);
      try (f_equal; lia).
  - simpl negb. cbv iota. unfold inserted, b2n.
    rewrite !Nat.add_0_r. reflexivity.
Qed.

Lemma merge_loop_result S : forall pk a f m,
  exists rep, merge_loop S pk a f m = Ok (merge_all S pk, rep)
    /\ (a <= added rep)%nat /\ (f <= filled rep)%nat.
Proof.
  induction S as [|[alias d] rest IH]; intros pk a f m.
  - simpl. eexists. split; [reflexivity|]. simpl. lia.
  - rewrite merge_loop_step. simpl merge_all.
    destruct (IH (merge_item alias d pk)
                (a + b2n (negb (dict_in alias pk)))%nat
                (f + match dict_get alias pk with Some e => fills_of e d | None => O end)%nat
                (m + match dict_get alias pk with Some e => clashes_of e d | None => O end)%nat)
      as (rep & Hrep & Ha & Hf).
    exists rep. repeat split; [exact Hrep| lia | lia].
Qed.

Lemma dict_get_merge_item a d pk k :
  dict_get k (merge_item a d pk) =
    if str_eqb a k
    then Some match dict_get k pk with
              | None => inserted d
              | Some e => reconciled e d
              end
    else dict_get k pk.
Proof.
  unfold merge_item.
  destruct (str_eqb a k) eqn:E.
  - apply str_eqb_eq in E. subst k.
    destruct (dict_get a pk); now rewrite dict_get_set_same.
  - apply str_eqb_neq in E.
    destruct (dict_get a pk); now rewrite dict_get_set_other.
Qed.

Lemma merge_all_get_absent S : forall pk k,
  dict_get k S = None -> dict_get k (merge_all S pk) = dict_get k pk.
Proof.
  induction S as [|[a d] rest IH]; intros pk k H; simpl in *; [reflexivity|].
  destruct (str_eqb a k) eqn:E; [discriminate|].
  rewrite IH by exact H. rewrite dict_get_merge_item. now rewrite E.
Qed.

Lemma merge_all_get_present S : forall pk k d,
  NoDup (keys S) -> dict_get k S = Some d ->
  dict_get k (merge_all S pk) =
    Some match dict_get k pk with
         | None => inserted d
         | Some e => reconciled e d
         end.
Proof.
  induction S as [|[a d0] rest IH]; intros pk k d Hnd H; simpl in *; [discriminate|].
  inversion Hnd as [|? ? Hnin Hnd']; subst.
  destruct (str_eqb a k) eqn:E.
  - injection H as ->. apply str_eqb_eq in E. subst k.
    rewrite merge_all_get_absent by (now apply dict_get_None).
    rewrite dict_get_merge_item. now rewrite str_eqb_refl.
  - rewrite (IH _ _ _ Hnd' H). rewrite dict_get_merge_item. now rewrite E.
Qed.

Lemma count_added_ext S : forall D D',
  (forall k, In k (keys S) -> dict_get k D' = dict_get k D) ->
  count_added S D' = count_added S D
  /\ count_filled S D' = count_filled S D
  /\ count_mismatches S D' = count_mismatches S D.
Proof.
  induction S as [|[a d] rest IH]; intros D D' H; simpl; [auto|].
  destruct (IH D D') as (H1 & H2 & H3).
  { intros k Hk. apply H. simpl. auto. }
  unfold dict_in. rewrite (H a) by (simpl; auto).
  now rewrite H1, H2, H3.
Qed.

Lemma merge_loop_counts S : forall pk a f m,
  NoDup (keys S) ->
  merge_loop S pk a f m =
    Ok (merge_all S pk,
        mk_report (a + count_added S pk) (f + count_filled S pk)
                  (m + count_mismatches S pk)).
Proof.
  induction S as [|[alias d] rest IH]; intros pk a f m Hnd.
  - simpl. now rewrite !Nat.add_0_r.
  - inversion Hnd as [|? ? Hnin Hnd']; subst.
    rewrite merge_loop_step. rewrite IH by exact Hnd'.
    destruct (count_added_ext rest pk (merge_item alias d pk)) as (H1 & H2 & H3).
    { intros k Hk. rewrite dict_get_merge_item.
      destruct (str_eqb alias k) eqn:E; [|reflexivity].
      apply str_eqb_eq in E. subst. contradiction. }
    rewrite H1, H2, H3. simpl. now rewrite !Nat.add_assoc.
Qed.

(** *** Fields that are kept *)

Lemma keeps_refl e : keeps e e.
Proof. split; reflexivity. Qed.

Lemma keeps_trans e1 e2 e3 : keeps e1 e2 -> keeps e2 e3 -> keeps e1 e3.
Proof.
  intros [Ha Hp] [Ha' Hp']. split; intros H.
  - rewrite <- (Ha H). apply Ha'. now rewrite (Ha H).
  - rewrite <- (Hp H). apply Hp'. now rewrite (Hp H).
Qed.

Lemma fill_field_keeps dst src :
  blank (or_empty dst) = false -> fill_field dst src = dst.
Proof. intros H. unfold fill_field, fills. now rewrite H. Qed.

Lemma keeps_reconciled e d : keeps e (reconciled e d).
Proof. split; intros H; simpl; now apply fill_field_keeps. Qed.

Lemma merge_all_keeps S : forall pk k e,
  dict_get k pk = Some e ->
  exists e', dict_get k (merge_all S pk) = Some e' /\ keeps e e'.
Proof.
  induction S as [|[a d] rest IH]; intros pk k e H; simpl.
  - exists e. split; [exact H|apply keeps_refl].
  - destruct (str_eqb a k) eqn:E.
    + destruct (IH (merge_item a d pk) k (reconciled e d)) as (e' & He' & Hk).
      { rewrite dict_get_merge_item, E, H. reflexivity. }
      exists e'. split; [exact He'|].
      eapply keeps_trans; [apply keeps_reconciled|exact Hk].
    + apply IH. rewrite dict_get_merge_item, E. exact H.
Qed.

(** *** Idempotence *)

Lemma fills_stripped x : fills (Some (strip x)) (strip x) = false.
Proof.
  unfold fills, blank. simpl. rewrite strip_idem.
  destruct (truthy (strip x)); reflexivity.
Qed.

Lemma fills_fill_field dst x : fills (fill_field dst (strip x)) (strip x) = false.
Proof.
  unfold fill_field. destruct (fills dst (strip x)) eqn:E; [apply fills_stripped|exact E].
Qed.

Lemma fills_keeps_addr e e' src :
  keeps e e' -> fills (address e) src = false -> fills (address e') src = false.
Proof.
  intros [Ha _] H. unfold fills in *.
  apply andb_false_iff in H as [H|H].
  - now rewrite (Ha H), H.
  - rewrite H. apply andb_false_r.
Qed.

Lemma fills_keeps_pk e e' src :
  keeps e e' -> fills (private_key e) src = false -> fills (private_key e') src = false.
Proof.
  intros [_ Hp] H. unfold fills in *.
  apply andb_false_iff in H as [H|H].
  - now rewrite (Hp H), H.
  - rewrite H. apply andb_false_r.
Qed.

Lemma settled_merge_item a d pk : settled a d (merge_item a d pk).
Proof.
  unfold settled. rewrite dict_get_merge_item, str_eqb_refl.
  eexists. split; [reflexivity|].
  destruct (dict_get a pk) as [e|]; simpl; split;
    first [apply fills_stripped | apply fills_fill_field].
Qed.

Lemma settled_merge_all S a d pk : settled a d pk -> settled a d (merge_all S pk).
Proof.
  intros (e & He & Ha & Hp).
  destruct (merge_all_keeps S pk a e He) as (e' & He' & Hk).
  exists e'. split; [exact He'|]. split.
  - eapply fills_keeps_addr; eassumption.
  - eapply fills_keeps_pk; eassumption.
Qed.

Lemma merge_all_settles S : forall pk a d,
  In (a, d) S -> settled a d (merge_all S pk).
Proof.
  induction S as [|[a0 d0] rest IH]; intros pk a d Hin; simpl in *; [contradiction|].
  destruct Hin as [H|H].
  - injection H as -> ->. apply settled_merge_all. apply settled_merge_item.
  - now apply IH.
Qed.

Lemma merge_item_settled a d pk : settled a d pk ->
  merge_item a d pk = pk /\ dict_in a pk = true
  /\ match dict_get a pk with Some e => fills_of e d | None => O end = O.
Proof.
  intros (e & He & Ha & Hp). unfold merge_item, dict_in. rewrite He. simpl.
  unfold fills_of. rewrite Ha, Hp. simpl. split; [|auto].
  apply dict_set_get_id. rewrite He. f_equal.
  unfold reconciled, fill_field. rewrite Ha, Hp. now destruct e.
Qed.

Lemma merge_loop_settled S : forall pk a f m,
  (forall k d, In (k, d) S -> settled k d pk) ->
  exists m', merge_loop S pk a f m = Ok (pk, mk_report a f m').
Proof.
  induction S as [|[alias d] rest IH]; intros pk a f m H.
  - simpl. eauto.
  - rewrite merge_loop_step.
    destruct (merge_item_settled alias d pk) as (H1 & H2 & H3).
    { apply H. simpl. auto. }
    rewrite H1, H2, H3. simpl b2n. rewrite !Nat.add_0_r.
    apply IH. intros k d' Hin. apply H. simpl. auto.
Qed.

(** *** The scenarios of the description *)

Example scenario_1 :
  merge_loop [(py "alice", mk_account (Some (py "0xAA")) (Some (py "k1")))] [] 0 0 0
  = Ok ([(py "alice", mk_account (Some (py "0xAA")) (Some (py "k1")))],
        mk_report 1 0 0).
Proof. reflexivity. Qed.

Example scenario_2 :
  merge_loop [(py "alice", mk_account (Some (py "0xAA")) None)]
             [(py "alice", mk_account None (Some (py "k1")))] 0 0 0
  = Ok ([(py "alice", mk_account (Some (py "0xAA")) (Some (py "k1")))],
        mk_report 0 1 0).
Proof. reflexivity. Qed.

Example scenario_3 :
  merge_loop [(py "alice", mk_account (Some (py "0xAA")) None)]
             [(py "alice", mk_account (Some (py "0xBB")) None)] 0 0 0
  = Ok ([(py "alice", mk_account (Some (py "0xBB")) None)],
        mk_report 0 0 1).
Proof. reflexivity. Qed.

(** *** C2 *)

(** A destination field holding only whitespace is not empty, yet the loop
    tests it after [strip] and overwrites it: the claim C2 does not hold for
    every non-empty field. The destination used here is what the parser
    returns for an address written as a quoted space. *)
Lemma whitespace_field_overwritten :
  parse_accounts_accounts_section
    (py "accounts:" ++ [NL] ++ py "  a:" ++ [NL]
     ++ py "    address: " ++ [DQUOTE; SPACE; DQUOTE; NL])
  = Ok [(py "a", mk_account (Some [SPACE]) None)]
  /\ ~ (forall S D R rep, merge_loop S D 0 0 0 = Ok (R, rep) ->
        forall a e, dict_get a D = Some e ->
        exists e', dict_get a R = Some e'
          /\ (truthy (or_empty (address e)) = true -> address e' = address e)
          /\ (truthy (or_empty (private_key e)) = true ->
              private_key e' = private_key e)).
Proof.
  split; [reflexivity|].
  intros H.
  destruct (H [(py "a", mk_account (Some (py "0xAA")) None)]
              [(py "a", mk_account (Some [SPACE]) None)]
              _ _ eq_refl (py "a") _ eq_refl) as (e' & He' & Ha & _).
  injection He' as <-. specialize (Ha eq_refl). discriminate Ha.
Qed.

(** C2, amended: the loop never fails, every alias of the destination is
    still in the result, each of its fields that is not blank (not empty
    after [strip]) has its exact original value there, and an alias the
    source does not have keeps its whole account. *)
Theorem reconcile_non_destructive (S D : accounts_t) :
  exists R rep, merge_loop S D 0 0 0 = Ok (R, rep)
    /\ forall a e, dict_get a D = Some e ->
       exists e', dict_get a R = Some e'
         /\ (blank (or_empty (address e)) = false -> address e' = address e)
         /\ (blank (or_empty (private_key e)) = false ->
             private_key e' = private_key e)
         /\ (dict_get a S = None -> e' = e).
Proof.
  destruct (merge_loop_result S D 0 0 0) as (rep & Hrep & _).
  exists (merge_all S D), rep. split; [exact Hrep|].
  intros a e He.
  destruct (merge_all_keeps S D a e He) as (e' & He' & Ha & Hp).
  exists e'. repeat split; auto.
  intros Hs. rewrite (merge_all_get_absent S D a Hs), He in He'. congruence.
Qed.

(** *** C3 *)

(** The account inserted for a new alias holds the source values after
    [strip], not the source values themselves: the claim C3 fails on a source
    address with surrounding whitespace (which the parser returns for a
    quoted value). *)
Lemma inserted_not_verbatim :
  parse_accounts_accounts_section
    (py "accounts:" ++ [NL] ++ py "  a:" ++ [NL]
     ++ py "    address: " ++ [DQUOTE] ++ py " x " ++ [DQUOTE; NL])
  = Ok [(py "a", mk_account (Some (py " x ")) None)]
  /\ ~ (forall S D R rep, NoDup (keys S) -> merge_loop S D 0 0 0 = Ok (R, rep) ->
        forall a d, dict_get a S = Some d -> dict_get a D = None ->
        exists e, dict_get a R = Some e
          /\ or_empty (address e) = or_empty (address d)
          /\ or_empty (private_key e) = or_empty (private_key d)).
Proof.
  split; [reflexivity|].
  intros H.
  assert (Hnd : NoDup (keys [(py "a", mk_account (Some (py " x ")) None)])).
  { repeat constructor. intros []. }
  destruct (H [(py "a", mk_account (Some (py " x ")) None)] [] _ _ Hnd eq_refl
              (py "a") _ eq_refl eq_refl) as (e & He & Ha & _).
  injection He as <-. discriminate Ha.
Qed.

Lemma clashes_filled dst x :
  fills dst (strip x) = true ->
  fill_field dst (strip x) = Some (strip x)
  /\ clashes (fill_field dst (strip x)) (strip x) = false.
Proof.
  intros H. unfold fill_field. rewrite H. split; [reflexivity|].
  unfold clashes. simpl. rewrite strip_idem, str_eqb_refl.
  now rewrite andb_false_r.
Qed.

(** C3, amended: for a source without repeated aliases the loop never
    fails; every alias of the source is in the result, with the source
    values after [strip] when the destination did not have it, and otherwise
    with each blank destination field filled from a non-empty source value;
    [added], [filled] and [mismatches] count exactly those insertions, those
    fills and the fields whose source value and destination value after the
    fills are both non-empty and differ; a field that was just filled is
    never such a field. *)
Theorem reconcile_additive (S D : accounts_t) :
  NoDup (keys S) ->
  exists R rep, merge_loop S D 0 0 0 = Ok (R, rep)
    /\ (forall a d, dict_get a S = Some d ->
          dict_get a R =
            Some match dict_get a D with
                 | None => inserted d
                 | Some e => reconciled e d
                 end)
    /\ added rep = count_added S D
    /\ filled rep = count_filled S D
    /\ mismatches rep = count_mismatches S D
    /\ (forall dst x, fills dst (strip x) = true ->
          fill_field dst (strip x) = Some (strip x)
          /\ clashes (fill_field dst (strip x)) (strip x) = false).
Proof.
  intros Hnd. eexists _, _. split; [apply merge_loop_counts; exact Hnd|].
  split; [intros a d Hd; now apply merge_all_get_present|].
  simpl. split; [reflexivity|]. split; [reflexivity|]. split; [reflexivity|].
  exact clashes_filled.
Qed.

Lemma reconcile_additive_witness :
  let S := [(py "alice", mk_account (Some (py "0xAA")) (Some (py "k1")));
            (py "bob", mk_account (Some (py "0xBB")) None)] in
  let D := [(py "alice", mk_account (Some (py "0xCC")) None)] in
  NoDup (keys S)
  /\ exists R rep, merge_loop S D 0 0 0 = Ok (R, rep)
    /\ (forall a d, dict_get a S = Some d ->
          dict_get a R =
            Some match dict_get a D with
                 | None => inserted d
                 | Some e => reconciled e d
                 end)
    /\ added rep = count_added S D
    /\ filled rep = count_filled S D
    /\ mismatches rep = count_mismatches S D
    /\ (forall dst x, fills dst (strip x) = true ->
          fill_field dst (strip x) = Some (strip x)
          /\ clashes (fill_field dst (strip x)) (strip x) = false).
Proof.
  intros S D.
  assert (Hnd : NoDup (keys S)).
  { repeat constructor; simpl; intuition discriminate. }
  split; [exact Hnd|]. exact (reconcile_additive S D Hnd).
Defined.

(** *** C4 *)

(** C4: a second run with the same source on the result of the first one
    returns the same dictionary and reports nothing added and nothing
    filled. *)
Theorem reconcile_idempotent (S D : accounts_t) :
  exists R rep1 rep2,
    merge_loop S D 0 0 0 = Ok (R, rep1)
    /\ merge_loop S R 0 0 0 = Ok (R, rep2)
    /\ added rep2 = O /\ filled rep2 = O.
Proof.
  destruct (merge_loop_result S D 0 0 0) as (rep1 & H1 & _).
  destruct (merge_loop_settled S (merge_all S D) 0 0 0) as (m' & H2).
  { intros k d Hin. now apply merge_all_settles. }
  exists (merge_all S D), rep1, (mk_report 0 0 m').
  repeat split; assumption.
Qed.

(** A run that changes nothing, such as a second run, may still report a
    mismatch. *)
Example unchanged_run_mismatch :
  let S := [(py "alice", mk_account (Some (py "0xAA")) None)] in
  let D := [(py "alice", mk_account (Some (py "0xBB")) None)] in
  merge_loop S D 0 0 0 = Ok (D, mk_report 0 0 1).
Proof. reflexivity. Qed.

(** ** Regular expressions *)

Section ReFacts.
Context {A : Type}.
Implicit Types (k : @Re.cont A) (s w t : str) (r : A).

(** What a successful match tells about the subject. *)

Lemma star_inv cls k s r :
  Re.star cls k s = Some r ->
  exists w t, s = w ++ t /\ forallb cls w = true /\ k t = Some r.
Proof.
  induction s as [|c s IH]; simpl.
  - intros H. exists [], []. auto.
  - destruct (cls c) eqn:Ec.
    + destruct (Re.star cls k s) as [r'|] eqn:E.
      * intros [= ->]. destruct (IH eq_refl) as (w & t & -> & Hw & Hk).
        exists (c :: w), t. simpl. rewrite Ec, Hw. auto.
      * intros H. exists [], (c :: s). auto.
    + intros H. exists [], (c :: s). auto.
Qed.

Lemma count_inv n cls k : forall s r,
  Re.count n cls k s = Some r ->
  exists w t, s = w ++ t /\ length w = n /\ forallb cls w = true /\ k t = Some r.
Proof.
  induction n as [|n IH]; simpl; intros s r H.
  - exists [], s. auto.
  - destruct s as [|c s]; [discriminate|].
    destruct (cls c) eqn:Ec; [|discriminate].
    destruct (IH _ _ H) as (w & t & -> & Hl & Hw & Hk).
    exists (c :: w), t. simpl. rewrite Ec, Hw, Hl. auto.
Qed.

Lemma lit_inv w k : forall s r,
  Re.lit w k s = Some r -> exists t, s = w ++ t /\ k t = Some r.
Proof.
  induction w as [|x w IH]; simpl; intros s r H.
  - exists s. auto.
  - destruct s as [|c s]; [discriminate|].
    destruct (c =? x) eqn:Ec; [|discriminate].
    apply N.eqb_eq in Ec. subst c.
    destruct (IH _ _ H) as (t & -> & Hk). exists t. auto.
Qed.

Lemma plus_group_inv cls (k : str -> @Re.cont A) s : forall g r,
  Re.plus_group cls k g s = Some r ->
  exists w t, s = w ++ t /\ w <> [] /\ forallb cls w = true /\ k (g ++ w) t = Some r.
Proof.
  induction s as [|c s IH]; simpl; intros g r H; [discriminate|].
  destruct (cls c) eqn:Ec; [|discriminate].
  destruct (Re.plus_group cls k (g ++ [c]) s) as [r'|] eqn:E.
  - injection H as ->. destruct (IH _ _ E) as (w & t & -> & _ & Hw & Hk).
    exists (c :: w), t. simpl. rewrite Ec, Hw.
    rewrite <- app_assoc in Hk. repeat split; auto. discriminate.
  - exists [c], s. simpl. rewrite Ec. repeat split; auto. discriminate.
Qed.

Lemma plus_lazy_group_inv cls (k : str -> @Re.cont A) s : forall g r,
  Re.plus_lazy_group cls k g s = Some r ->
  exists w t, s = w ++ t /\ w <> [] /\ forallb cls w = true /\ k (g ++ w) t = Some r.
Proof.
  induction s as [|c s IH]; simpl; intros g r H; [discriminate|].
  destruct (cls c) eqn:Ec; [|discriminate].
  destruct (k (g ++ [c]) s) as [r'|] eqn:E.
  - injection H as ->. exists [c], s. simpl. rewrite Ec.
    repeat split; auto. discriminate.
  - destruct (IH _ _ H) as (w & t & -> & _ & Hw & Hk).
    exists (c :: w), t. simpl. rewrite Ec, Hw.
    rewrite <- app_assoc in Hk. repeat split; auto. discriminate.
Qed.

(** What makes a match succeed. *)

Lemma star_intro cls k w t r :
  forallb cls w = true -> Re.star cls k t = Some r -> Re.star cls k (w ++ t) = Some r.
Proof.
  intros Hw Ht. induction w as [|c w IH]; simpl in *; [exact Ht|].
  apply andb_true_iff in Hw as [Hc Hw]. now rewrite Hc, (IH Hw).
Qed.

Lemma star_stop cls k c s : cls c = false -> Re.star cls k (c :: s) = k (c :: s).
Proof. intros H. simpl. now rewrite H. Qed.

Lemma count_intro cls k w t :
  forallb cls w = true -> Re.count (length w) cls k (w ++ t) = k t.
Proof.
  intros Hw. induction w as [|c w IH]; simpl in *; [reflexivity|].
  apply andb_true_iff in Hw as [Hc Hw]. now rewrite Hc, (IH Hw).
Qed.

Lemma lit_intro w k t : Re.lit w k (w ++ t) = k t.
Proof.
  induction w as [|x w IH]; simpl; [reflexivity|]. now rewrite N.eqb_refl.
Qed.

Lemma plus_group_stops cls (k : str -> @Re.cont A) g t :
  stops cls t -> Re.plus_group cls k g t = None.
Proof. destruct t as [|c t]; simpl; [reflexivity|]. now intros ->. Qed.

Lemma plus_group_intro cls (k : str -> @Re.cont A) w : forall g t r,
  w <> [] -> forallb cls w = true -> stops cls t ->
  k (g ++ w) t = Some r -> Re.plus_group cls k g (w ++ t) = Some r.
Proof.
  induction w as [|c w IH]; intros g t r Hne Hw Ht Hk; [contradiction|].
  simpl in *. apply andb_true_iff in Hw as [Hc Hw]. rewrite Hc.
  destruct w as [|c' w'].
  - simpl. rewrite (plus_group_stops _ _ _ _ Ht). exact Hk.
  - rewrite (IH (g ++ [c]) t r); auto; [discriminate|].
    now rewrite <- app_assoc.
Qed.

Lemma plus_lazy_group_intro cls (k : str -> @Re.cont A) w : forall g t r,
  w <> [] -> forallb cls w = true ->
  k (g ++ w) t = Some r ->
  (forall w1 w2, w = w1 ++ w2 -> w1 <> [] -> w2 <> [] -> k (g ++ w1) (w2 ++ t) = None) ->
  Re.plus_lazy_group cls k g (w ++ t) = Some r.
Proof.
  induction w as [|c w IH]; intros g t r Hne Hw Hk Hmin; [contradiction|].
  simpl in *. apply andb_true_iff in Hw as [Hc Hw]. rewrite Hc.
  destruct w as [|c' w'].
  - simpl. now rewrite Hk.
  - rewrite (Hmin [c] (c' :: w')) by (auto; discriminate).
    apply IH; auto; [discriminate|now rewrite <- app_assoc|].
    intros w1 w2 E H1 H2. rewrite <- app_assoc.
    apply (Hmin (c :: w1) w2); [now rewrite E|discriminate|exact H2].
Qed.

(** The end of every pattern of the source, [\s*$]: the rest of the line is
    whitespace. *)
Lemma trail_spec (g : A) s :
  Re.star isspace (Re.eos g) s = if forallb isspace s then Some g else None.
Proof.
  induction s as [|c s IH]; simpl; [reflexivity|].
  destruct (isspace c) eqn:Ec; simpl.
  - rewrite IH. destruct (forallb isspace s) eqn:Es; [reflexivity|].
    destruct s; [discriminate|reflexivity].
  - destruct s; [|reflexivity].
    destruct (c =? NL) eqn:E; [|reflexivity].
    apply N.eqb_eq in E. subst c. discriminate.
Qed.

End ReFacts.

Lemma forallb_app_true {X} (p : X -> bool) (a b : list X) :
  forallb p (a ++ b) = true <-> forallb p a = true /\ forallb p b = true.
Proof. rewrite forallb_app. apply andb_true_iff. Qed.

(** The shape of the lines each pattern accepts. *)

Lemma colon_tail_inv {A} (g : A) s r :
  Re.star isspace (Re.lit (py ":") (Re.star isspace (Re.eos g))) s = Some r ->
  r = g /\ exists w2 w3, s = w2 ++ py ":" ++ w3
    /\ forallb isspace w2 = true /\ forallb isspace w3 = true.
Proof.
  intros H. apply star_inv in H as (w2 & t & -> & Hw2 & H).
  apply lit_inv in H as (w3 & -> & H).
  rewrite trail_spec in H. destruct (forallb isspace w3) eqn:E; [|discriminate].
  injection H as <-. split; [reflexivity|]. exists w2, w3. auto.
Qed.

Lemma colon_tail_intro {A} (g : A) w2 w3 :
  forallb isspace w2 = true -> forallb isspace w3 = true ->
  Re.star isspace (Re.lit (py ":") (Re.star isspace (Re.eos g)))
    (w2 ++ py ":" ++ w3) = Some g.
Proof.
  intros H2 H3. apply star_intro; [exact H2|].
  change (py ":" ++ w3) with (COLON :: w3).
  rewrite star_stop by reflexivity.
  change (COLON :: w3) with (py ":" ++ w3).
  rewrite lit_intro, trail_spec. now rewrite H3.
Qed.

Lemma re_accounts_spec line :
  re_accounts line = Some tt <->
  exists w1 w2 w3, line = w1 ++ py "accounts" ++ w2 ++ py ":" ++ w3
    /\ forallb isspace w1 = true /\ forallb isspace w2 = true
    /\ forallb isspace w3 = true.
Proof.
  unfold re_accounts. split.
  - intros H. apply star_inv in H as (w1 & t & -> & Hw1 & H).
    apply lit_inv in H as (t' & -> & H).
    apply colon_tail_inv in H as (_ & w2 & w3 & -> & H2 & H3).
    exists w1, w2, w3. auto.
  - intros (w1 & w2 & w3 & -> & H1 & H2 & H3).
    apply star_intro; [exact H1|].
    change (py "accounts" ++ w2 ++ py ":" ++ w3)
      with (97 :: (py "ccounts" ++ w2 ++ py ":" ++ w3)).
    rewrite star_stop by reflexivity.
    change (97 :: (py "ccounts" ++ w2 ++ py ":" ++ w3))
      with (py "accounts" ++ w2 ++ py ":" ++ w3).
    rewrite lit_intro. now apply colon_tail_intro.
Qed.

(** ** Indentation *)

Lemma indent_app w t :
  forallb isspace w = true -> stops isspace t -> indent (w ++ t) = length w.
Proof.
  intros Hw Ht. induction w as [|c w IH]; simpl in *.
  - destruct t as [|c t]; [reflexivity|]. simpl in *. now rewrite Ht.
  - apply andb_true_iff in Hw as [Hc Hw]. now rewrite Hc, (IH Hw).
Qed.

Lemma stops_token w t : w <> [] -> forallb istoken w = true -> stops isspace (w ++ t).
Proof.
  destruct w as [|c w]; [contradiction|]. simpl. intros _ H.
  apply andb_true_iff in H as [H _]. now apply token_not_space.
Qed.

Lemma re_toplevel_indent line r : re_toplevel line = Some r -> indent line = O.
Proof.
  unfold re_toplevel. intros H.
  apply plus_group_inv in H as (w & t & -> & Hne & Hw & _).
  apply (indent_app [] (w ++ t) eq_refl). now apply stops_token.
Qed.

Lemma re_alias_indent line g : re_alias line = Some g -> indent line = 2%nat.
Proof.
  unfold re_alias. intros H.
  apply count_inv in H as (w & t & -> & Hl & Hw & H).
  apply plus_group_inv in H as (w' & t' & -> & Hne & Hw' & _).
  rewrite indent_app; auto. now apply stops_token.
Qed.

Lemma re_address_indent line g : re_address line = Some g -> indent line = 4%nat.
Proof.
  unfold re_address. intros H.
  apply count_inv in H as (w & t & -> & Hl & Hw & H).
  apply lit_inv in H as (t' & -> & _).
  rewrite indent_app; auto. reflexivity.
Qed.

Lemma re_private_key_indent line g : re_private_key line = Some g -> indent line = 4%nat.
Proof.
  unfold re_private_key. intros H.
  apply count_inv in H as (w & t & -> & Hl & Hw & H).
  apply lit_inv in H as (t' & -> & _).
  rewrite indent_app; auto. reflexivity.
Qed.

(** ** The scan *)

Lemma scan_skip line rest acc cur :
  re_toplevel line = None -> re_alias line = None ->
  re_address line = None -> re_private_key line = None ->
  scan (line :: rest) acc cur = scan rest acc cur.
Proof.
  intros H1 H2 H3 H4. simpl. rewrite H1, H2, H3, H4. simpl.
  destruct (negb (truthy cur)); reflexivity.
Qed.

Lemma scan_no_alias line rest acc :
  re_toplevel line = None -> re_alias line = None ->
  scan (line :: rest) acc [] = scan rest acc [].
Proof. intros H1 H2. simpl. now rewrite H1, H2. Qed.

Lemma scan_other_indent line rest acc cur :
  indent line <> O -> indent line <> 2%nat -> indent line <> 4%nat ->
  scan (line :: rest) acc cur = scan rest acc cur.
Proof.
  intros H0 H2 H4. apply scan_skip.
  - destruct (re_toplevel line) eqn:E; [|reflexivity].
    apply re_toplevel_indent in E. contradiction.
  - destruct (re_alias line) eqn:E; [|reflexivity].
    apply re_alias_indent in E. contradiction.
  - destruct (re_address line) eqn:E; [|reflexivity].
    apply re_address_indent in E. contradiction.
  - destruct (re_private_key line) eqn:E; [|reflexivity].
    apply re_private_key_indent in E. contradiction.
Qed.

Lemma scan_without_header lines :
  (forall line, In line lines -> indent line <> 2%nat) ->
  scan lines [] [] = Ok [].
Proof.
  induction lines as [|line rest IH]; intros H; simpl; [reflexivity|].
  destruct (is_some (re_toplevel line) && negb (startswith SPACE line)); [reflexivity|].
  destruct (re_alias line) eqn:E.
  - apply re_alias_indent in E. exfalso. apply (H line); simpl; auto.
  - simpl. apply IH. intros l Hl. apply H. simpl. auto.
Qed.

Lemma store_address_ok alias v acc e :
  dict_get alias acc = Some e ->
  store_address alias v acc = Ok (dict_set alias (set_address v e) acc).
Proof. intros H. unfold store_address. now rewrite (getitem_some _ _ _ H). Qed.

Lemma store_private_key_ok alias v acc e :
  dict_get alias acc = Some e ->
  store_private_key alias v acc = Ok (dict_set alias (set_private_key v e) acc).
Proof. intros H. unfold store_private_key. now rewrite (getitem_some _ _ _ H). Qed.

Lemma dict_in_set {V} k (v : V) d : dict_in k (dict_set k v d) = true.
Proof. unfold dict_in. now rewrite dict_get_set_same. Qed.

Lemma dict_in_get {V} k (d : dict V) : dict_in k d = true -> exists v, dict_get k d = Some v.
Proof. unfold dict_in. destruct (dict_get k d); [eauto|discriminate]. Qed.

(** The scan never raises: the current alias, once set, is a key of
    [accounts]. *)
Lemma scan_total lines : forall acc cur,
  cur = [] \/ dict_in cur acc = true -> exists d, scan lines acc cur = Ok d.
Proof.
  induction lines as [|line rest IH]; intros acc cur Hinv; simpl; [eauto|].
  destruct (is_some (re_toplevel line) && negb (startswith SPACE line)); [eauto|].
  destruct (re_alias line) as [g|].
  - apply IH. right.
    destruct (dict_in g acc) eqn:E; simpl; [exact E|apply dict_in_set].
  - destruct cur as [|c cur]; simpl; [apply IH; auto|].
    destruct Hinv as [Hinv|Hinv]; [discriminate|].
    destruct (dict_in_get _ _ Hinv) as (e & He).
    destruct (re_address line) as [g|].
    + rewrite (store_address_ok _ _ _ _ He). simpl.
      apply IH. right. apply dict_in_set.
    + destruct (re_private_key line) as [g|].
      * rewrite (store_private_key_ok _ _ _ _ He). simpl.
        apply IH. right. apply dict_in_set.
      * apply IH. auto.
Qed.

Lemma find_start_none lines : forall i,
  (forall line, In line lines -> re_accounts line = None) ->
  find_start i lines = None.
Proof.
  induction lines as [|line rest IH]; intros i H; simpl; [reflexivity|].
  rewrite (H line) by (simpl; auto). simpl.
  apply IH. intros l Hl. apply H. simpl. auto.
Qed.

Lemma has_field_spec d :
  has_field d = true <->
  (exists v, address d = Some v /\ v <> [])
  \/ (exists v, private_key d = Some v /\ v <> []).
Proof.
  unfold has_field. rewrite orb_true_iff, !truthy_true. split.
  - intros [H|H]; [left|right].
    + destruct (address d) as [v|]; [|contradiction]. eauto.
    + destruct (private_key d) as [v|]; [|contradiction]. eauto.
  - intros [(v & E & H)|(v & E & H)]; rewrite E; auto.
Qed.

Lemma cleanup_has_field accounts a d :
  dict_get a (cleanup accounts) = Some d -> has_field d = true.
Proof.
  intros H. apply dict_get_In in H. apply filter_In in H. apply H.
Qed.

Lemma parse_clean text :
  exists accounts,
    parse_accounts_accounts_section text = Ok accounts
    /\ forall a d, dict_get a accounts = Some d -> has_field d = true.
Proof.
  unfold parse_accounts_accounts_section.
  destruct (find_start 0 (splitlines text)) as [start|].
  - destruct (scan_total (skipn (start + 1) (splitlines text)) [] []) as (d & Hd);
      [auto|].
    rewrite Hd. simpl. eexists. split; [reflexivity|].
    intros a e He. eapply cleanup_has_field. exact He.
  - exists []. split; [reflexivity|]. intros a d H. discriminate.
Qed.

Lemma parse_total text : exists accounts, parse_accounts_accounts_section text = Ok accounts.
Proof. destruct (parse_clean text) as (d & Hd & _). eauto. Qed.

(** *** C7 *)

(** C7: the parser returns a dictionary for every text, never an
    exception; every account in it has a non-empty address or a non-empty
    private key; a line that no pattern matches, and any line that is not an
    alias header or a top-level key while no alias is current, leaves the
    scan as it was. *)
Theorem parse_total_and_clean :
  (forall text, exists accounts,
      parse_accounts_accounts_section text = Ok accounts
      /\ forall a d, dict_get a accounts = Some d ->
         (exists v, address d = Some v /\ v <> [])
         \/ (exists v, private_key d = Some v /\ v <> []))
  /\ (forall line rest acc cur,
        re_toplevel line = None -> re_alias line = None ->
        re_address line = None -> re_private_key line = None ->
        scan (line :: rest) acc cur = scan rest acc cur)
  /\ (forall line rest acc,
        re_toplevel line = None -> re_alias line = None ->
        scan (line :: rest) acc [] = scan rest acc []).
Proof.
  split; [|split; [exact scan_skip|exact scan_no_alias]].
  intros text. destruct (parse_clean text) as (d & Hd & Hc).
  exists d. split; [exact Hd|].
  intros a e He. apply has_field_spec. eapply Hc. exact He.
Qed.

(** *** C5 *)

(** The pattern that anchors the section starts with [\s*]: an indented
    [accounts:] line opens the section, and the accounts below it are
    returned. The claim C5 asks for the empty result here. *)
Lemma indented_anchor_accepted :
  let text := py "  accounts:" ++ [NL] ++ py "  a:" ++ [NL]
              ++ py "    address: x" ++ [NL] in
  (forall line, In line (splitlines text) -> re_accounts line <> None ->
     indent line <> O)
  /\ parse_accounts_accounts_section text
     = Ok [(py "a", mk_account (Some (py "x")) None)]
  /\ parse_accounts_accounts_section text <> Ok [].
Proof.
  cbv zeta. split; [|split; [reflexivity|discriminate]].
  intros line Hin. simpl in Hin.
  destruct Hin as [<-|[<-|[<-|[]]]]; intros H; try discriminate;
    now elim H.
Qed.

(** *** C6 *)

(** The patterns indent with [\s], not with U+0020: a header behind two
    tabs and a field behind four are recognised, although no line of the
    text starts with a space. The claim C6 asks for exactly 2 and 4 spaces. *)
Lemma tab_indentation_accepted :
  let text := py "accounts:" ++ [NL] ++ [9; 9] ++ py "a:" ++ [NL]
              ++ [9; 9; 9; 9] ++ py "address: x" ++ [NL] in
  (forall line, In line (splitlines text) -> space_indent line = O)
  /\ re_alias ([9; 9] ++ py "a:") = Some (py "a")
  /\ re_address ([9; 9; 9; 9] ++ py "address: x") = Some (py "x")
  /\ parse_accounts_accounts_section text
     = Ok [(py "a", mk_account (Some (py "x")) None)].
Proof.
  cbv zeta. split; [|repeat split; reflexivity].
  intros line Hin. simpl in Hin.
  destruct Hin as [<-|[<-|[<-|[]]]]; reflexivity.
Qed.

(** C6, amended: an alias header is recognised only on a line that starts
    with exactly 2 whitespace characters, a field line only on one that
    starts with exactly 4, a top-level key only on one that starts with
    none; a line indented by any other width leaves the scan as it was, and
    a section without a line indented by 2 yields no account, as in the
    example of a header behind 3 spaces. *)
Theorem indentation_contract :
  (forall line g, re_alias line = Some g -> indent line = 2%nat)
  /\ (forall line g, re_address line = Some g -> indent line = 4%nat)
  /\ (forall line g, re_private_key line = Some g -> indent line = 4%nat)
  /\ (forall line r, re_toplevel line = Some r -> indent line = O)
  /\ (forall line rest acc cur,
        indent line <> O -> indent line <> 2%nat -> indent line <> 4%nat ->
        scan (line :: rest) acc cur = scan rest acc cur)
  /\ (forall lines,
        (forall line, In line lines -> indent line <> 2%nat) ->
        scan lines [] [] = Ok [])
  /\ parse_accounts_accounts_section
       (py "accounts:" ++ [NL] ++ py "   alice:" ++ [NL]
        ++ py "    address: 0xAA" ++ [NL] ++ py "    private_key: k1" ++ [NL])
     = Ok [].
Proof.
  split; [exact re_alias_indent|].
  split; [exact re_address_indent|].
  split; [exact re_private_key_indent|].
  split; [exact re_toplevel_indent|].
  split; [exact scan_other_indent|].
  split; [exact scan_without_header|reflexivity].
Qed.

(** ** Repeated field lines *)

Lemma stored_set a f k e acc :
  stored f a (dict_set k e acc) = if str_eqb k a then get_field f e else stored f a acc.
Proof. unfold stored. rewrite dict_get_set. now destruct (str_eqb k a). Qed.

Lemma scan_last lines : forall acc cur d,
  scan lines acc cur = Ok d ->
  forall a f,
    stored f a d =
      match last_value a f (field_lines lines cur) with
      | Some v => Some v
      | None => stored f a acc
      end.
Proof.
  induction lines as [|line rest IH]; intros acc cur d H a f; simpl in *.
  - now injection H as ->.
  - destruct (is_some (re_toplevel line) && negb (startswith SPACE line)).
    { now injection H as ->. }
    destruct (re_alias line) as [g|].
    { rewrite (IH _ _ _ H a f).
      destruct (last_value a f (field_lines rest g)); [reflexivity|].
      destruct (dict_in g acc) eqn:E; simpl; [reflexivity|].
      rewrite stored_set. destruct (str_eqb g a) eqn:Eg; [|reflexivity].
      apply str_eqb_eq in Eg. subst g. unfold stored, dict_in in *.
      destruct (dict_get a acc); [discriminate|]. now destruct f. }
    destruct (negb (truthy cur)); [exact (IH _ _ _ H a f)|].
    destruct (re_address line) as [g|].
    { unfold store_address, getitem in H.
      destruct (dict_get cur acc) as [e|] eqn:Ec; [|discriminate]. simpl in H.
      rewrite (IH _ _ _ H a f). simpl.
      destruct (last_value a f (field_lines rest cur)); [reflexivity|].
      rewrite stored_set. destruct (str_eqb cur a) eqn:Eg; simpl; [|reflexivity].
      apply str_eqb_eq in Eg. subst cur. unfold stored. rewrite Ec.
      now destruct f. }
    destruct (re_private_key line) as [g|]; [|exact (IH _ _ _ H a f)].
    unfold store_private_key, getitem in H.
    destruct (dict_get cur acc) as [e|] eqn:Ec; [|discriminate]. simpl in H.
    rewrite (IH _ _ _ H a f). simpl.
    destruct (last_value a f (field_lines rest cur)); [reflexivity|].
    rewrite stored_set. destruct (str_eqb cur a) eqn:Eg; simpl; [|reflexivity].
    apply str_eqb_eq in Eg. subst cur. unfold stored. rewrite Ec.
    now destruct f.
Qed.

Lemma NoDup_dict_set {V} k (v : V) d : NoDup (keys d) -> NoDup (keys (dict_set k v d)).
Proof.
  intros H. rewrite keys_dict_set. destruct (dict_in k d) eqn:E; [exact H|].
  apply NoDup_app; [exact H|repeat constructor; intros []|].
  intros x Hx [<-|[]]. apply dict_in_keys in Hx. congruence.
Qed.

Lemma scan_nodup lines : forall acc cur d,
  NoDup (keys acc) -> scan lines acc cur = Ok d -> NoDup (keys d).
Proof.
  induction lines as [|line rest IH]; intros acc cur d Hnd H; simpl in *.
  - now injection H as <-.
  - destruct (is_some (re_toplevel line) && negb (startswith SPACE line)).
    { now injection H as <-. }
    destruct (re_alias line) as [g|].
    { eapply IH; [|exact H].
      destruct (negb (dict_in g acc)); [now apply NoDup_dict_set|exact Hnd]. }
    destruct (negb (truthy cur)); [eapply IH; eassumption|].
    destruct (re_address line) as [g|].
    { unfold store_address, getitem in H.
      destruct (dict_get cur acc) as [e|]; [|discriminate]. simpl in H.
      eapply IH; [|exact H]. now apply NoDup_dict_set. }
    destruct (re_private_key line) as [g|]; [|eapply IH; eassumption].
    unfold store_private_key, getitem in H.
    destruct (dict_get cur acc) as [e|]; [|discriminate]. simpl in H.
    eapply IH; [|exact H]. now apply NoDup_dict_set.
Qed.

Lemma dict_get_cleanup accounts a d :
  NoDup (keys accounts) ->
  dict_get a (cleanup accounts) = Some d -> dict_get a accounts = Some d.
Proof.
  intros Hnd H. apply dict_get_In in H. apply filter_In in H as [H _].
  now apply In_dict_get.
Qed.

(** *** C10 *)

Lemma dict_get_cleanup_exact accounts a :
  NoDup (keys accounts) ->
  dict_get a (cleanup accounts) =
    match dict_get a accounts with
    | Some d => if has_field d then Some d else None
    | None => None
    end.
Proof.
  induction accounts as [|[k e] rest IH]; intros Hnd; [reflexivity|].
  inversion Hnd as [|? ? Hnin Hnd']; subst.
  unfold cleanup in *. cbn [filter snd dict_get].
  destruct (str_eqb k a) eqn:E.
  - apply str_eqb_eq in E. subst k.
    destruct (has_field e); [cbn [dict_get]; now rewrite str_eqb_refl|].
    apply dict_get_None. intros Hin. apply Hnin.
    apply in_map_iff in Hin as ([k' e'] & Ek & Hin). simpl in Ek. subst k'.
    apply filter_In in Hin as [Hin _]. apply (in_map fst) in Hin. exact Hin.
  - destruct (has_field e); [cbn [dict_get]; rewrite E|]; now apply IH.
Qed.

Lemma field_eqb_refl f : field_eqb f f = true.
Proof. now destruct f. Qed.

Lemma last_value_none a f evs :
  (forall a' f' v', In (a', f', v') evs -> str_eqb a' a && field_eqb f' f = false) ->
  last_value a f evs = None.
Proof.
  induction evs as [|[[a' f'] v'] evs IH]; intros H; simpl; [reflexivity|].
  rewrite IH by (intros b g w Hb; apply (H b g w); right; exact Hb).
  now rewrite (H a' f' v') by (left; reflexivity).
Qed.

(** [last_value] is the value of the last event for the alias and the
    field, whatever comes before it. *)
Lemma last_value_last a f evs1 v evs2 :
  (forall a' f' v', In (a', f', v') evs2 -> str_eqb a' a && field_eqb f' f = false) ->
  last_value a f (evs1 ++ (a, f, v) :: evs2) = Some v.
Proof.
  intros H. induction evs1 as [|[[a' f'] v'] evs1 IH]; simpl.
  - rewrite (last_value_none a f evs2 H). now rewrite str_eqb_refl, field_eqb_refl.
  - now rewrite IH.
Qed.

(** The account that the field lines [evs] of a section give to [a]: for
    each field the value of its last line, and no account at all when
    neither value is a non-empty text. *)
Lemma scan_lookup lines acc a :
  scan lines [] [] = Ok acc ->
  dict_get a (cleanup acc) =
    (let d := mk_account (last_value a Address (field_lines lines []))
                         (last_value a PrivateKey (field_lines lines [])) in
     if has_field d then Some d else None).
Proof.
  intros Hacc. cbv zeta.
  assert (Hnd : NoDup (keys acc)) by (apply (scan_nodup _ [] [] acc (NoDup_nil _) Hacc)).
  rewrite (dict_get_cleanup_exact acc a Hnd).
  pose proof (scan_last _ _ _ _ Hacc a Address) as Ha.
  pose proof (scan_last _ _ _ _ Hacc a PrivateKey) as Hp.
  unfold stored in Ha, Hp. simpl dict_get in Ha, Hp.
  destruct (dict_get a acc) as [[ea ep]|]; simpl in Ha, Hp.
  - assert (Ea : last_value a Address (field_lines lines []) = ea).
    { rewrite Ha. now destruct (last_value a Address _). }
    assert (Ep : last_value a PrivateKey (field_lines lines []) = ep).
    { rewrite Hp. now destruct (last_value a PrivateKey _). }
    now rewrite Ea, Ep.
  - destruct (last_value a Address _); [discriminate|].
    destruct (last_value a PrivateKey _); [discriminate|]. reflexivity.
Qed.

(** C10: in a text with an accounts section, the parser returns for every
    alias exactly the account made of the value of the last line of the
    section that sets each field in a block of this alias, wherever the
    earlier ones are, and no account for an alias without a non-empty such
    value. In particular a non-empty last address or private key is
    returned, every returned field is the value of its last line, and the
    last line is the one after which the section has no line for this
    alias and field. *)
Theorem last_field_line_wins (text : str) (start : nat) :
  find_start 0 (splitlines text) = Some start ->
  exists accounts,
    parse_accounts_accounts_section text = Ok accounts
    /\ let evs := field_lines (skipn (start + 1) (splitlines text)) [] in
       (forall a,
          dict_get a accounts =
            (let d := mk_account (last_value a Address evs)
                                 (last_value a PrivateKey evs) in
             if has_field d then Some d else None))
       /\ (forall a v, v <> [] ->
             last_value a Address evs = Some v \/ last_value a PrivateKey evs = Some v ->
             dict_get a accounts
             = Some (mk_account (last_value a Address evs)
                                (last_value a PrivateKey evs)))
       /\ (forall a d, dict_get a accounts = Some d ->
             address d = last_value a Address evs
             /\ private_key d = last_value a PrivateKey evs)
       /\ (forall a f evs1 v evs2,
             (forall a' f' v', In (a', f', v') evs2 ->
                str_eqb a' a && field_eqb f' f = false) ->
             last_value a f (evs1 ++ (a, f, v) :: evs2) = Some v).
Proof.
  intros Hs. unfold parse_accounts_accounts_section. rewrite Hs.
  destruct (scan_total (skipn (start + 1) (splitlines text)) [] []) as (acc & Hacc);
    [auto|].
  rewrite Hacc. simpl bind. eexists. split; [reflexivity|]. cbv zeta.
  pose proof (fun a => scan_lookup _ acc a Hacc) as Hl. cbv zeta in Hl.
  split; [exact Hl|]. split.
  { intros a v Hne Hv. rewrite Hl.
    unfold has_field. simpl address. simpl private_key.
    destruct Hv as [Hv|Hv]; rewrite Hv; simpl or_empty.
    - destruct v; [contradiction|]. reflexivity.
    - destruct v; [contradiction|]. simpl truthy. now rewrite orb_true_r. }
  split; [|exact last_value_last].
  intros a d Hd. rewrite Hl in Hd.
  destruct (has_field _); [|discriminate]. injection Hd as <-. auto.
Qed.

Example repeated_fields_parse :
  parse_accounts_accounts_section repeated_fields_text
  = Ok [(py "a", mk_account (Some (py "z")) None);
        (py "b", mk_account None (Some (py "k")))].
Proof. reflexivity. Qed.

Lemma last_field_line_wins_witness :
  find_start 0 (splitlines repeated_fields_text) = Some O
  /\ exists accounts,
    parse_accounts_accounts_section repeated_fields_text = Ok accounts
    /\ let evs := field_lines (skipn (0 + 1) (splitlines repeated_fields_text)) [] in
       (forall a,
          dict_get a accounts =
            (let d := mk_account (last_value a Address evs)
                                 (last_value a PrivateKey evs) in
             if has_field d then Some d else None))
       /\ (forall a v, v <> [] ->
             last_value a Address evs = Some v \/ last_value a PrivateKey evs = Some v ->
             dict_get a accounts
             = Some (mk_account (last_value a Address evs)
                                (last_value a PrivateKey evs)))
       /\ (forall a d, dict_get a accounts = Some d ->
             address d = last_value a Address evs
             /\ private_key d = last_value a PrivateKey evs)
       /\ (forall a f evs1 v evs2,
             (forall a' f' v', In (a', f', v') evs2 ->
                str_eqb a' a && field_eqb f' f = false) ->
             last_value a f (evs1 ++ (a, f, v) :: evs2) = Some v).
Proof.
  split; [reflexivity|].
  exact (last_field_line_wins repeated_fields_text 0 eq_refl).
Defined.

(** ** Sorting *)

Lemma str_leb_refl a : str_leb a a = true.
Proof.
  induction a as [|x a IH]; simpl; [reflexivity|].
  now rewrite N.ltb_irrefl, N.eqb_refl.
Qed.

Lemma str_leb_total a : forall b, str_leb a b = true \/ str_leb b a = true.
Proof.
  induction a as [|x a IH]; intros [|y b]; simpl; auto.
  destruct (N.ltb_spec x y), (N.ltb_spec y x); auto; try lia.
  assert (x = y) by lia. subst. rewrite N.eqb_refl. apply IH.
Qed.

Lemma str_leb_antisym a : forall b, str_leb a b = true -> str_leb b a = true -> a = b.
Proof.
  induction a as [|x a IH]; intros [|y b]; simpl; try discriminate; auto.
  destruct (N.ltb_spec x y), (N.ltb_spec y x); try lia.
  - destruct (N.eqb_spec y x); [lia|discriminate].
  - destruct (N.eqb_spec x y); [lia|discriminate].
  - destruct (N.eqb_spec x y); [|discriminate]. subst. rewrite N.eqb_refl.
    intros H1 H2. f_equal. now apply IH.
Qed.

Lemma str_leb_trans a : forall b c,
  str_leb a b = true -> str_leb b c = true -> str_leb a c = true.
Proof.
  induction a as [|x a IH]; intros [|y b] [|z c]; simpl; try discriminate; auto.
  destruct (N.ltb_spec x y), (N.ltb_spec y z), (N.ltb_spec x z);
    try reflexivity; try lia;
    destruct (N.eqb_spec x y), (N.eqb_spec y z), (N.eqb_spec x z);
    try discriminate; try lia.
  apply IH.
Qed.

Lemma insert_sorted_perm k l : Permutation (insert_sorted k l) (k :: l).
Proof.
  induction l as [|h t IH]; simpl; [reflexivity|].
  destruct (str_leb k h); [reflexivity|].
  rewrite IH. apply perm_swap.
Qed.

Lemma sorted_perm l : Permutation (sorted l) l.
Proof.
  induction l as [|h t IH]; simpl; [reflexivity|].
  rewrite insert_sorted_perm. now constructor.
Qed.

Lemma insert_sorted_sorted k l :
  StronglySorted str_le l -> StronglySorted str_le (insert_sorted k l).
Proof.
  induction 1 as [|h t Hs IH Hh]; simpl.
  - repeat constructor.
  - destruct (str_leb k h) eqn:E.
    + constructor; [now constructor|].
      constructor; [exact E|].
      eapply Forall_impl; [|exact Hh]. intros x Hx. eapply str_leb_trans; eassumption.
    + constructor; [exact IH|].
      eapply Permutation_Forall; [symmetry; apply insert_sorted_perm|].
      constructor; [|exact Hh].
      destruct (str_leb_total k h) as [H|H]; [congruence|exact H].
Qed.

Lemma sorted_sorted l : StronglySorted str_le (sorted l).
Proof.
  induction l as [|h t IH]; simpl; [constructor|]. now apply insert_sorted_sorted.
Qed.

Lemma sorted_unique l1 : forall l2,
  StronglySorted str_le l1 -> StronglySorted str_le l2 ->
  Permutation l1 l2 -> l1 = l2.
Proof.
  induction l1 as [|h1 t1 IH]; intros l2 H1 H2 Hp.
  - apply Permutation_nil in Hp. now subst.
  - destruct l2 as [|h2 t2].
    { symmetry in Hp. apply Permutation_nil in Hp. discriminate. }
    inversion H1 as [|? ? Hs1 Hf1]; subst.
    inversion H2 as [|? ? Hs2 Hf2]; subst.
    assert (h1 = h2).
    { assert (Hin2 : In h2 (h1 :: t1)).
      { eapply Permutation_in; [symmetry; exact Hp|]. simpl. auto. }
      assert (Hin1 : In h1 (h2 :: t2)).
      { eapply Permutation_in; [exact Hp|]. simpl. auto. }
      destruct Hin2 as [|Hin2]; [assumption|].
      destruct Hin1 as [|Hin1]; [congruence|].
      rewrite Forall_forall in Hf1, Hf2.
      apply str_leb_antisym; [apply (Hf1 _ Hin2)|apply (Hf2 _ Hin1)]. }
    subst h2. f_equal. apply IH; auto.
    eapply Permutation_cons_inv. exact Hp.
Qed.

Lemma sorted_permutation l1 l2 : Permutation l1 l2 -> sorted l1 = sorted l2.
Proof.
  intros H. apply sorted_unique; try apply sorted_sorted.
  rewrite !sorted_perm. exact H.
Qed.

Lemma sorted_fixed l : StronglySorted str_le l -> sorted l = l.
Proof.
  intros H. apply sorted_unique; [apply sorted_sorted|exact H|apply sorted_perm].
Qed.

(** ** The serializer *)

Lemma blank_truthy s : truthy (strip s) = negb (blank s).
Proof. unfold blank. now rewrite negb_involutive. Qed.

Lemma render_loop_spec (accounts : accounts_t) aliases : forall lines,
  (forall a, In a aliases -> In a (keys accounts)) ->
  render_loop aliases accounts lines
  = Ok (lines ++ flat_map (block accounts) aliases).
Proof.
  induction aliases as [|alias rest IH]; intros lines Hin; simpl.
  - now rewrite app_nil_r.
  - assert (Ha : dict_in alias accounts = true).
    { apply dict_in_keys. apply Hin. simpl. auto. }
    destruct (dict_in_get _ _ Ha) as (d & Hd).
    rewrite (getitem_some _ _ _ Hd). simpl.
    rewrite IH by (intros a H; apply Hin; simpl; auto).
    f_equal. unfold block at 2. rewrite Hd. unfold emitted_lines.
    rewrite !blank_truthy.
    unfold alias_line, address_line, private_key_line.
    destruct (blank (or_empty (address d))), (blank (or_empty (private_key d)));
      simpl; rewrite <- ?app_assoc; reflexivity.
Qed.

Lemma render_spec accounts : render accounts = Ok (canonical_text accounts).
Proof.
  unfold render. rewrite render_loop_spec.
  - simpl. reflexivity.
  - intros a H. eapply Permutation_in; [apply sorted_perm|exact H].
Qed.

Lemma dict_eq_keys {V} (d1 d2 : dict V) :
  NoDup (keys d1) -> NoDup (keys d2) -> dict_eq d1 d2 ->
  Permutation (keys d1) (keys d2).
Proof.
  intros H1 H2 He. apply NoDup_Permutation; auto.
  intros k. rewrite <- !dict_in_keys. unfold dict_in. now rewrite (He k).
Qed.

Lemma canonical_text_eq d1 d2 :
  NoDup (keys d1) -> NoDup (keys d2) -> dict_eq d1 d2 ->
  canonical_text d1 = canonical_text d2.
Proof.
  intros H1 H2 He. unfold canonical_text.
  rewrite (sorted_permutation _ _ (dict_eq_keys _ _ H1 H2 He)).
  do 5 f_equal. apply flat_map_ext. intros a. unfold block. now rewrite (He a).
Qed.

(** *** C9 *)

(** C9: the serializer never fails and writes the warning line, the line
    [accounts:] and then, for the aliases in ascending code-point order, the
    header of each alias, its address in double quotes and its private key
    unquoted, leaving out a field that is blank; two dictionaries with the
    same items give the same text, whatever their insertion orders. *)
Theorem serializer_canonical :
  (forall accounts, render accounts = Ok (canonical_text accounts))
  /\ (forall accounts : accounts_t,
        StronglySorted str_le (sorted (keys accounts))
        /\ Permutation (sorted (keys accounts)) (keys accounts))
  /\ (forall d1 d2,
        NoDup (keys d1) -> NoDup (keys d2) -> dict_eq d1 d2 ->
        render d1 = render d2).
Proof.
  split; [exact render_spec|]. split.
  - intros accounts. split; [apply sorted_sorted|apply sorted_perm].
  - intros d1 d2 H1 H2 He. rewrite !render_spec. f_equal.
    now apply canonical_text_eq.
Qed.

Example serializer_order_independent :
  render [(py "b", mk_account (Some (py "0xB")) None);
          (py "a", mk_account (Some (py " 0xA ")) (Some (py "k")))]
  = render [(py "a", mk_account (Some (py " 0xA ")) (Some (py "k")));
            (py "b", mk_account (Some (py "0xB")) None)]
  /\ render [(py "b", mk_account (Some (py "0xB")) None);
             (py "a", mk_account (Some (py " 0xA ")) (Some (py "k")))]
     = Ok (warning_line ++ accounts_line
           ++ py "  a:" ++ [NL]
           ++ py "    address: " ++ [DQUOTE] ++ py "0xA" ++ [DQUOTE; NL]
           ++ py "    private_key: k" ++ [NL]
           ++ py "  b:" ++ [NL]
           ++ py "    address: " ++ [DQUOTE] ++ py "0xB" ++ [DQUOTE; NL]).
Proof. split; reflexivity. Qed.

(** ** The synchronisation *)

Lemma read_accounts_file_total f : exists d, read_accounts_file f = Ok d.
Proof. destruct f as [raw|]; simpl; [apply parse_total|eauto]. Qed.

Lemma sync_missing fs :
  config_yaml fs = None -> sync_config_to_pk fs = (fs, Raise FileNotFoundError).
Proof. intros H. unfold sync_config_to_pk. now rewrite H. Qed.

Lemma sync_empty fs raw :
  config_yaml fs = Some raw -> parse_accounts_accounts_section raw = Ok [] ->
  sync_config_to_pk fs = (fs, Raise RuntimeError).
Proof. intros H Hp. unfold sync_config_to_pk. rewrite H. simpl. now rewrite Hp. Qed.

Lemma sync_writes fs raw S :
  config_yaml fs = Some raw -> parse_accounts_accounts_section raw = Ok S ->
  S <> [] ->
  exists D R rep,
    read_accounts_file (pk_txt fs) = Ok D
    /\ merge_loop S D 0 0 0 = Ok (R, rep)
    /\ sync_config_to_pk fs
       = (mk_files (config_yaml fs) (Some (canonical_text R)), Ok rep).
Proof.
  intros H Hp Hne. unfold sync_config_to_pk. rewrite H. simpl. rewrite Hp.
  destruct S as [|item S]; [contradiction|]. simpl truthy_dict. cbv iota. simpl negb. cbv iota.
  destruct (read_accounts_file_total (pk_txt fs)) as (D & HD). rewrite HD.
  destruct (merge_loop_result (item :: S) D 0 0 0) as (rep & Hrep & _).
  rewrite Hrep. unfold write_pk_yaml. rewrite render_spec. simpl.
  exists D, (merge_all (item :: S) D), rep. rewrite H. auto.
Qed.

(** *** C8 *)

(** C8: the synchronisation raises exactly when [config.yaml] does not
    exist, with [FileNotFoundError], or parses to no account, with
    [RuntimeError]; the files are then as they were. Otherwise [pk.txt]
    receives the canonical text of the merged accounts, a missing [pk.txt]
    counting as the empty dictionary. *)
Theorem sync_failures (fs : files) :
  (snd (sync_config_to_pk fs) = Raise FileNotFoundError <-> config_yaml fs = None)
  /\ (snd (sync_config_to_pk fs) = Raise RuntimeError <->
      exists raw, config_yaml fs = Some raw
        /\ parse_accounts_accounts_section raw = Ok [])
  /\ (forall e, snd (sync_config_to_pk fs) = Raise e ->
        (e = FileNotFoundError \/ e = RuntimeError)
        /\ fst (sync_config_to_pk fs) = fs)
  /\ (forall raw S,
        config_yaml fs = Some raw -> parse_accounts_accounts_section raw = Ok S ->
        S <> [] ->
        exists D R rep,
          read_accounts_file (pk_txt fs) = Ok D
          /\ (pk_txt fs = None -> D = [])
          /\ merge_loop S D 0 0 0 = Ok (R, rep)
          /\ sync_config_to_pk fs
             = (mk_files (config_yaml fs) (Some (canonical_text R)), Ok rep)).
Proof.
  assert (Hcases :
    (config_yaml fs = None /\ sync_config_to_pk fs = (fs, Raise FileNotFoundError))
    \/ (exists raw, config_yaml fs = Some raw
          /\ parse_accounts_accounts_section raw = Ok []
          /\ sync_config_to_pk fs = (fs, Raise RuntimeError))
    \/ (exists raw S fs' rep, config_yaml fs = Some raw
          /\ parse_accounts_accounts_section raw = Ok S /\ S <> []
          /\ sync_config_to_pk fs = (fs', Ok rep))).
  { destruct (config_yaml fs) as [raw|] eqn:Hc.
    - destruct (parse_total raw) as (S & HS). destruct S as [|item S].
      + right. left. exists raw. repeat split; auto. now apply (sync_empty fs raw).
      + right. right.
        destruct (sync_writes fs raw (item :: S) Hc HS) as (D & R & rep & _ & _ & Hw);
          [discriminate|].
        exists raw, (item :: S). eexists _, _. repeat split; eauto. discriminate.
    - left. split; [reflexivity|]. now apply sync_missing. }
  split; [|split; [|split]].
  - destruct Hcases as [(Hc & Hs)|[(raw & Hc & Hp & Hs)|(raw & S & fs' & rep & Hc & Hp & Hne & Hs)]];
      rewrite Hs; simpl; split; intros H; try congruence.
  - destruct Hcases as [(Hc & Hs)|[(raw & Hc & Hp & Hs)|(raw & S & fs' & rep & Hc & Hp & Hne & Hs)]];
      rewrite Hs; simpl; split; intros H; try congruence; eauto.
    + destruct H as (raw' & H & _). congruence.
    + destruct H as (raw' & H & Hp'). congruence.
  - intros e.
    destruct Hcases as [(Hc & Hs)|[(raw & Hc & Hp & Hs)|(raw & S & fs' & rep & Hc & Hp & Hne & Hs)]];
      rewrite Hs; simpl; intros H; try discriminate;
      injection H as <-; auto.
  - intros raw S Hc Hp Hne.
    destruct (sync_writes fs raw S Hc Hp Hne) as (D & R & rep & HD & Hm & Hs).
    exists D, R, rep. repeat split; auto.
    intros Hpk. rewrite Hpk in HD. simpl in HD. congruence.
Qed.

(** ** The round trip *)

(** *** Lines *)

Lemma splitlines_from_line l : forall cur rest,
  no_linebreak l = true ->
  splitlines_from cur (l ++ NL :: rest) = (cur ++ l) :: splitlines_from [] rest.
Proof.
  unfold no_linebreak.
  induction l as [|c l IH]; intros cur rest H; simpl in *.
  - now rewrite app_nil_r.
  - apply andb_true_iff in H as [Hc Hl]. apply negb_true_iff in Hc.
    assert (Hcr : (c =? CR) = false).
    { destruct (c =? CR) eqn:E; [|reflexivity].
      apply N.eqb_eq in E. subst c. discriminate. }
    rewrite Hcr, Hc. rewrite IH by exact Hl. now rewrite <- app_assoc.
Qed.

Lemma splitlines_terminated ls :
  Forall (fun l => no_linebreak l = true) ls ->
  splitlines (concat (map terminate ls)) = ls.
Proof.
  unfold splitlines, terminate.
  induction 1 as [|l ls Hl Hls IH]; simpl; [reflexivity|].
  rewrite <- app_assoc. simpl. rewrite splitlines_from_line by exact Hl.
  simpl. now rewrite IH.
Qed.

Lemma no_linebreak_app a b :
  no_linebreak (a ++ b) = no_linebreak a && no_linebreak b.
Proof. apply forallb_app. Qed.

Lemma token_no_linebreak a : forallb istoken a = true -> no_linebreak a = true.
Proof.
  unfold no_linebreak. intros H. rewrite forallb_forall in *.
  intros c Hc. apply negb_true_iff. apply token_not_linebreak. auto.
Qed.

Lemma nonspace_no_linebreak a : forallb nonspace a = true -> no_linebreak a = true.
Proof.
  unfold no_linebreak, nonspace. intros H. rewrite forallb_forall in *.
  intros c Hc. specialize (H c Hc). apply negb_true_iff in H.
  apply negb_true_iff. destruct (islinebreak c) eqn:E; [|reflexivity].
  apply linebreak_is_space in E. congruence.
Qed.

Lemma no_linebreak_anychar v : no_linebreak v = true -> forallb anychar v = true.
Proof.
  unfold no_linebreak, anychar. intros H. rewrite forallb_forall in *.
  intros c Hc. specialize (H c Hc). apply negb_true_iff in H.
  apply negb_true_iff. destruct (c =? NL) eqn:E; [|reflexivity].
  apply N.eqb_eq in E. subst c. discriminate.
Qed.

(** *** [_strip_quotes] on the values the serializer writes *)

Lemma strip_quotes_unquoted v : strip v = v -> quoted v = false -> _strip_quotes v = v.
Proof.
  intros Hs Hq. unfold _strip_quotes. rewrite Hs. unfold quoted in Hq. now rewrite Hq.
Qed.

Lemma strip_quotes_wrapped v : _strip_quotes (DQUOTE :: v ++ [DQUOTE]) = v.
Proof.
  assert (Hs : strip (DQUOTE :: v ++ [DQUOTE]) = DQUOTE :: v ++ [DQUOTE]).
  { unfold strip. rewrite lstrip_fix by reflexivity.
    unfold rstrip. simpl rev. rewrite rev_app_distr. simpl rev. simpl app.
    rewrite rev_app_distr, rev_involutive. reflexivity. }
  unfold _strip_quotes. rewrite Hs.
  assert (He : endswith DQUOTE (DQUOTE :: v ++ [DQUOTE]) = true).
  { unfold endswith. simpl rev. rewrite rev_app_distr. reflexivity. }
  rewrite He. simpl. apply removelast_last.
Qed.

(** *** The patterns on the lines the serializer writes *)

Lemma header_text_eq a : header_text a = 32 :: 32 :: a ++ [COLON].
Proof. reflexivity. Qed.

Lemma address_text_eq v :
  address_text v = py "    " ++ py "address" ++ COLON :: SPACE :: DQUOTE :: v ++ [DQUOTE].
Proof. reflexivity. Qed.

Lemma private_key_text_eq v :
  private_key_text v = py "    " ++ py "private_key" ++ COLON :: SPACE :: v.
Proof. reflexivity. Qed.

Lemma header_not_toplevel a : re_toplevel (header_text a) = None.
Proof. reflexivity. Qed.

Lemma header_alias a : valid_alias a -> re_alias (header_text a) = Some a.
Proof.
  intros [Hne Ht]. rewrite header_text_eq. unfold re_alias.
  change (32 :: 32 :: a ++ [COLON]) with ([32; 32] ++ a ++ [COLON]).
  rewrite (count_intro isspace _ [32; 32]) by reflexivity.
  apply plus_group_intro; [exact Hne|exact Ht|reflexivity|].
  simpl app. apply (colon_tail_intro a [] []); reflexivity.
Qed.

Lemma address_not_toplevel v : re_toplevel (address_text v) = None.
Proof. reflexivity. Qed.

Lemma address_not_alias v : re_alias (address_text v) = None.
Proof. reflexivity. Qed.

Lemma trailing_quote_not_space (w1 w2 x : str) :
  w1 ++ w2 = x ++ [DQUOTE] -> w2 <> [] -> forallb isspace w2 = false.
Proof.
  intros E Hne.
  destruct (exists_last Hne) as (w2' & c & ->).
  rewrite app_assoc in E. apply app_inj_tail in E as [_ ->].
  rewrite forallb_app. simpl. apply andb_false_r.
Qed.

Lemma address_address v :
  no_linebreak v = true ->
  re_address (address_text v) = Some (DQUOTE :: v ++ [DQUOTE]).
Proof.
  intros Hv. rewrite address_text_eq. unfold re_address.
  rewrite (count_intro isspace _ (py "    ")) by reflexivity.
  rewrite lit_intro.
  rewrite star_stop by reflexivity.
  change (COLON :: SPACE :: DQUOTE :: v ++ [DQUOTE])
    with (py ":" ++ [SPACE] ++ DQUOTE :: v ++ [DQUOTE]).
  rewrite lit_intro.
  apply star_intro; [reflexivity|].
  rewrite star_stop by reflexivity.
  pose proof (plus_lazy_group_intro anychar
                (fun g : str => Re.star isspace (Re.eos g))
                (DQUOTE :: v ++ [DQUOTE]) [] [] (DQUOTE :: v ++ [DQUOTE])) as H.
  rewrite app_nil_r in H. apply H; clear H.
  - discriminate.
  - simpl. rewrite forallb_app. rewrite (no_linebreak_anychar _ Hv). reflexivity.
  - reflexivity.
  - intros w1 w2 E H1 H2. rewrite app_nil_r, trail_spec.
    rewrite (trailing_quote_not_space w1 w2 (DQUOTE :: v)); auto.
Qed.

Lemma private_key_not_toplevel v : re_toplevel (private_key_text v) = None.
Proof. reflexivity. Qed.

Lemma private_key_not_alias v : re_alias (private_key_text v) = None.
Proof. reflexivity. Qed.

Lemma private_key_not_address v : re_address (private_key_text v) = None.
Proof. reflexivity. Qed.

Lemma private_key_private_key v :
  v <> [] -> forallb nonspace v = true ->
  re_private_key (private_key_text v) = Some v.
Proof.
  intros Hne Hv. rewrite private_key_text_eq. unfold re_private_key.
  rewrite (count_intro isspace _ (py "    ")) by reflexivity.
  rewrite lit_intro.
  rewrite star_stop by reflexivity.
  change (COLON :: SPACE :: v) with (py ":" ++ [SPACE] ++ v).
  rewrite lit_intro.
  apply star_intro; [reflexivity|].
  destruct v as [|c v']; [contradiction|].
  assert (Hc : isspace c = false).
  { simpl in Hv. apply andb_true_iff in Hv as [Hc _]. now apply negb_true_iff in Hc. }
  rewrite star_stop by exact Hc.
  pose proof (plus_group_intro nonspace
                (fun g : str => Re.star isspace (Re.eos g))
                (c :: v') [] [] (c :: v')) as H.
  rewrite app_nil_r in H. apply H; clear H;
    [discriminate|exact Hv|exact I|reflexivity].
Qed.

(** *** One turn of the scan on each kind of line *)

Lemma scan_header line g rest acc cur :
  re_toplevel line = None -> re_alias line = Some g -> dict_get g acc = None ->
  scan (line :: rest) acc cur = scan rest (acc ++ [(g, no_fields)]) g.
Proof.
  intros H1 H2 H3. simpl. rewrite H1, H2. simpl.
  unfold dict_in. rewrite H3. simpl. now rewrite dict_set_absent.
Qed.

Lemma scan_address line g rest acc cur e :
  re_toplevel line = None -> re_alias line = None -> cur <> [] ->
  re_address line = Some g -> dict_get cur acc = Some e ->
  scan (line :: rest) acc cur
  = scan rest (dict_set cur (set_address (_strip_quotes g) e) acc) cur.
Proof.
  intros H1 H2 Hc H3 He. simpl. rewrite H1, H2, H3. simpl.
  destruct cur; [contradiction|]. simpl.
  now rewrite (store_address_ok _ _ _ _ He).
Qed.

Lemma scan_private_key line g rest acc cur e :
  re_toplevel line = None -> re_alias line = None -> cur <> [] ->
  re_address line = None -> re_private_key line = Some g ->
  dict_get cur acc = Some e ->
  scan (line :: rest) acc cur
  = scan rest (dict_set cur (set_private_key (_strip_quotes g) e) acc) cur.
Proof.
  intros H1 H2 Hc H3 H4 He. simpl. rewrite H1, H2, H3, H4. simpl.
  destruct cur; [contradiction|]. simpl.
  now rewrite (store_private_key_ok _ _ _ _ He).
Qed.

Lemma dict_get_app_last {V} k (v : V) d :
  dict_get k d = None -> dict_get k (d ++ [(k, v)]) = Some v.
Proof. intros H. rewrite <- (dict_set_absent k v d H). apply dict_get_set_same. Qed.

Lemma dict_set_app_last {V} k (v v' : V) d :
  dict_get k d = None -> dict_set k v' (d ++ [(k, v)]) = d ++ [(k, v')].
Proof.
  intros H. rewrite <- (dict_set_absent k v d H), dict_set_set.
  now apply dict_set_absent.
Qed.

Lemma valid_value_not_blank v : valid_value v -> blank v = false /\ strip v = v.
Proof.
  intros (Hne & Hs & _). split; [|exact Hs].
  unfold blank. rewrite Hs. destruct v; [contradiction|reflexivity].
Qed.

(** The scan of the lines of one valid account appends this account. *)
Lemma scan_block a d rest acc cur :
  valid_alias a ->
  (forall v, address d = Some v -> valid_value v) ->
  (forall v, private_key d = Some v -> valid_value v /\ forallb nonspace v = true) ->
  dict_get a acc = None ->
  scan (bare_lines a d ++ rest) acc cur = scan rest (acc ++ [(a, d)]) a.
Proof.
  intros Ha Hadr Hpk Hacc. destruct Ha as [Hne Htok].
  destruct d as [oa op]. unfold bare_lines. simpl address in *. simpl private_key in *.
  simpl app at 1.
  rewrite (scan_header _ a) by
    (first [apply header_not_toplevel | apply header_alias; split; assumption | exact Hacc]).
  assert (Hstep1 :
    forall rest', scan ((if blank (or_empty oa) then []
                         else [address_text (strip (or_empty oa))]) ++ rest')
                       (acc ++ [(a, no_fields)]) a
                  = scan rest' (acc ++ [(a, mk_account oa None)]) a).
  { intros rest'. destruct oa as [v|]; simpl or_empty.
    - destruct (valid_value_not_blank v (Hadr v eq_refl)) as [Hb Hs].
      rewrite Hb, Hs. simpl app.
      rewrite (scan_address _ (DQUOTE :: v ++ [DQUOTE]) _ _ _ no_fields);
        [ | apply address_not_toplevel | apply address_not_alias | exact Hne
          | apply address_address; apply (Hadr v eq_refl)
          | now apply dict_get_app_last ].
      rewrite strip_quotes_wrapped. now rewrite dict_set_app_last.
    - reflexivity. }
  rewrite <- app_assoc. rewrite Hstep1.
  destruct op as [v|]; simpl or_empty.
  - destruct (Hpk v eq_refl) as [Hv Hns].
    destruct (valid_value_not_blank v Hv) as [Hb Hs].
    rewrite Hb, Hs. simpl app.
    rewrite (scan_private_key _ v _ _ _ (mk_account oa None));
      [ | apply private_key_not_toplevel | apply private_key_not_alias | exact Hne
        | apply private_key_not_address
        | apply private_key_private_key; [apply Hv|exact Hns]
        | now apply dict_get_app_last ].
    rewrite strip_quotes_unquoted by apply Hv.
    now rewrite dict_set_app_last.
  - reflexivity.
Qed.

(** *** The whole text *)

Lemma scan_blocks (X : accounts_t) aliases : forall acc cur,
  NoDup aliases ->
  (forall a, In a aliases -> dict_get a acc = None) ->
  (forall a, In a aliases -> exists d, dict_get a X = Some d
     /\ valid_alias a
     /\ (forall v, address d = Some v -> valid_value v)
     /\ (forall v, private_key d = Some v ->
           valid_value v /\ forallb nonspace v = true)) ->
  scan (flat_map (bare_block X) aliases) acc cur
  = Ok (acc ++ map (fun a => (a, entry X a)) aliases).
Proof.
  induction aliases as [|a rest IH]; intros acc cur Hnd Hacc Hval; simpl.
  - now rewrite app_nil_r.
  - inversion Hnd as [|? ? Hnin Hnd']; subst.
    destruct (Hval a (or_introl eq_refl)) as (d & Hd & Ha & Hadr & Hpk).
    unfold bare_block at 1. unfold entry at 1. rewrite Hd.
    rewrite scan_block; auto; [|apply Hacc; simpl; auto].
    rewrite IH; auto.
    + now rewrite <- app_assoc.
    + intros a' Hin. rewrite <- (dict_set_absent a d acc) by (apply Hacc; simpl; auto).
      rewrite dict_get_set_other; [apply Hacc; simpl; auto|].
      intros ->. contradiction.
    + intros a' Hin. apply Hval. simpl. auto.
Qed.

Lemma emitted_bare alias d : emitted_lines alias d = map terminate (bare_lines alias d).
Proof.
  unfold emitted_lines, bare_lines, terminate, header_text, address_text,
    private_key_text.
  destruct (blank (or_empty (address d))), (blank (or_empty (private_key d)));
    simpl; rewrite <- ?app_assoc; reflexivity.
Qed.

Lemma block_bare X aliases :
  flat_map (block X) aliases = map terminate (flat_map (bare_block X) aliases).
Proof.
  induction aliases as [|a rest IH]; simpl; [reflexivity|].
  rewrite map_app, IH. f_equal. unfold block, bare_block.
  destruct (dict_get a X); [apply emitted_bare|reflexivity].
Qed.

Lemma canonical_text_lines X :
  canonical_text X =
    concat (map terminate
      (py "# IMPORTANT: This file contains PRIVATE KEYS. KEEP IT SECRET. DO NOT COMMIT."
       :: py "accounts:" :: flat_map (bare_block X) (sorted (keys X)))).
Proof.
  unfold canonical_text. rewrite block_bare. reflexivity.
Qed.

Lemma bare_lines_no_linebreak a d :
  valid_alias a ->
  (forall v, address d = Some v -> valid_value v) ->
  (forall v, private_key d = Some v -> valid_value v) ->
  Forall (fun l => no_linebreak l = true) (bare_lines a d).
Proof.
  intros [_ Ha] Hadr Hpk. unfold bare_lines.
  apply Forall_app. split; [|apply Forall_app; split].
  - constructor; [|constructor]. unfold header_text.
    rewrite !no_linebreak_app, (token_no_linebreak _ Ha). reflexivity.
  - destruct (address d) as [v|]; simpl or_empty; [|constructor].
    destruct (Hadr v eq_refl) as (_ & Hs & Hl & _).
    destruct (blank v); constructor; [|constructor].
    unfold address_text. rewrite Hs, !no_linebreak_app, Hl. reflexivity.
  - destruct (private_key d) as [v|]; simpl or_empty; [|constructor].
    destruct (Hpk v eq_refl) as (_ & Hs & Hl & _).
    destruct (blank v); constructor; [|constructor].
    unfold private_key_text. rewrite Hs, !no_linebreak_app, Hl. reflexivity.
Qed.

Lemma flat_map_Forall {X Y} (P : Y -> Prop) (f : X -> list Y) l :
  (forall x, In x l -> Forall P (f x)) -> Forall P (flat_map f l).
Proof.
  induction l as [|x l IH]; intros H; simpl; [constructor|].
  apply Forall_app. split; [apply H; simpl; auto|].
  apply IH. intros y Hy. apply H. simpl. auto.
Qed.

Lemma filter_all {X} (p : X -> bool) l :
  (forall x, In x l -> p x = true) -> filter p l = l.
Proof.
  induction l as [|x l IH]; intros H; simpl; [reflexivity|].
  rewrite (H x) by (simpl; auto). f_equal. apply IH.
  intros y Hy. apply H. simpl. auto.
Qed.

Lemma dict_get_map_entry {V} (f : str -> V) k l :
  dict_get k (map (fun a => (a, f a)) l)
  = if existsb (fun a => str_eqb a k) l then Some (f k) else None.
Proof.
  induction l as [|a l IH]; simpl; [reflexivity|].
  destruct (str_eqb a k) eqn:E; simpl; [|exact IH].
  apply str_eqb_eq in E. now subst.
Qed.

Lemma existsb_str_eqb k l : existsb (fun a => str_eqb a k) l = true <-> In k l.
Proof.
  rewrite existsb_exists. split.
  - intros (a & Hin & E). apply str_eqb_eq in E. now subst.
  - intros H. exists k. split; [exact H|apply str_eqb_refl].
Qed.

Lemma sorted_items_eq X : dict_eq (sorted_items X) X.
Proof.
  intros k. unfold sorted_items. rewrite dict_get_map_entry.
  destruct (existsb (fun a => str_eqb a k) (sorted (keys X))) eqn:E.
  - apply existsb_str_eqb in E.
    apply (Permutation_in _ (sorted_perm _)) in E.
    apply dict_in_keys in E. destruct (dict_in_get _ _ E) as (d & Hd).
    unfold entry. now rewrite Hd.
  - destruct (dict_get k X) as [d|] eqn:Hd; [|reflexivity].
    assert (Hin : In k (sorted (keys X))).
    { apply (Permutation_in _ (Permutation_sym (sorted_perm _))).
      apply dict_in_keys. unfold dict_in. now rewrite Hd. }
    apply existsb_str_eqb in Hin. congruence.
Qed.

Lemma round_trip_sorted X : round_trip_valid X -> parses_back X (sorted_items X).
Proof.
  intros [[Hnd Hval] Hext].
  exists (canonical_text X). split; [apply render_spec|].
  assert (Hin : forall a, In a (sorted (keys X)) ->
            exists d, dict_get a X = Some d /\ In (a, d) X).
  { intros a Ha. apply (Permutation_in _ (sorted_perm _)) in Ha.
    apply dict_in_keys in Ha. destruct (dict_in_get _ _ Ha) as (d & Hd).
    exists d. split; [exact Hd|now apply dict_get_In]. }
  unfold parse_accounts_accounts_section.
  rewrite canonical_text_lines, splitlines_terminated.
  - change (find_start 0 _) with (Some 1%nat). cbv iota.
    change (skipn (1 + 1) _) with (flat_map (bare_block X) (sorted (keys X))).
    rewrite scan_blocks.
    + simpl. f_equal. unfold cleanup. apply filter_all.
      intros [a d] Hi. apply in_map_iff in Hi as (a' & E & Ha').
      injection E as -> <-. simpl.
      destruct (Hin a Ha') as (d & Hd & Hi). unfold entry. rewrite Hd.
      destruct (Hval a d Hi) as (_ & Hadr & Hpk).
      destruct (Hext a d Hi) as (Hsome & _).
      unfold has_field. apply orb_true_iff.
      destruct Hsome as [H|H]; [left|right].
      * destruct (address d) as [v|]; [|contradiction].
        destruct (Hadr v eq_refl) as (Hne & _). now apply truthy_true.
      * destruct (private_key d) as [v|]; [|contradiction].
        destruct (Hpk v eq_refl) as (Hne & _). now apply truthy_true.
    + eapply Permutation_NoDup; [symmetry; apply sorted_perm|exact Hnd].
    + reflexivity.
    + intros a Ha. destruct (Hin a Ha) as (d & Hd & Hi).
      exists d. split; [exact Hd|].
      destruct (Hval a d Hi) as (Hal & Hadr & Hpk).
      destruct (Hext a d Hi) as (_ & Hns).
      split; [exact Hal|]. split; [exact Hadr|].
      intros v Hv. split; [apply (Hpk v Hv)|apply (Hns v Hv)].
  - constructor; [reflexivity|]. constructor; [reflexivity|].
    apply flat_map_Forall. intros a Ha.
    destruct (Hin a Ha) as (d & Hd & Hi). unfold bare_block. rewrite Hd.
    destruct (Hval a d Hi) as (Hal & Hadr & Hpk).
    now apply bare_lines_no_linebreak.
Qed.

(** *** C1 *)

(** The claim C1 fails on two valid dictionaries: an account without any
    field is written as a bare header and discarded by the parser, and a
    private key with a space inside is written on a line that the pattern
    of private keys, [(\S+)], does not match. *)
Lemma round_trip_loses_accounts :
  claimed_valid [(py "a", no_fields)]
  /\ parses_back [(py "a", no_fields)] []
  /\ claimed_valid [(py "a", mk_account None (Some (py "k 1")))]
  /\ parses_back [(py "a", mk_account None (Some (py "k 1")))] []
  /\ ~ (forall X, claimed_valid X -> exists Y, parses_back X Y /\ dict_eq Y X).
Proof.
  assert (H1 : claimed_valid [(py "a", no_fields)]).
  { split; [repeat constructor; intros []|].
    intros a d [E|[]]. injection E as <- <-.
    split; [split; [discriminate|reflexivity]|]. split; intros v; discriminate. }
  assert (H2 : parses_back [(py "a", no_fields)] []).
  { eexists. split; reflexivity. }
  assert (H3 : claimed_valid [(py "a", mk_account None (Some (py "k 1")))]).
  { split; [repeat constructor; intros []|].
    intros a d [E|[]]. injection E as <- <-.
    split; [split; [discriminate|reflexivity]|]. split; intros v; [discriminate|].
    intros [= <-]. repeat split. discriminate. }
  assert (H4 : parses_back [(py "a", mk_account None (Some (py "k 1")))] []).
  { eexists. split; reflexivity. }
  split; [exact H1|]. split; [exact H2|]. split; [exact H3|]. split; [exact H4|].
  intros H. destruct (H _ H1) as (Y & (text & Hr & Hp) & He).
  destruct H2 as (text' & Hr' & Hp'). rewrite Hr in Hr'. injection Hr' as <-.
  rewrite Hp in Hp'. injection Hp' as ->.
  specialize (He (py "a")). discriminate He.
Qed.

(** C1, amended: for a dictionary whose aliases are distinct non-empty
    tokens, whose present values are non-empty, without whitespace at
    either end, without line boundary and without quotes around them, whose
    private keys contain no whitespace and whose accounts all have at least
    one field, the text the serializer writes parses back to a dictionary
    with the same items. *)
Theorem round_trip (X : accounts_t) :
  round_trip_valid X -> exists Y, parses_back X Y /\ dict_eq Y X.
Proof.
  intros H. exists (sorted_items X). split.
  - now apply round_trip_sorted.
  - apply sorted_items_eq.
Qed.

Lemma sample_accounts_valid : round_trip_valid sample_accounts.
Proof.
  split; [split|].
  - repeat constructor; simpl; intuition discriminate.
  - intros a d [E|[E|[]]]; injection E as <- <-;
      (split; [split; [discriminate|reflexivity]|]);
      split; intros v E; try discriminate; injection E as <-;
      repeat split; discriminate.
  - intros a d [E|[E|[]]]; injection E as <- <-;
      (split; [left; discriminate|]);
      intros v E; try discriminate; injection E as <-; reflexivity.
Defined.

Lemma round_trip_witness :
  round_trip_valid sample_accounts
  /\ exists Y, parses_back sample_accounts Y /\ dict_eq Y sample_accounts.
Proof.
  split; [exact sample_accounts_valid|].
  exact (round_trip sample_accounts sample_accounts_valid).
Defined.

Example sample_accounts_parse :
  parses_back sample_accounts
    [(py "alice", mk_account (Some (py "0xA")) None);
     (py "bob", mk_account (Some (py "0xB")) (Some (py "k2")))].
Proof. eexists. split; reflexivity. Qed.

(** * Further properties of the parser *)

(** ** Invariants of the scan *)

Lemma Forall_dict_set {V} (P : str * V -> Prop) k v (d : dict V) :
  Forall P d -> P (k, v) -> Forall P (dict_set k v d).
Proof.
  intros Hd Hv. induction Hd as [|[k' v'] d Hx Hd IH]; simpl.
  - repeat constructor. exact Hv.
  - destruct (str_eqb k' k) eqn:E.
    + apply str_eqb_eq in E. subst k'. now constructor.
    + now constructor.
Qed.

Lemma Forall_dict_get {V} (P : str * V -> Prop) k v (d : dict V) :
  Forall P d -> dict_get k d = Some v -> P (k, v).
Proof.
  intros Hd Hg. apply dict_get_In in Hg. rewrite Forall_forall in Hd. auto.
Qed.

(** A property of the items that every write of the scan establishes or
    keeps holds for every item of the result. *)
Lemma scan_invariant (Q : str * account -> Prop) :
  (forall line g, re_alias line = Some g -> Q (g, no_fields)) ->
  (forall line g k e, re_address line = Some g -> Q (k, e) ->
     Q (k, set_address (_strip_quotes g) e)) ->
  (forall line g k e, re_private_key line = Some g -> Q (k, e) ->
     Q (k, set_private_key (_strip_quotes g) e)) ->
  forall lines acc cur d,
    Forall Q acc -> scan lines acc cur = Ok d -> Forall Q d.
Proof.
  intros Hal Had Hpk.
  induction lines as [|line rest IH]; intros acc cur d Hacc H; simpl in H.
  - now injection H as <-.
  - destruct (is_some (re_toplevel line) && negb (startswith SPACE line)).
    { now injection H as <-. }
    destruct (re_alias line) as [g|] eqn:Eal.
    { eapply IH; [|exact H].
      destruct (negb (dict_in g acc)); [|exact Hacc].
      apply Forall_dict_set; [exact Hacc|]. eapply Hal. exact Eal. }
    destruct (negb (truthy cur)); [eapply IH; eassumption|].
    destruct (re_address line) as [g|] eqn:Ead.
    { unfold store_address, getitem in H.
      destruct (dict_get cur acc) as [e|] eqn:Ec; [|discriminate]. simpl in H.
      eapply IH; [|exact H]. apply Forall_dict_set; [exact Hacc|].
      eapply Had; [exact Ead|]. eapply Forall_dict_get; eassumption. }
    destruct (re_private_key line) as [g|] eqn:Epk; [|eapply IH; eassumption].
    unfold store_private_key, getitem in H.
    destruct (dict_get cur acc) as [e|] eqn:Ec; [|discriminate]. simpl in H.
    eapply IH; [|exact H]. apply Forall_dict_set; [exact Hacc|].
    eapply Hpk; [exact Epk|]. eapply Forall_dict_get; eassumption.
Qed.

Lemma cleanup_Forall (Q : str * account -> Prop) acc :
  Forall Q acc -> Forall Q (cleanup acc).
Proof.
  intros H. rewrite Forall_forall in *. intros x Hx.
  apply filter_In in Hx. apply H. apply Hx.
Qed.

(** An invariant of the scan, for the parser. *)
Lemma parse_invariant (Q : str * account -> Prop) :
  (forall line g, re_alias line = Some g -> Q (g, no_fields)) ->
  (forall line g k e, re_address line = Some g -> Q (k, e) ->
     Q (k, set_address (_strip_quotes g) e)) ->
  (forall line g k e, re_private_key line = Some g -> Q (k, e) ->
     Q (k, set_private_key (_strip_quotes g) e)) ->
  forall text, exists accounts,
    parse_accounts_accounts_section text = Ok accounts /\ Forall Q accounts.
Proof.
  intros Hal Had Hpk text. unfold parse_accounts_accounts_section.
  destruct (find_start 0 (splitlines text)) as [start|].
  - destruct (scan_total (skipn (start + 1) (splitlines text)) [] []) as (d & Hd);
      [auto|].
    rewrite Hd. simpl. eexists. split; [reflexivity|].
    apply cleanup_Forall.
    eapply (scan_invariant Q Hal Had Hpk); [|exact Hd]. constructor.
  - exists []. split; [reflexivity|constructor].
Qed.

Lemma keys_cleanup_NoDup acc : NoDup (keys acc) -> NoDup (keys (cleanup acc)).
Proof.
  unfold cleanup, keys. induction acc as [|[k e] acc IH]; simpl; intros H.
  - constructor.
  - inversion H as [|? ? Hnin Hnd]; subst.
    destruct (has_field e); simpl; [|auto].
    constructor; [|auto]. intros Hin. apply Hnin.
    apply in_map_iff in Hin as ([k' e'] & E & Hin). simpl in E. subst k'.
    apply filter_In in Hin as [Hin _]. apply (in_map fst) in Hin. exact Hin.
Qed.

(** X1: the dictionary the parser returns holds each alias once, also when
    the text repeats the header of an alias. *)
Theorem parse_aliases_unique (text : str) :
  exists accounts,
    parse_accounts_accounts_section text = Ok accounts /\ NoDup (keys accounts).
Proof.
  unfold parse_accounts_accounts_section.
  destruct (find_start 0 (splitlines text)) as [start|].
  - destruct (scan_total (skipn (start + 1) (splitlines text)) [] []) as (d & Hd);
      [auto|].
    rewrite Hd. simpl. eexists. split; [reflexivity|].
    apply keys_cleanup_NoDup.
    apply (scan_nodup _ [] [] d (NoDup_nil _) Hd).
  - exists []. split; [reflexivity|constructor].
Qed.

Lemma re_alias_group line g : re_alias line = Some g -> valid_alias g.
Proof.
  unfold re_alias. intros H.
  apply count_inv in H as (w & t & -> & _ & _ & H).
  apply plus_group_inv in H as (w' & t' & -> & Hne & Hw' & H).
  apply colon_tail_inv in H as (-> & _). simpl. split; assumption.
Qed.

(** X2: every alias of the dictionary the parser returns is a non-empty
    word over letters, digits, [.], [_] and [-]. *)
Theorem parse_aliases_tokens (text : str) :
  exists accounts,
    parse_accounts_accounts_section text = Ok accounts
    /\ forall a, In a (keys accounts) -> valid_alias a.
Proof.
  destruct (parse_invariant (fun kd => valid_alias (fst kd))) with (text := text)
    as (accounts & Hp & Hq).
  - intros line g H. simpl. eapply re_alias_group. exact H.
  - intros line g k e _ H. exact H.
  - intros line g k e _ H. exact H.
  - exists accounts. split; [exact Hp|].
    intros a Ha. apply in_map_iff in Ha as ([k e] & <- & Hin).
    rewrite Forall_forall in Hq. apply (Hq _ Hin).
Qed.

Lemma nonspace_lstrip g : forallb nonspace g = true -> lstrip g = g.
Proof.
  destruct g as [|c g]; [reflexivity|]. simpl. intros H.
  apply andb_true_iff in H as [H _]. apply negb_true_iff in H. now rewrite H.
Qed.

Lemma nonspace_strip g : forallb nonspace g = true -> strip g = g.
Proof.
  intros H. unfold strip, rstrip. rewrite (nonspace_lstrip g H).
  rewrite nonspace_lstrip; [apply rev_involutive|].
  rewrite forallb_forall in *. intros c Hc. apply H. now apply in_rev.
Qed.

Lemma forallb_tl {X} (p : X -> bool) l : forallb p l = true -> forallb p (tl l) = true.
Proof. destruct l; simpl; [auto|]. intros H. now apply andb_true_iff in H. Qed.

Lemma forallb_removelast {X} (p : X -> bool) l :
  forallb p l = true -> forallb p (removelast l) = true.
Proof.
  induction l as [|x l IH]; [auto|]. intros H.
  apply andb_true_iff in H as [Hx Hl].
  destruct l as [|y l]; [reflexivity|].
  change (removelast (x :: y :: l)) with (x :: removelast (y :: l)).
  cbn [forallb]. rewrite Hx. exact (IH Hl).
Qed.

Lemma strip_quotes_nonspace g :
  forallb nonspace g = true -> forallb nonspace (_strip_quotes g) = true.
Proof.
  intros H. unfold _strip_quotes. rewrite (nonspace_strip g H).
  destruct (_ || _); [|exact H].
  apply forallb_removelast. now apply forallb_tl.
Qed.

Lemma re_private_key_group line g :
  re_private_key line = Some g -> g <> [] /\ forallb nonspace g = true.
Proof.
  unfold re_private_key. intros H.
  apply count_inv in H as (w & t & -> & _ & _ & H).
  apply lit_inv in H as (t1 & -> & H).
  apply star_inv in H as (w1 & t2 & -> & _ & H).
  apply lit_inv in H as (t3 & -> & H).
  apply star_inv in H as (w2 & t4 & -> & _ & H).
  apply plus_group_inv in H as (w' & t' & -> & Hne & Hw' & H).
  rewrite trail_spec in H. destruct (forallb isspace t'); [|discriminate].
  injection H as <-. simpl. split; assumption.
Qed.

(** X3: no private key of the dictionary the parser returns contains a
    whitespace character. *)
Theorem parse_private_keys_tokens (text : str) :
  exists accounts,
    parse_accounts_accounts_section text = Ok accounts
    /\ forall a d, dict_get a accounts = Some d -> private_key_token d.
Proof.
  destruct (parse_invariant (fun kd => private_key_token (snd kd))) with (text := text)
    as (accounts & Hp & Hq).
  - intros line g _ v H. discriminate H.
  - intros line g k e _ H v Hv. apply (H v Hv).
  - intros line g k e Hg _ v Hv. simpl in Hv. injection Hv as <-.
    apply strip_quotes_nonspace. eapply re_private_key_group. exact Hg.
  - exists accounts. split; [exact Hp|].
    intros a d Hd. apply (Forall_dict_get _ _ _ _ Hq Hd).
Qed.

(** ** What the parser does not read *)

Lemma re_toplevel_not_indented top r : re_toplevel top = Some r -> startswith SPACE top = false.
Proof.
  unfold re_toplevel. intros H.
  apply plus_group_inv in H as (w & t & -> & Hne & Hw & _).
  destruct w as [|c w]; [contradiction|]. simpl in *.
  apply andb_true_iff in Hw as [Hc _].
  destruct (c =? SPACE) eqn:E; [|reflexivity].
  apply N.eqb_eq in E. subst c. discriminate.
Qed.

Lemma scan_stop top post acc cur :
  re_toplevel top <> None -> scan (top :: post) acc cur = Ok acc.
Proof.
  intros H. destruct (re_toplevel top) as [r|] eqn:E; [|contradiction].
  simpl. rewrite E, (re_toplevel_not_indented _ _ E). reflexivity.
Qed.

Lemma scan_tail section : forall tail acc cur,
  section_ends tail -> scan (section ++ tail) acc cur = scan section acc cur.
Proof.
  induction section as [|line rest IH]; intros tail acc cur Ht.
  - destruct tail as [|top post]; [reflexivity|]. now apply scan_stop.
  - simpl.
    destruct (is_some (re_toplevel line) && negb (startswith SPACE line)); [reflexivity|].
    destruct (re_alias line) as [g|]; [now apply IH|].
    destruct (negb (truthy cur)); [now apply IH|].
    destruct (re_address line) as [g|].
    { destruct (store_address cur (_strip_quotes g) acc); simpl; [now apply IH|reflexivity]. }
    destruct (re_private_key line) as [g|]; [|now apply IH].
    destruct (store_private_key cur (_strip_quotes g) acc); simpl; [now apply IH|reflexivity].
Qed.

Lemma find_start_app pre anchor rest : forall i,
  (forall l, In l pre -> re_accounts l = None) ->
  re_accounts anchor = Some tt ->
  find_start i (pre ++ anchor :: rest) = Some (i + length pre)%nat.
Proof.
  induction pre as [|l pre IH]; intros i Hpre Ha; simpl.
  - rewrite Ha. simpl. now rewrite Nat.add_0_r.
  - rewrite (Hpre l) by (simpl; auto). simpl.
    rewrite IH; [f_equal; lia| |exact Ha].
    intros l' Hl'. apply Hpre. simpl. auto.
Qed.

Lemma skipn_app_cons {X} (pre : list X) x rest :
  skipn (length pre + 1) (pre ++ x :: rest) = rest.
Proof.
  induction pre as [|y pre IH]; simpl; [reflexivity|exact IH].
Qed.

Lemma parse_unlines pre anchor rest :
  Forall (fun l => no_linebreak l = true) (pre ++ anchor :: rest) ->
  (forall l, In l pre -> re_accounts l = None) ->
  re_accounts anchor = Some tt ->
  parse_accounts_accounts_section (unlines (pre ++ anchor :: rest))
  = (accounts <- scan rest [] [] ;; Ok (cleanup accounts)).
Proof.
  intros Hl Hpre Ha. unfold parse_accounts_accounts_section, unlines.
  rewrite splitlines_terminated by exact Hl.
  rewrite (find_start_app pre anchor rest 0 Hpre Ha).
  change (0 + length pre)%nat with (length pre).
  now rewrite skipn_app_cons.
Qed.

(** X4: the parser reads the lines between the anchor and the next
    top-level key only: the lines before the first [accounts:] line and the
    lines from the first top-level key after it on do not change the
    result. *)
Theorem parse_reads_section_only (pre section tail : list str) (anchor : str) :
  Forall (fun l => no_linebreak l = true) (pre ++ anchor :: section ++ tail) ->
  (forall l, In l pre -> re_accounts l = None) ->
  re_accounts anchor = Some tt ->
  section_ends tail ->
  parse_accounts_accounts_section (unlines (pre ++ anchor :: section ++ tail))
  = parse_accounts_accounts_section (unlines (anchor :: section)).
Proof.
  intros Hl Hpre Ha Ht.
  rewrite (parse_unlines pre anchor (section ++ tail) Hl Hpre Ha).
  pose proof (parse_unlines [] anchor section) as H0. simpl app in H0.
  rewrite H0.
  - now rewrite scan_tail.
  - apply Forall_app in Hl as [_ Hl].
    inversion Hl as [|? ? H1 H2]; subst. constructor; [exact H1|].
    now apply Forall_app in H2 as [H2 _].
  - intros l [].
  - exact Ha.
Qed.

Lemma parse_reads_section_only_witness :
  let pre := [py "network: testnet"; py "# accounts below"] in
  let anchor := py "accounts:" in
  let section := [py "  alice:"; py "    address: 0xAA"] in
  let tail := [py "contexts:"; py "  bob:"; py "    address: 0xBB"] in
  (Forall (fun l => no_linebreak l = true) (pre ++ anchor :: section ++ tail)
   /\ (forall l, In l pre -> re_accounts l = None)
   /\ re_accounts anchor = Some tt
   /\ section_ends tail)
  /\ parse_accounts_accounts_section (unlines (pre ++ anchor :: section ++ tail))
     = parse_accounts_accounts_section (unlines (anchor :: section)).
Proof.
  intros pre anchor section tail.
  assert (H1 : Forall (fun l => no_linebreak l = true) (pre ++ anchor :: section ++ tail)).
  { repeat constructor. }
  assert (H2 : forall l, In l pre -> re_accounts l = None).
  { intros l [<-|[<-|[]]]; reflexivity. }
  assert (H3 : re_accounts anchor = Some tt) by reflexivity.
  assert (H4 : section_ends tail) by discriminate.
  split; [repeat split; assumption|].
  exact (parse_reads_section_only pre section tail anchor H1 H2 H3 H4).
Defined.

(** ** Line ends *)

Lemma splitlines_from_crlf l : forall cur rest,
  no_linebreak l = true ->
  splitlines_from cur (l ++ CR :: NL :: rest) = (cur ++ l) :: splitlines_from [] rest.
Proof.
  unfold no_linebreak.
  induction l as [|c l IH]; intros cur rest H; simpl in *.
  - now rewrite app_nil_r.
  - apply andb_true_iff in H as [Hc Hl]. apply negb_true_iff in Hc.
    assert (Hcr : (c =? CR) = false).
    { destruct (c =? CR) eqn:E; [|reflexivity].
      apply N.eqb_eq in E. subst c. discriminate. }
    rewrite Hcr, Hc. rewrite IH by exact Hl. now rewrite <- app_assoc.
Qed.

Lemma splitlines_crlf ls :
  Forall (fun l => no_linebreak l = true) ls -> splitlines (unlines_crlf ls) = ls.
Proof.
  unfold splitlines, unlines_crlf.
  induction 1 as [|l ls Hl Hls IH]; simpl; [reflexivity|].
  rewrite <- app_assoc. simpl. rewrite splitlines_from_crlf by exact Hl.
  simpl. now rewrite IH.
Qed.

(** X5: a document written with the line ends of Windows (CR LF) parses to
    the same dictionary as the document with line feeds. *)
Theorem parse_crlf (ls : list str) :
  Forall (fun l => no_linebreak l = true) ls ->
  parse_accounts_accounts_section (unlines_crlf ls)
  = parse_accounts_accounts_section (unlines ls).
Proof.
  intros H. unfold parse_accounts_accounts_section.
  rewrite (splitlines_crlf ls H). unfold unlines.
  now rewrite (splitlines_terminated ls H).
Qed.

Lemma parse_crlf_witness :
  let ls := [py "accounts:"; py "  alice:"; py "    private_key: k1"] in
  Forall (fun l => no_linebreak l = true) ls
  /\ parse_accounts_accounts_section (unlines_crlf ls)
     = parse_accounts_accounts_section (unlines ls).
Proof.
  intros ls.
  assert (H : Forall (fun l => no_linebreak l = true) ls) by repeat constructor.
  split; [exact H|exact (parse_crlf ls H)].
Defined.

(** ** Quotes and whitespace around a value *)

Lemma lstrip_all_space w : forallb isspace w = true -> lstrip w = [].
Proof.
  induction w as [|c w IH]; simpl; [reflexivity|]. intros H.
  apply andb_true_iff in H as [Hc Hw]. rewrite Hc. auto.
Qed.

Lemma lstrip_spaces w x : forallb isspace w = true -> lstrip (w ++ x) = lstrip x.
Proof. intros H. rewrite lstrip_app, (lstrip_all_space w H). reflexivity. Qed.

Lemma forallb_rev {X} (p : X -> bool) l : forallb p (rev l) = forallb p l.
Proof.
  induction l as [|x l IH]; simpl; [reflexivity|].
  rewrite forallb_app, IH. simpl. rewrite andb_true_r. apply andb_comm.
Qed.

Lemma rstrip_spaces y w : forallb isspace w = true -> rstrip (y ++ w) = rstrip y.
Proof.
  intros H. unfold rstrip. rewrite rev_app_distr, lstrip_spaces; [reflexivity|].
  now rewrite forallb_rev.
Qed.

Lemma strip_padded w1 t w2 :
  trimmed t -> forallb isspace w1 = true -> forallb isspace w2 = true ->
  strip (w1 ++ t ++ w2) = t.
Proof.
  intros (Hne & Hl & Hr) H1 H2. unfold strip.
  rewrite (lstrip_spaces w1 _ H1), lstrip_app, Hl.
  destruct t as [|c t]; [contradiction|]. simpl truthy. cbv iota.
  now rewrite (rstrip_spaces _ w2 H2).
Qed.

Lemma trimmed_wrap q v : isspace q = false -> trimmed (wrap q v).
Proof.
  intros Hq. unfold wrap. split; [discriminate|]. split.
  - now apply lstrip_fix.
  - unfold rstrip. simpl rev. rewrite rev_app_distr. simpl rev. simpl app.
    rewrite Hq.
    simpl rev. rewrite rev_app_distr, rev_involutive. reflexivity.
Qed.

Lemma lstrip_strip s : lstrip (strip s) = strip s.
Proof.
  unfold strip. pose proof (lstrip_head s) as Hh.
  destruct (lstrip s) as [|c t]; [reflexivity|].
  destruct (rstrip_keeps_head c t Hh) as [r Hr].
  rewrite Hr. now apply lstrip_fix.
Qed.

Lemma stripped_trimmed v : v <> [] -> strip v = v -> trimmed v.
Proof.
  intros Hne Hs. split; [exact Hne|]. split.
  - rewrite <- Hs. apply lstrip_strip.
  - rewrite <- Hs. unfold strip. apply rstrip_idem.
Qed.

Lemma trimmed_head t : trimmed t -> stops isspace t.
Proof.
  intros (_ & Hl & _). pose proof (lstrip_head t) as H. rewrite Hl in H.
  destruct t; [exact I|exact H].
Qed.

Lemma trimmed_last t : trimmed t -> exists x c, t = x ++ [c] /\ isspace c = false.
Proof.
  intros (Hne & _ & Hr).
  destruct (exists_last Hne) as (x & c & ->). exists x, c. split; [reflexivity|].
  unfold rstrip in Hr. apply (f_equal (@rev _)) in Hr.
  rewrite rev_involutive in Hr.
  pose proof (lstrip_head (rev (x ++ [c]))) as H. rewrite Hr in H.
  rewrite rev_app_distr in H. exact H.
Qed.

Lemma strip_quotes_wrap q v w1 w2 :
  q = DQUOTE \/ q = SQUOTE ->
  forallb isspace w1 = true -> forallb isspace w2 = true ->
  _strip_quotes (w1 ++ wrap q v ++ w2) = v.
Proof.
  intros Hq H1 H2.
  assert (Hsp : isspace q = false) by (destruct Hq; subst; reflexivity).
  unfold _strip_quotes. rewrite (strip_padded w1 _ w2 (trimmed_wrap q v Hsp) H1 H2).
  assert (He : forall c, endswith c (wrap q v) = (q =? c)).
  { intros c. unfold endswith, wrap. simpl rev. rewrite rev_app_distr. reflexivity. }
  rewrite !He. unfold wrap at 1 2. simpl startswith.
  assert (Hc : (q =? DQUOTE) && (q =? DQUOTE) || (q =? SQUOTE) && (q =? SQUOTE) = true).
  { destruct Hq; subst; reflexivity. }
  rewrite Hc. unfold wrap. simpl tl. apply removelast_last.
Qed.

(** X6: [_strip_quotes] undoes quoting: a text wrapped in double or single
    quotes, with any whitespace around the quotes, gives back the text
    itself, whatever it contains. *)
Theorem strip_quotes_inverse (q : char) (v w1 w2 : str) :
  q = DQUOTE \/ q = SQUOTE -> spaces w1 -> spaces w2 ->
  _strip_quotes (w1 ++ wrap q v ++ w2) = v.
Proof. exact (strip_quotes_wrap q v w1 w2). Qed.

Lemma strip_quotes_inverse_witness :
  (SQUOTE = DQUOTE \/ SQUOTE = SQUOTE) /\ spaces (py "  ") /\ spaces [9]
  /\ _strip_quotes (py "  " ++ wrap SQUOTE (py " a 'b' ") ++ [9]) = py " a 'b' ".
Proof.
  assert (H1 : SQUOTE = DQUOTE \/ SQUOTE = SQUOTE) by (right; reflexivity).
  assert (H2 : spaces (py "  ")) by reflexivity.
  assert (H3 : spaces [9]) by reflexivity.
  split; [exact H1|]. split; [exact H2|]. split; [exact H3|].
  exact (strip_quotes_inverse SQUOTE (py " a 'b' ") (py "  ") [9] H1 H2 H3).
Defined.

(** ** Field lines *)

Lemma suffix_not_space (w1 w2 x : str) c :
  w1 ++ w2 = x ++ [c] -> isspace c = false -> w2 <> [] -> forallb isspace w2 = false.
Proof.
  intros E Hc Hne.
  destruct (exists_last Hne) as (w2' & c' & ->).
  rewrite app_assoc in E. apply app_inj_tail in E as [_ ->].
  rewrite forallb_app. simpl. rewrite Hc. apply andb_false_r.
Qed.

Lemma four_spaces ind :
  length ind = 4%nat -> forallb isspace ind = true ->
  exists a b c d, ind = [a; b; c; d]
    /\ isspace a = true /\ isspace b = true /\ isspace c = true /\ isspace d = true.
Proof.
  intros Hl Hs.
  destruct ind as [|a [|b [|c [|d [|x ind]]]]]; try discriminate.
  simpl in Hs. rewrite !andb_true_iff in Hs.
  exists a, b, c, d. intuition.
Qed.

Lemma space_not_token c : isspace c = true -> istoken c = false.
Proof.
  intros H. destruct (istoken c) eqn:E; [|reflexivity].
  apply token_not_space in E. congruence.
Qed.

Lemma field_line_not_toplevel ind x :
  length ind = 4%nat -> forallb isspace ind = true -> re_toplevel (ind ++ x) = None.
Proof.
  intros Hl Hs. destruct (four_spaces ind Hl Hs) as (a & b & c & d & -> & Ha & _).
  unfold re_toplevel. simpl. now rewrite (space_not_token a Ha).
Qed.

Lemma field_line_not_alias ind x :
  length ind = 4%nat -> forallb isspace ind = true -> re_alias (ind ++ x) = None.
Proof.
  intros Hl Hs.
  destruct (four_spaces ind Hl Hs) as (a & b & c & d & -> & Ha & Hb & Hc & _).
  unfold re_alias. simpl. now rewrite Ha, Hb, (space_not_token c Hc).
Qed.

Lemma re_address_field ind w1 w2 t w3 :
  length ind = 4%nat -> spaces ind -> spaces w1 -> spaces w2 -> spaces w3 ->
  trimmed t -> forallb anychar t = true ->
  re_address (field_line ind (py "address") w1 w2 t w3) = Some t.
Proof.
  intros Hl Hi H1 H2 H3 Ht Hany. unfold field_line, re_address.
  rewrite <- Hl. rewrite (count_intro isspace _ ind) by exact Hi.
  rewrite lit_intro.
  apply star_intro; [exact H1|].
  change (py ":" ++ w2 ++ t ++ w3) with (COLON :: w2 ++ t ++ w3).
  rewrite star_stop by reflexivity.
  change (COLON :: w2 ++ t ++ w3) with (py ":" ++ w2 ++ t ++ w3).
  rewrite lit_intro.
  apply star_intro; [exact H2|].
  pose proof (trimmed_head t Ht) as Hh.
  destruct (trimmed_last t Ht) as (x & c & Ex & Hc).
  destruct Ht as (Hne & _).
  destruct t as [|c0 t0]; [contradiction|]. simpl in Hh.
  simpl app at 1. rewrite star_stop by exact Hh.
  change (c0 :: t0 ++ w3) with ((c0 :: t0) ++ w3).
  apply plus_lazy_group_intro.
  - discriminate.
  - exact Hany.
  - simpl app at 1. rewrite trail_spec. unfold spaces in H3. now rewrite H3.
  - intros u1 u2 E Hu1 Hu2. rewrite trail_spec, forallb_app.
    rewrite Ex in E. now rewrite (suffix_not_space u1 u2 x c (eq_sym E) Hc Hu2).
Qed.

Lemma re_private_key_field ind w1 w2 t w3 :
  length ind = 4%nat -> spaces ind -> spaces w1 -> spaces w2 -> spaces w3 ->
  t <> [] -> forallb nonspace t = true ->
  re_private_key (field_line ind (py "private_key") w1 w2 t w3) = Some t.
Proof.
  intros Hl Hi H1 H2 H3 Hne Hns. unfold field_line, re_private_key.
  rewrite <- Hl. rewrite (count_intro isspace _ ind) by exact Hi.
  rewrite lit_intro.
  apply star_intro; [exact H1|].
  change (py ":" ++ w2 ++ t ++ w3) with (COLON :: w2 ++ t ++ w3).
  rewrite star_stop by reflexivity.
  change (COLON :: w2 ++ t ++ w3) with (py ":" ++ w2 ++ t ++ w3).
  rewrite lit_intro.
  apply star_intro; [exact H2|].
  destruct t as [|c0 t0]; [contradiction|].
  assert (Hc0 : isspace c0 = false).
  { simpl in Hns. apply andb_true_iff in Hns as [Hc _]. now apply negb_true_iff in Hc. }
  simpl app at 1. rewrite star_stop by exact Hc0.
  change (c0 :: t0 ++ w3) with ((c0 :: t0) ++ w3).
  apply plus_group_intro.
  - discriminate.
  - exact Hns.
  - unfold spaces in H3. destruct w3 as [|c w3]; [exact I|]. simpl in *.
    apply andb_true_iff in H3 as [Hc _]. unfold nonspace. now rewrite Hc.
  - simpl app at 1. rewrite trail_spec. unfold spaces in H3. now rewrite H3.
Qed.

Lemma private_key_line_not_address ind x :
  length ind = 4%nat -> spaces ind -> re_address (ind ++ py "private_key" ++ x) = None.
Proof.
  intros Hl Hi. unfold re_address.
  rewrite <- Hl. rewrite (count_intro isspace _ ind) by exact Hi. reflexivity.
Qed.

Lemma strip_quotes_wrap0 q v : q = DQUOTE \/ q = SQUOTE -> _strip_quotes (wrap q v) = v.
Proof.
  intros Hq. pose proof (strip_quotes_wrap q v [] [] Hq eq_refl eq_refl) as H.
  simpl app in H. now rewrite app_nil_r in H.
Qed.

Lemma anychar_wrap q v :
  q = DQUOTE \/ q = SQUOTE -> forallb anychar v = true -> forallb anychar (wrap q v) = true.
Proof.
  intros Hq Hv. unfold wrap. simpl. rewrite forallb_app, Hv.
  destruct Hq; subst; reflexivity.
Qed.

Lemma nonspace_wrap q v :
  q = DQUOTE \/ q = SQUOTE -> forallb nonspace v = true -> forallb nonspace (wrap q v) = true.
Proof.
  intros Hq Hv. unfold wrap. simpl. rewrite forallb_app, Hv.
  destruct Hq; subst; reflexivity.
Qed.

Lemma scan_address_field ind w1 w2 t w3 rest acc cur e :
  length ind = 4%nat -> spaces ind -> spaces w1 -> spaces w2 -> spaces w3 ->
  trimmed t -> forallb anychar t = true ->
  cur <> [] -> dict_get cur acc = Some e ->
  scan (field_line ind (py "address") w1 w2 t w3 :: rest) acc cur
  = scan rest (dict_set cur (set_address (_strip_quotes t) e) acc) cur.
Proof.
  intros Hl Hi H1 H2 H3 Ht Hany Hcur He.
  apply scan_address; auto.
  - now apply field_line_not_toplevel.
  - now apply field_line_not_alias.
  - now apply re_address_field.
Qed.

Lemma scan_private_key_field ind w1 w2 t w3 rest acc cur e :
  length ind = 4%nat -> spaces ind -> spaces w1 -> spaces w2 -> spaces w3 ->
  t <> [] -> forallb nonspace t = true ->
  cur <> [] -> dict_get cur acc = Some e ->
  scan (field_line ind (py "private_key") w1 w2 t w3 :: rest) acc cur
  = scan rest (dict_set cur (set_private_key (_strip_quotes t) e) acc) cur.
Proof.
  intros Hl Hi H1 H2 H3 Hne Hns Hcur He.
  apply scan_private_key; auto.
  - now apply field_line_not_toplevel.
  - now apply field_line_not_alias.
  - now apply private_key_line_not_address.
  - now apply re_private_key_field.
Qed.

(** X7: under a current alias, an address line stores the value [v] it
    carries whether [v] is written in double quotes, in single quotes or,
    when [v] has no whitespace at its ends and no quotes around it, bare;
    the whitespace around the colon and after the value does not matter. *)
Theorem address_line_spellings (ind w1 w2 w3 v cur : str) (e : account)
    (acc : accounts_t) (rest : list str) :
  length ind = 4%nat -> spaces ind -> spaces w1 -> spaces w2 -> spaces w3 ->
  forallb anychar v = true ->
  cur <> [] -> dict_get cur acc = Some e ->
  let stored_v := scan rest (dict_set cur (set_address v e) acc) cur in
  scan (field_line ind (py "address") w1 w2 (wrap DQUOTE v) w3 :: rest) acc cur
  = stored_v
  /\ scan (field_line ind (py "address") w1 w2 (wrap SQUOTE v) w3 :: rest) acc cur
     = stored_v
  /\ (trimmed v -> quoted v = false ->
      scan (field_line ind (py "address") w1 w2 v w3 :: rest) acc cur = stored_v).
Proof.
  intros Hl Hi H1 H2 H3 Hany Hcur He. cbv zeta. split; [|split].
  - rewrite (scan_address_field ind w1 w2 (wrap DQUOTE v) w3 rest acc cur e); auto.
    + now rewrite strip_quotes_wrap0 by auto.
    + now apply trimmed_wrap.
    + apply anychar_wrap; auto.
  - rewrite (scan_address_field ind w1 w2 (wrap SQUOTE v) w3 rest acc cur e); auto.
    + now rewrite strip_quotes_wrap0 by auto.
    + now apply trimmed_wrap.
    + apply anychar_wrap; auto.
  - intros Ht Hq. rewrite (scan_address_field ind w1 w2 v w3 rest acc cur e); auto.
    rewrite strip_quotes_unquoted; auto.
    destruct Ht as (_ & Hls & Hrs). unfold strip. now rewrite Hls.
Qed.

(** X8: under a current alias, a private-key line stores the token [v] it
    carries whether [v] is written in double quotes, in single quotes or,
    when [v] is not empty and has no quotes around it, bare. *)
Theorem private_key_line_spellings (ind w1 w2 w3 v cur : str) (e : account)
    (acc : accounts_t) (rest : list str) :
  length ind = 4%nat -> spaces ind -> spaces w1 -> spaces w2 -> spaces w3 ->
  forallb nonspace v = true ->
  cur <> [] -> dict_get cur acc = Some e ->
  let stored_v := scan rest (dict_set cur (set_private_key v e) acc) cur in
  scan (field_line ind (py "private_key") w1 w2 (wrap DQUOTE v) w3 :: rest) acc cur
  = stored_v
  /\ scan (field_line ind (py "private_key") w1 w2 (wrap SQUOTE v) w3 :: rest) acc cur
     = stored_v
  /\ (v <> [] -> quoted v = false ->
      scan (field_line ind (py "private_key") w1 w2 v w3 :: rest) acc cur = stored_v).
Proof.
  intros Hl Hi H1 H2 H3 Hns Hcur He. cbv zeta. split; [|split].
  - rewrite (scan_private_key_field ind w1 w2 (wrap DQUOTE v) w3 rest acc cur e); auto.
    + now rewrite strip_quotes_wrap0 by auto.
    + discriminate.
    + apply nonspace_wrap; auto.
  - rewrite (scan_private_key_field ind w1 w2 (wrap SQUOTE v) w3 rest acc cur e); auto.
    + now rewrite strip_quotes_wrap0 by auto.
    + discriminate.
    + apply nonspace_wrap; auto.
  - intros Hne Hq. rewrite (scan_private_key_field ind w1 w2 v w3 rest acc cur e); auto.
    rewrite strip_quotes_unquoted; auto. now apply nonspace_strip.
Qed.

Lemma address_line_spellings_witness :
  let ind := py "    " in
  let v := py "0xAA" in
  let cur := py "a" in
  let acc := [(py "a", no_fields)] in
  (length ind = 4%nat /\ spaces ind /\ spaces [] /\ spaces [SPACE] /\ spaces [9]
   /\ forallb anychar v = true /\ cur <> [] /\ dict_get cur acc = Some no_fields)
  /\ (let stored_v := scan [] (dict_set cur (set_address v no_fields) acc) cur in
      scan (field_line ind (py "address") [] [SPACE] (wrap DQUOTE v) [9] :: []) acc cur
      = stored_v
      /\ scan (field_line ind (py "address") [] [SPACE] (wrap SQUOTE v) [9] :: []) acc cur
         = stored_v
      /\ (trimmed v -> quoted v = false ->
          scan (field_line ind (py "address") [] [SPACE] v [9] :: []) acc cur = stored_v)).
Proof.
  intros ind v cur acc.
  assert (H1 : length ind = 4%nat) by reflexivity.
  assert (H2 : spaces ind) by reflexivity.
  assert (H3 : spaces []) by reflexivity.
  assert (H4 : spaces [SPACE]) by reflexivity.
  assert (H5 : spaces [9]) by reflexivity.
  assert (H6 : forallb anychar v = true) by reflexivity.
  assert (H7 : cur <> []) by discriminate.
  assert (H8 : dict_get cur acc = Some no_fields) by reflexivity.
  split; [repeat (split; [assumption|]); assumption|].
  exact (address_line_spellings ind [] [SPACE] [9] v cur no_fields acc []
           H1 H2 H3 H4 H5 H6 H7 H8).
Defined.

Lemma private_key_line_spellings_witness :
  let ind := py "    " in
  let v := py "ed25519-priv-0x01" in
  let cur := py "a" in
  let acc := [(py "a", no_fields)] in
  (length ind = 4%nat /\ spaces ind /\ spaces [] /\ spaces [SPACE] /\ spaces [9]
   /\ forallb nonspace v = true /\ cur <> [] /\ dict_get cur acc = Some no_fields)
  /\ (let stored_v := scan [] (dict_set cur (set_private_key v no_fields) acc) cur in
      scan (field_line ind (py "private_key") [] [SPACE] (wrap DQUOTE v) [9] :: []) acc cur
      = stored_v
      /\ scan (field_line ind (py "private_key") [] [SPACE] (wrap SQUOTE v) [9] :: []) acc cur
         = stored_v
      /\ (v <> [] -> quoted v = false ->
          scan (field_line ind (py "private_key") [] [SPACE] v [9] :: []) acc cur
          = stored_v)).
Proof.
  intros ind v cur acc.
  assert (H1 : length ind = 4%nat) by reflexivity.
  assert (H2 : spaces ind) by reflexivity.
  assert (H3 : spaces []) by reflexivity.
  assert (H4 : spaces [SPACE]) by reflexivity.
  assert (H5 : spaces [9]) by reflexivity.
  assert (H6 : forallb nonspace v = true) by reflexivity.
  assert (H7 : cur <> []) by discriminate.
  assert (H8 : dict_get cur acc = Some no_fields) by reflexivity.
  split; [repeat (split; [assumption|]); assumption|].
  exact (private_key_line_spellings ind [] [SPACE] [9] v cur no_fields acc []
           H1 H2 H3 H4 H5 H6 H7 H8).
Defined.

(** * Further properties of the reconciliation *)

Lemma fills_clashes_exclusive dst x :
  (b2n (fills dst (strip x)) + b2n (clashes (fill_field dst (strip x)) (strip x)) <= 1)%nat.
Proof.
  destruct (fills dst (strip x)) eqn:E.
  - destruct (clashes_filled dst x E) as [_ ->]. simpl. lia.
  - simpl. destruct (clashes _ _); simpl; lia.
Qed.

Lemma fills_clashes_of e d : (fills_of e d + clashes_of e d <= 2)%nat.
Proof.
  unfold fills_of, clashes_of, reconciled. simpl address. simpl private_key.
  pose proof (fills_clashes_exclusive (address e) (or_empty (address d))).
  pose proof (fills_clashes_exclusive (private_key e) (or_empty (private_key d))).
  lia.
Qed.

Lemma merge_loop_bound S : forall pk a f m,
  exists R rep, merge_loop S pk a f m = Ok (R, rep)
    /\ (2 * added rep + filled rep + mismatches rep
        <= 2 * a + f + m + 2 * length S)%nat
    /\ (added rep <= a + length S)%nat.
Proof.
  induction S as [|[alias d] rest IH]; intros pk a f m.
  - simpl. eexists _, _. split; [reflexivity|]. simpl. lia.
  - rewrite merge_loop_step.
    destruct (IH (merge_item alias d pk)
                (a + b2n (negb (dict_in alias pk)))%nat
                (f + match dict_get alias pk with Some e => fills_of e d | None => O end)%nat
                (m + match dict_get alias pk with Some e => clashes_of e d | None => O end)%nat)
      as (R & rep & Hrep & Hb & Ha).
    exists R, rep. split; [exact Hrep|].
    unfold dict_in in *. simpl length.
    destruct (dict_get alias pk) as [e|]; simpl in *.
    + pose proof (fills_clashes_of e d). lia.
    + lia.
Qed.

(** X9: the three counts of a run are bounded by the source: each of its
    items is either added or contributes at most two fills and mismatches,
    a field never counting as both. *)
Theorem report_bounds (S D : accounts_t) :
  exists R rep, merge_loop S D 0 0 0 = Ok (R, rep)
    /\ (2 * added rep + filled rep + mismatches rep <= 2 * length S)%nat.
Proof.
  destruct (merge_loop_bound S D 0 0 0) as (R & rep & H & Hb & _).
  exists R, rep. split; [exact H|]. lia.
Qed.

Lemma keys_merge_item a d pk :
  keys (merge_item a d pk) = if dict_in a pk then keys pk else keys pk ++ [a].
Proof.
  unfold merge_item, dict_in.
  destruct (dict_get a pk) as [e|] eqn:E; rewrite keys_dict_set; unfold dict_in;
    now rewrite E.
Qed.

Lemma keys_merge_all S : forall pk,
  exists extra, keys (merge_all S pk) = keys pk ++ extra
    /\ NoDup extra
    /\ forall a, In a extra <-> In a (keys S) /\ ~ In a (keys pk).
Proof.
  induction S as [|[a d] rest IH]; intros pk; simpl.
  - exists []. rewrite app_nil_r. split; [reflexivity|]. split; [constructor|].
    intros x. simpl. tauto.
  - destruct (IH (merge_item a d pk)) as (extra & Hk & Hnd & Hin).
    rewrite keys_merge_item in Hk, Hin.
    destruct (dict_in a pk) eqn:Ea.
    + exists extra. split; [exact Hk|]. split; [exact Hnd|].
      intros x. rewrite Hin. apply dict_in_keys in Ea.
      split; [intros [H1 H2]; auto|].
      intros [[<-|H1] H2]; [contradiction|auto].
    + assert (Hna : ~ In a (keys pk)).
      { intros H. apply dict_in_keys in H. congruence. }
      exists (a :: extra). rewrite <- app_assoc in Hk. split; [exact Hk|]. split.
      * constructor; [|exact Hnd]. intros H. apply Hin in H as [_ H].
        apply H. apply in_or_app. right. simpl. auto.
      * intros x. simpl. rewrite Hin. rewrite in_app_iff. simpl.
        split.
        -- intros [<-|[H1 H2]]; [auto|]. split; [auto|]. intros H; apply H2; auto.
        -- intros [[<-|H1] H2]; [auto|].
           destruct (list_eq_dec N.eq_dec a x) as [->|Hne]; [auto|].
           right. split; [exact H1|]. intros [H|[H|[]]]; auto.
Qed.

(** X10: a run keeps the items of the destination in their places and
    appends after them, once each, exactly the aliases of the source that
    the destination did not have; aliases stay unique. *)
Theorem reconcile_appends (S D : accounts_t) :
  exists R rep extra,
    merge_loop S D 0 0 0 = Ok (R, rep)
    /\ keys R = keys D ++ extra
    /\ NoDup extra
    /\ (forall a, In a extra <-> In a (keys S) /\ ~ In a (keys D))
    /\ (NoDup (keys D) -> NoDup (keys R)).
Proof.
  destruct (merge_loop_result S D 0 0 0) as (rep & Hrep & _).
  destruct (keys_merge_all S D) as (extra & Hk & Hnd & Hin).
  exists (merge_all S D), rep, extra. repeat split; try assumption.
  - apply Hin. assumption.
  - apply Hin. assumption.
  - apply Hin.
  - intros HD. rewrite Hk. apply NoDup_app; [exact HD|exact Hnd|].
    intros a Ha Hb. apply Hin in Hb as [_ Hb]. contradiction.
Qed.

(** X11: when every alias of the source is in the destination and none of
    its fields is blank there while the source has a value for it, the run
    returns the destination as it is and reports nothing added and nothing
    filled. *)
Theorem reconcile_nothing_to_do (S D : accounts_t) :
  (forall a d, In (a, d) S -> settled a d D) ->
  exists m, merge_loop S D 0 0 0 = Ok (D, mk_report 0 0 m).
Proof. intros H. now apply merge_loop_settled. Qed.

Lemma reconcile_nothing_to_do_witness :
  let S := [(py "alice", mk_account (Some (py "0xAA")) None)] in
  let D := [(py "alice", mk_account (Some (py "0xBB")) (Some (py "k1")));
            (py "bob", mk_account None (Some (py "k2")))] in
  (forall a d, In (a, d) S -> settled a d D)
  /\ exists m, merge_loop S D 0 0 0 = Ok (D, mk_report 0 0 m).
Proof.
  intros S D.
  assert (H : forall a d, In (a, d) S -> settled a d D).
  { intros a d [E|[]]. injection E as <- <-.
    eexists. split; [reflexivity|]. split; reflexivity. }
  split; [exact H|exact (reconcile_nothing_to_do S D H)].
Defined.

(** * Further properties of the synchronisation *)

Lemma keys_merge_all_source S D a : In a (keys S) -> In a (keys (merge_all S D)).
Proof.
  intros Ha. destruct (keys_merge_all S D) as (extra & Hk & _ & Hin).
  rewrite Hk. apply in_or_app.
  destruct (in_dec (list_eq_dec N.eq_dec) a (keys D)) as [H|H]; [auto|].
  right. apply Hin. auto.
Qed.

Lemma header_in_lines (R : accounts_t) a :
  In a (keys R) -> In (header_text a) (flat_map (bare_block R) (sorted (keys R))).
Proof.
  intros Ha. apply in_flat_map. exists a. split.
  - eapply Permutation_in; [symmetry; apply sorted_perm|exact Ha].
  - apply dict_in_keys in Ha. destruct (dict_in_get _ _ Ha) as (d & Hd).
    unfold bare_block. rewrite Hd. unfold bare_lines. simpl. auto.
Qed.

(** X12: a synchronisation that succeeds leaves [config.yaml] as it was
    and writes to [pk.txt] a text with a header line for every alias found
    in [config.yaml]. *)
Theorem sync_writes_source_aliases (fs : files) (raw : str) (S : accounts_t) :
  config_yaml fs = Some raw ->
  parse_accounts_accounts_section raw = Ok S ->
  S <> [] ->
  exists ls rep,
    sync_config_to_pk fs = (mk_files (Some raw) (Some (unlines ls)), Ok rep)
    /\ forall a, In a (keys S) -> In (header_text a) ls.
Proof.
  intros Hc Hp Hne.
  destruct (sync_writes fs raw S Hc Hp Hne) as (D & R & rep & _ & Hm & Hs).
  destruct (merge_loop_result S D 0 0 0) as (rep' & Hm' & _).
  rewrite Hm in Hm'. injection Hm' as -> <-.
  rewrite Hs, Hc, canonical_text_lines. eexists _, rep.
  split; [reflexivity|].
  intros a Ha. right. right. apply header_in_lines.
  now apply keys_merge_all_source.
Qed.

Lemma sync_writes_source_aliases_witness :
  let raw := unlines [py "accounts:"; py "  alice:"; py "    address: 0xAA"] in
  let S := [(py "alice", mk_account (Some (py "0xAA")) None)] in
  (config_yaml sample_files = Some raw
   /\ parse_accounts_accounts_section raw = Ok S
   /\ S <> [])
  /\ exists ls rep,
    sync_config_to_pk sample_files
    = (mk_files (Some raw) (Some (unlines ls)), Ok rep)
    /\ forall a, In a (keys S) -> In (header_text a) ls.
Proof.
  intros raw S.
  assert (H1 : config_yaml sample_files = Some raw) by reflexivity.
  assert (H2 : parse_accounts_accounts_section raw = Ok S) by reflexivity.
  assert (H3 : S <> []) by discriminate.
  split; [repeat (split; [assumption|]); assumption|].
  exact (sync_writes_source_aliases sample_files raw S H1 H2 H3).
Defined.

Example sample_files_sync :
  sync_config_to_pk sample_files
  = (mk_files (config_yaml sample_files)
       (Some (unlines
          [py "# IMPORTANT: This file contains PRIVATE KEYS. KEEP IT SECRET. DO NOT COMMIT.";
           py "accounts:";
           py "  alice:"; py "    address: " ++ wrap DQUOTE (py "0xAA");
           py "  bob:"; py "    private_key: k2"])),
     Ok (mk_report 1 0 0)).
Proof. reflexivity. Qed.

(** * Destination names *)

Lemma endswith_last c s : endswith c (s ++ [c]) = true.
Proof. unfold endswith. rewrite rev_app_distr. simpl. apply N.eqb_refl. Qed.

Lemma ensure_trailing_slash_ends s : endswith SLASH (ensure_trailing_slash s) = true.
Proof.
  unfold ensure_trailing_slash. destruct (endswith SLASH s) eqn:E; [exact E|].
  apply endswith_last.
Qed.

(** X13: [ensure_trailing_slash] returns a text that ends with a slash, by
    appending at most one slash, and applying it again changes nothing. *)
Theorem ensure_trailing_slash_spec (s : str) :
  endswith SLASH (ensure_trailing_slash s) = true
  /\ (ensure_trailing_slash s = s \/ ensure_trailing_slash s = s ++ [SLASH])
  /\ ensure_trailing_slash (ensure_trailing_slash s) = ensure_trailing_slash s.
Proof.
  pose proof (ensure_trailing_slash_ends s) as H.
  split; [exact H|]. split.
  - unfold ensure_trailing_slash. destruct (endswith SLASH s); auto.
  - unfold ensure_trailing_slash at 1. now rewrite H.
Qed.

(** ** The slug *)

Lemma sub_runs_forallb (p cls : char -> bool) repl s : forall inrun,
  forallb p repl = true -> (forall c, cls c = false -> p c = true) ->
  forallb p (sub_runs cls repl inrun s) = true.
Proof.
  intros inrun Hr Hc. revert inrun.
  induction s as [|c s IH]; intros inrun; simpl; [reflexivity|].
  destruct (cls c) eqn:E.
  - destruct inrun; [apply IH|]. rewrite forallb_app, Hr. apply IH.
  - simpl. now rewrite (Hc c E), IH.
Qed.

Lemma sub_repeats_forallb (p : char -> bool) x repl s : forall inrun,
  forallb p repl = true -> forallb p s = true ->
  forallb p (sub_repeats x repl inrun s) = true.
Proof.
  intros inrun Hr. revert inrun.
  induction s as [|c s IH]; intros inrun Hs; simpl; [reflexivity|].
  simpl in Hs. apply andb_true_iff in Hs as [Hc Hs].
  destruct (c =? x).
  - destruct inrun; [now apply IH|].
    destruct s as [|d s']; [simpl; now rewrite Hc|].
    destruct (d =? x).
    + rewrite forallb_app, Hr. now apply IH.
    + cbn [forallb]. rewrite Hc. now apply IH.
  - cbn [forallb]. rewrite Hc. now apply IH.
Qed.

Lemma lstrip_char_suffix x s : exists p, s = p ++ lstrip_char x s.
Proof.
  induction s as [|c s IH]; simpl; [exists []; reflexivity|].
  destruct (c =? x); [|exists []; reflexivity].
  destruct IH as (p & Hp). exists (c :: p). simpl. now rewrite <- Hp.
Qed.

Lemma lstrip_char_head x s : startswith x (lstrip_char x s) = false.
Proof.
  induction s as [|c s IH]; simpl; [reflexivity|].
  destruct (c =? x) eqn:E; [exact IH|]. simpl. exact E.
Qed.

(** [strip_char] keeps a middle part of the text. *)
Lemma strip_char_middle x s : exists p q, s = p ++ strip_char x s ++ q.
Proof.
  unfold strip_char.
  destruct (lstrip_char_suffix x s) as (p & Hp).
  destruct (lstrip_char_suffix x (rev (lstrip_char x s))) as (q & Hq).
  exists p, (rev q).
  rewrite <- rev_app_distr, <- Hq, rev_involutive. exact Hp.
Qed.

Lemma forallb_middle {X} (p : X -> bool) a m b :
  forallb p (a ++ m ++ b) = true -> forallb p m = true.
Proof.
  rewrite !forallb_app. intros H.
  apply andb_true_iff in H as [_ H]. now apply andb_true_iff in H as [H _].
Qed.

Lemma strip_char_forallb (p : char -> bool) x s :
  forallb p s = true -> forallb p (strip_char x s) = true.
Proof.
  intros H. destruct (strip_char_middle x s) as (a & b & E).
  rewrite E in H. now apply forallb_middle in H.
Qed.

Lemma slug_stem_cases stem :
  slug_stem stem = py "file"
  \/ exists s, forallb istoken s = true
       /\ slug_stem stem = strip_char DASH (sub_repeats DASH (py "-") false s)
       /\ slug_stem stem <> [].
Proof.
  unfold slug_stem.
  set (s := sub_runs (fun c => negb (istoken c)) (py "-") false
              (sub_runs isspace (py "-") false (strip stem))).
  destruct (strip_char DASH (sub_repeats DASH (py "-") false s)) as [|c0 r] eqn:E;
    simpl.
  - left. reflexivity.
  - right. exists s. split; [|split; [now rewrite E|discriminate]].
    apply sub_runs_forallb; [reflexivity|].
    intros c1 Hc. now apply negb_false_iff in Hc.
Qed.

Lemma slug_stem_tokens stem : forallb istoken (slug_stem stem) = true.
Proof.
  destruct (slug_stem_cases stem) as [E|(s & Hs & E & Hne)]; rewrite E.
  - reflexivity.
  - apply strip_char_forallb. now apply sub_repeats_forallb.
Qed.

(** X14: the stem of a slug is never empty and consists of letters,
    digits, [.], [_] and [-] only, whatever the name was. *)
Theorem slug_stem_token (stem : str) :
  slug_stem stem <> [] /\ forallb istoken (slug_stem stem) = true.
Proof.
  split; [|apply slug_stem_tokens].
  destruct (slug_stem_cases stem) as [E|(s & Hs & E & Hne)].
  - rewrite E. discriminate.
  - exact Hne.
Qed.

Lemma no_repeat_cons x a t :
  no_repeat x (a :: t) = negb ((a =? x) && startswith x t) && no_repeat x t.
Proof. destruct t; simpl; [now rewrite andb_false_r|reflexivity]. Qed.

Lemma sub_repeats_no_repeat x s : forall inrun,
  no_repeat x (sub_repeats x [x] inrun s) = true
  /\ (inrun = true \/ startswith x s = false ->
      startswith x (sub_repeats x [x] inrun s) = false).
Proof.
  induction s as [|c s IH]; intros inrun; [simpl; auto|].
  cbn [sub_repeats].
  destruct (c =? x) eqn:Ec.
  - destruct inrun.
    + destruct (IH true) as [H1 H2]. auto.
    + destruct s as [|d s'].
      * simpl. rewrite Ec. split; [reflexivity|]. intros [H|H]; discriminate.
      * destruct (d =? x) eqn:Ed.
        -- destruct (IH true) as [H1 H2]. split.
           ++ change ([x] ++ sub_repeats x [x] true (d :: s'))
                with (x :: sub_repeats x [x] true (d :: s')).
              rewrite no_repeat_cons, H1, (H2 (or_introl eq_refl)).
              now rewrite andb_false_r.
           ++ intros [H|H]; [discriminate|]. simpl in H. congruence.
        -- destruct (IH false) as [H1 H2]. split.
           ++ rewrite no_repeat_cons, H1, H2; [now rewrite andb_false_r|].
              right. simpl. exact Ed.
           ++ intros [H|H]; [discriminate|]. simpl in H. congruence.
  - destruct (IH false) as [H1 H2]. split.
    + rewrite no_repeat_cons, H1, Ec. reflexivity.
    + intros _. simpl. exact Ec.
Qed.

Lemma no_repeat_app x a : forall b,
  no_repeat x (a ++ b) = true -> no_repeat x a = true /\ no_repeat x b = true.
Proof.
  induction a as [|c a IH]; intros b H; [simpl in *; auto|].
  simpl app in H. rewrite no_repeat_cons in H.
  apply andb_true_iff in H as [Hc H]. destruct (IH b H) as [Ha Hb].
  split; [|exact Hb]. rewrite no_repeat_cons, Ha, andb_true_r.
  destruct a as [|d a]; [now rewrite andb_false_r|exact Hc].
Qed.

Lemma strip_char_ends x s :
  startswith x (strip_char x s) = false /\ endswith x (strip_char x s) = false.
Proof.
  split.
  - unfold strip_char.
    destruct (lstrip_char_suffix x (rev (lstrip_char x s))) as (q & Hq).
    pose proof (lstrip_char_head x s) as Hh.
    apply (f_equal (@rev _)) in Hq. rewrite rev_involutive, rev_app_distr in Hq.
    destruct (rev (lstrip_char x (rev (lstrip_char x s)))) as [|c r]; [reflexivity|].
    rewrite Hq in Hh. exact Hh.
  - unfold endswith, strip_char. rewrite rev_involutive. apply lstrip_char_head.
Qed.

(** X15: the stem of a slug neither starts nor ends with a dash and has no
    two dashes in a row. *)
Theorem slug_stem_dashes (stem : str) :
  startswith DASH (slug_stem stem) = false
  /\ endswith DASH (slug_stem stem) = false
  /\ no_repeat DASH (slug_stem stem) = true.
Proof.
  destruct (slug_stem_cases stem) as [E|(s & _ & E & _)]; rewrite E.
  - repeat split; reflexivity.
  - destruct (strip_char_ends DASH (sub_repeats DASH (py "-") false s)) as [H1 H2].
    split; [exact H1|]. split; [exact H2|].
    destruct (strip_char_middle DASH (sub_repeats DASH (py "-") false s)) as (p & q & Hm).
    destruct (sub_repeats_no_repeat DASH s false) as [Hn _].
    change (py "-") with [DASH] in *. rewrite Hm in Hn.
    apply no_repeat_app in Hn as [_ Hn]. now apply no_repeat_app in Hn as [Hn _].
Qed.

(** X16: for every environment and date, the destination made by
    [build_dst] is a prefix that ends with a slash followed by the slug of
    the file name, whose stem contains no slash. *)
Theorem build_dst_shape (lower : str -> str) (getenv : str -> option str)
    (today stem suffix : str) :
  exists prefix,
    build_dst lower getenv today stem suffix
    = prefix ++ slug_stem stem ++ lower suffix
    /\ endswith SLASH prefix = true
    /\ ~ In SLASH (slug_stem stem).
Proof.
  unfold build_dst, slugify_filename.
  eexists. split; [reflexivity|]. split.
  - destruct (str_in _ _); apply ensure_trailing_slash_ends.
  - pose proof (slug_stem_tokens stem) as H. rewrite forallb_forall in H.
    intros Hin. specialize (H _ Hin). discriminate H.
Qed.

(** * Scraping the output of the command line tool *)

Section SearchFacts.
Context {A : Type}.
Implicit Types (m : str -> option A) (s : str) (r : A).

Lemma search_sound m s r :
  search m s = Some r -> exists pre rest, s = pre ++ rest /\ m rest = Some r.
Proof.
  induction s as [|c s IH]; simpl.
  - destruct (m []) eqn:E; [|discriminate]. intros [= ->]. exists [], []. auto.
  - destruct (m (c :: s)) eqn:E.
    + intros [= ->]. exists [], (c :: s). auto.
    + intros H. destruct (IH H) as (pre & rest & -> & Hm).
      exists (c :: pre), rest. auto.
Qed.

Lemma search_complete m pre : forall rest,
  m rest <> None -> search m (pre ++ rest) <> None.
Proof.
  induction pre as [|c pre IH]; intros rest H; simpl.
  - destruct rest; simpl; destruct (m _); congruence.
  - destruct (m (c :: pre ++ rest)); [discriminate|]. now apply IH.
Qed.

Lemma opt_group_inv x (k : str -> @Re.cont A) s r :
  opt_group x k s = Some r ->
  exists o t, s = o ++ t /\ (o = [] \/ o = [x]) /\ k o t = Some r.
Proof.
  unfold opt_group. destruct s as [|c s'].
  - intros H. exists [], []. auto.
  - destruct (c =? x) eqn:E.
    + apply N.eqb_eq in E. subst c.
      destruct (k [x] s') eqn:Ek.
      * intros [= ->]. exists [x], s'. auto.
      * intros H. exists [], (x :: s'). auto.
    + intros H. exists [], (c :: s'). auto.
Qed.

Lemma star_lazy_inv cls (k : @Re.cont A) s r :
  star_lazy cls k s = Some r ->
  exists w t, s = w ++ t /\ forallb cls w = true /\ k t = Some r.
Proof.
  induction s as [|c s IH]; simpl.
  - destruct (k []) eqn:E; [|discriminate]. intros [= ->]. exists [], []. auto.
  - destruct (k (c :: s)) eqn:E.
    + intros [= ->]. exists [], (c :: s). auto.
    + destruct (cls c) eqn:Ec; [|discriminate]. intros H.
      destruct (IH H) as (w & t & -> & Hw & Hk).
      exists (c :: w), t. simpl. rewrite Ec, Hw. auto.
Qed.

(** A greedy group at the end of a pattern takes the whole run. *)
Lemma plus_group_accept cls (f : str -> A) s : forall g r,
  Re.plus_group cls (fun g => accept (f g)) g s = Some r ->
  exists w t, s = w ++ t /\ w <> [] /\ forallb cls w = true /\ stops cls t
    /\ r = f (g ++ w).
Proof.
  induction s as [|c s IH]; simpl; intros g r H; [discriminate|].
  destruct (cls c) eqn:Ec; [|discriminate].
  destruct (Re.plus_group cls (fun g => accept (f g)) (g ++ [c]) s) as [r'|] eqn:E.
  - injection H as ->. destruct (IH _ _ E) as (w & t & -> & _ & Hw & Ht & ->).
    exists (c :: w), t. simpl. rewrite Ec, Hw, <- app_assoc.
    repeat split; auto. discriminate.
  - unfold accept in H. injection H as <-.
    exists [c], s. simpl. rewrite Ec. repeat split; auto; [discriminate|].
    destruct s as [|d s]; [exact I|]. simpl in E. simpl.
    destruct (cls d); [|reflexivity].
    destruct (Re.plus_group cls (fun g => accept (f g)) ((g ++ [c]) ++ [d]) s);
      discriminate.
Qed.

Lemma plus_group_accept_some cls (f : str -> A) c s g :
  cls c = true -> Re.plus_group cls (fun g => accept (f g)) g (c :: s) <> None.
Proof.
  intros Hc. simpl. rewrite Hc.
  destruct (Re.plus_group cls (fun g => accept (f g)) (g ++ [c]) s); discriminate.
Qed.

End SearchFacts.

Lemma re_url_inv s url :
  re_url s = Some url ->
  exists o g post,
    url = py "http" ++ o ++ py "://" ++ g /\ (o = [] \/ o = py "s")
    /\ g <> [] /\ forallb nonspace g = true
    /\ s = url ++ post /\ stops nonspace post.
Proof.
  unfold re_url. intros H.
  apply lit_inv in H as (t1 & -> & H).
  apply opt_group_inv in H as (o & t2 & -> & Ho & H).
  apply lit_inv in H as (t3 & -> & H).
  apply plus_group_accept in H as (g & post & -> & Hne & Hg & Hp & ->).
  exists o, g, post. simpl app at 1. repeat split; auto.
  rewrite <- !app_assoc. reflexivity.
Qed.

(** X17: the faucet address that [get_shelbyusd_faucet_url] returns is a
    part of the printed text that starts with [http://] or [https://] and
    goes on, with at least one character, up to the next whitespace or the
    end of the text. *)
Theorem faucet_url_shape (ran : result (option str * option str)) (url : str) :
  get_shelbyusd_faucet_url ran = Some url ->
  exists proc pre g post,
    ran = Ok proc
    /\ process_text proc = pre ++ url ++ post
    /\ (url = py "http://" ++ g \/ url = py "https://" ++ g)
    /\ g <> [] /\ forallb nonspace g = true
    /\ stops nonspace post.
Proof.
  destruct ran as [proc|e]; [|discriminate]. simpl. intros H.
  apply search_sound in H as (pre & rest & Ht & H).
  apply re_url_inv in H as (o & g & post & -> & Ho & Hne & Hg & -> & Hp).
  exists proc, pre, g, post. split; [reflexivity|]. split; [exact Ht|].
  split; [|auto]. destruct Ho as [->| ->]; [left|right]; reflexivity.
Qed.

Lemma faucet_url_shape_witness :
  let ran := Ok (Some (py "Open https://faucet.example/x?a=1 now"), None) in
  let url := py "https://faucet.example/x?a=1" in
  get_shelbyusd_faucet_url ran = Some url
  /\ exists proc pre g post,
    ran = Ok proc
    /\ process_text proc = pre ++ url ++ post
    /\ (url = py "http://" ++ g \/ url = py "https://" ++ g)
    /\ g <> [] /\ forallb nonspace g = true
    /\ stops nonspace post.
Proof.
  intros ran url.
  assert (H : get_shelbyusd_faucet_url ran = Some url) by reflexivity.
  split; [exact H|exact (faucet_url_shape ran url H)].
Defined.

Lemma re_url_some o c rest :
  o = [] \/ o = py "s" -> nonspace c = true ->
  re_url (py "http" ++ o ++ py "://" ++ c :: rest) <> None.
Proof.
  intros Ho Hc. unfold re_url. rewrite lit_intro.
  destruct Ho as [->| ->].
  - simpl app. unfold opt_group. simpl N.eqb. cbv iota.
    change (58 :: 47 :: 47 :: c :: rest) with (py "://" ++ c :: rest).
    rewrite lit_intro. now apply plus_group_accept_some.
  - change (py "s" ++ py "://" ++ c :: rest) with (115 :: (py "://" ++ c :: rest)).
    unfold opt_group. rewrite N.eqb_refl. rewrite lit_intro.
    destruct (Re.plus_group nonspace _ [] (c :: rest)) eqn:E; [discriminate|].
    exfalso. revert E. now apply plus_group_accept_some.
Qed.

(** X18: [get_shelbyusd_faucet_url] returns an address whenever the
    command ran and its text has [http://] or [https://] followed by a
    character that is not whitespace, and nothing when the command
    failed. *)
Theorem faucet_url_found :
  (forall e, get_shelbyusd_faucet_url (Raise e) = None)
  /\ (forall proc pre o c rest,
        process_text proc = pre ++ py "http" ++ o ++ py "://" ++ c :: rest ->
        o = [] \/ o = py "s" -> nonspace c = true ->
        get_shelbyusd_faucet_url (Ok proc) <> None).
Proof.
  split; [reflexivity|].
  intros proc pre o c rest Ht Ho Hc. simpl. rewrite Ht.
  apply search_complete. now apply re_url_some.
Qed.

Lemma re_balance_address_inv s a :
  re_balance_address s = Some a ->
  exists w h post,
    a = py "0x" ++ h /\ h <> [] /\ forallb ishex h = true
    /\ s = py "Address:" ++ w ++ a ++ post
    /\ forallb isspace w = true /\ stops ishex post.
Proof.
  unfold re_balance_address. intros H.
  apply lit_inv in H as (t1 & -> & H).
  apply star_inv in H as (w & t2 & -> & Hw & H).
  apply lit_inv in H as (t3 & -> & H).
  apply plus_group_accept in H as (h & post & -> & Hne & Hh & Hp & ->).
  exists w, h, post. simpl app at 1. repeat split; auto.
Qed.

Lemma re_apt_inv s g : re_apt s = Some g -> g <> [] /\ forallb isamount g = true.
Proof.
  unfold re_apt. intros H.
  apply lit_inv in H as (t1 & -> & H).
  apply star_inv in H as (w1 & t2 & -> & _ & H).
  apply lit_inv in H as (t3 & -> & H).
  apply star_inv in H as (w2 & t4 & -> & _ & H).
  apply lit_inv in H as (t5 & -> & H).
  apply star_lazy_inv in H as (w3 & t6 & -> & _ & H).
  apply lit_inv in H as (t7 & -> & H).
  apply star_inv in H as (w4 & t8 & -> & _ & H).
  apply plus_group_inv in H as (w & t9 & -> & Hne & Hw & H).
  apply star_inv in H as (w5 & t10 & -> & _ & H).
  apply lit_inv in H as (t11 & -> & H).
  apply star_inv in H as (w6 & t12 & -> & _ & H).
  apply lit_inv in H as (t13 & -> & H).
  unfold accept in H. injection H as <-. simpl. auto.
Qed.

Lemma re_shelbyusd_inv s g :
  re_shelbyusd s = Some g -> g <> [] /\ forallb isamount g = true.
Proof.
  unfold re_shelbyusd. intros H.
  apply lit_inv in H as (t1 & -> & H).
  apply star_inv in H as (w1 & t2 & -> & _ & H).
  apply lit_inv in H as (t3 & -> & H).
  apply star_lazy_inv in H as (w3 & t6 & -> & _ & H).
  apply lit_inv in H as (t7 & -> & H).
  apply star_inv in H as (w4 & t8 & -> & _ & H).
  apply plus_group_inv in H as (w & t9 & -> & Hne & Hw & H).
  apply star_inv in H as (w5 & t10 & -> & _ & H).
  apply lit_inv in H as (t11 & -> & H).
  apply star_inv in H as (w6 & t12 & -> & _ & H).
  apply lit_inv in H as (t13 & -> & H).
  unfold accept in H. injection H as <-. simpl. auto.
Qed.

Lemma remove_commas_amount g :
  forallb isamount g = true -> forallb isdigit_or_dot (remove_commas g) = true.
Proof.
  unfold remove_commas. induction g as [|c g IH]; simpl; [reflexivity|].
  intros H. apply andb_true_iff in H as [Hc Hg].
  destruct (c =? 44) eqn:E; simpl; [auto|].
  rewrite (IH Hg), andb_true_r.
  unfold isamount in Hc. unfold isdigit_or_dot. rewrite E, orb_false_r in Hc. exact Hc.
Qed.

(** X19: the address that [shelby_balance] reports is [0x] followed by at
    least one hexadecimal digit, taken whole from behind an [Address:]
    label of the printed text, and the raw text it reports is that text. *)
Theorem balance_address_shape (dec : Type) (Decimal : str -> option dec)
    (ran : result (option str * option str)) (b : Balance.t dec) (a : str) :
  shelby_balance dec Decimal ran = Ok b ->
  Balance.address b = Some a ->
  exists proc pre w h post,
    ran = Ok proc
    /\ Balance.raw_text b = process_text proc
    /\ a = py "0x" ++ h /\ h <> [] /\ forallb ishex h = true
    /\ process_text proc = pre ++ py "Address:" ++ w ++ a ++ post
    /\ forallb isspace w = true /\ stops ishex post.
Proof.
  destruct ran as [proc|e]; [|discriminate]. simpl.
  intros [= <-]. simpl. intros H.
  apply search_sound in H as (pre & rest & Ht & H).
  apply re_balance_address_inv in H as (w & h & post & -> & Hne & Hh & -> & Hw & Hp).
  exists proc, pre, w, h, post. repeat split; auto.
Qed.

Lemma balance_address_shape_witness :
  let ran := Ok (Some (py "Address: 0x1aF9 (default)"), None) in
  let b := Balance.mk (Some (py "0x1aF9")) None None (py "Address: 0x1aF9 (default)") in
  (shelby_balance str (fun s => Some s) ran = Ok b
   /\ Balance.address b = Some (py "0x1aF9"))
  /\ exists proc pre w h post,
    ran = Ok proc
    /\ Balance.raw_text b = process_text proc
    /\ py "0x1aF9" = py "0x" ++ h /\ h <> [] /\ forallb ishex h = true
    /\ process_text proc = pre ++ py "Address:" ++ w ++ py "0x1aF9" ++ post
    /\ forallb isspace w = true /\ stops ishex post.
Proof.
  intros ran b.
  assert (H1 : shelby_balance str (fun s => Some s) ran = Ok b) by reflexivity.
  assert (H2 : Balance.address b = Some (py "0x1aF9")) by reflexivity.
  split; [split; assumption|].
  exact (balance_address_shape str (fun s => Some s) ran b (py "0x1aF9") H1 H2).
Defined.

(** X20: an amount that [shelby_balance] reports is what [Decimal] makes
    of a text of digits and dots: nothing else is ever given to it. *)
Theorem balance_amounts (dec : Type) (Decimal : str -> option dec)
    (ran : result (option str * option str)) (b : Balance.t dec) (x : dec) :
  shelby_balance dec Decimal ran = Ok b ->
  Balance.apt b = Some x \/ Balance.shelbyusd b = Some x ->
  exists g, forallb isdigit_or_dot g = true /\ Decimal g = Some x.
Proof.
  destruct ran as [proc|e]; [|discriminate]. simpl.
  intros [= <-]. simpl. unfold parse_decimal. intros [H|H].
  - destruct (search re_apt (process_text proc)) as [g|] eqn:E; [|discriminate].
    apply search_sound in E as (pre & rest & _ & E).
    apply re_apt_inv in E as [_ Hg].
    exists (remove_commas g). split; [now apply remove_commas_amount|exact H].
  - destruct (search re_shelbyusd (process_text proc)) as [g|] eqn:E; [|discriminate].
    apply search_sound in E as (pre & rest & _ & E).
    apply re_shelbyusd_inv in E as [_ Hg].
    exists (remove_commas g). split; [now apply remove_commas_amount|exact H].
Qed.

Lemma balance_amounts_witness :
  let text := py "| APT | 0x1::coin | 1,234.5 APT |" in
  let ran := Ok (Some text, None) in
  let b := Balance.mk None (Some (py "1234.5")) None text in
  (shelby_balance str (fun s => Some s) ran = Ok b
   /\ (Balance.apt b = Some (py "1234.5") \/ Balance.shelbyusd b = Some (py "1234.5")))
  /\ exists g, forallb isdigit_or_dot g = true /\ (fun s : str => Some s) g = Some (py "1234.5").
Proof.
  intros text ran b.
  assert (H1 : shelby_balance str (fun s => Some s) ran = Ok b) by reflexivity.
  assert (H2 : Balance.apt b = Some (py "1234.5") \/ Balance.shelbyusd b = Some (py "1234.5"))
    by (left; reflexivity).
  split; [split; assumption|].
  exact (balance_amounts str (fun s => Some s) ran b (py "1234.5") H1 H2).
Defined.

(** * The canonical text determines the accounts *)

(** X21: two valid dictionaries for which the serializer writes the same
    text hold the same items. *)
Theorem render_injective (X Y : accounts_t) :
  round_trip_valid X -> round_trip_valid Y ->
  render X = render Y -> dict_eq X Y.
Proof.
  intros HX HY E.
  destruct (round_trip_sorted X HX) as (tx & Hrx & Hpx).
  destruct (round_trip_sorted Y HY) as (ty & Hry & Hpy).
  rewrite E, Hry in Hrx. injection Hrx as <-.
  rewrite Hpy in Hpx. injection Hpx as Hs.
  intros k. rewrite <- (sorted_items_eq X k), <- (sorted_items_eq Y k).
  now rewrite Hs.
Qed.

Lemma render_injective_witness :
  let Y := [(py "alice", mk_account (Some (py "0xA")) None);
            (py "bob", mk_account (Some (py "0xB")) (Some (py "k2")))] in
  (round_trip_valid sample_accounts /\ round_trip_valid Y
   /\ render sample_accounts = render Y)
  /\ dict_eq sample_accounts Y.
Proof.
  intros Y.
  assert (HY : round_trip_valid Y).
  { split; [split|].
    - repeat constructor; simpl; intuition discriminate.
    - intros a d [E|[E|[]]]; injection E as <- <-;
        (split; [split; [discriminate|reflexivity]|]);
        split; intros v E; try discriminate; injection E as <-;
        repeat split; discriminate.
    - intros a d [E|[E|[]]]; injection E as <- <-;
        (split; [left; discriminate|]);
        intros v E; try discriminate; injection E as <-; reflexivity. }
  assert (HE : render sample_accounts = render Y) by reflexivity.
  split; [split; [exact sample_accounts_valid|split; assumption]|].
  exact (render_injective sample_accounts Y sample_accounts_valid HY HE).
Defined.

(** * The order of the source *)

Lemma dict_get_permutation {V} (d d' : dict V) :
  NoDup (keys d) -> Permutation d d' -> dict_eq d d'.
Proof.
  intros Hnd Hp k.
  assert (Hnd' : NoDup (keys d')).
  { eapply Permutation_NoDup; [|exact Hnd]. now apply Permutation_map. }
  destruct (dict_get k d) as [v|] eqn:E.
  - symmetry. apply In_dict_get; [exact Hnd'|].
    eapply Permutation_in; [exact Hp|]. now apply dict_get_In.
  - destruct (dict_get k d') as [v|] eqn:E'; [|reflexivity].
    apply dict_get_In in E'. apply (Permutation_in _ (Permutation_sym Hp)) in E'.
    apply (In_dict_get _ _ _ Hnd) in E'. congruence.
Qed.

Lemma counts_permutation S S' D :
  Permutation S S' ->
  count_added S D = count_added S' D
  /\ count_filled S D = count_filled S' D
  /\ count_mismatches S D = count_mismatches S' D.
Proof.
  induction 1 as [|[a d] l l' Hp IH|[a d] [a' d'] l|l l' l'' H1 IH1 H2 IH2]; simpl.
  - auto.
  - destruct IH as (H1 & H2 & H3). now rewrite H1, H2, H3.
  - repeat split; lia.
  - destruct IH1 as (A1 & A2 & A3), IH2 as (B1 & B2 & B3).
    repeat split; congruence.
Qed.

(** X22: the result of the reconciliation does not depend on the order of
    the accounts in the source: two sources with the same items give equal
    dictionaries and the same three counts. *)
Theorem reconcile_source_order (S S' D : accounts_t) :
  NoDup (keys S) -> Permutation S S' ->
  exists R R' rep,
    merge_loop S D 0 0 0 = Ok (R, rep)
    /\ merge_loop S' D 0 0 0 = Ok (R', rep)
    /\ dict_eq R R'.
Proof.
  intros Hnd Hp.
  assert (Hnd' : NoDup (keys S')).
  { eapply Permutation_NoDup; [|exact Hnd]. now apply Permutation_map. }
  pose proof (dict_get_permutation S S' Hnd Hp) as Heq.
  destruct (counts_permutation S S' D Hp) as (H1 & H2 & H3).
  exists (merge_all S D), (merge_all S' D). eexists.
  split; [apply merge_loop_counts; exact Hnd|]. split.
  - rewrite merge_loop_counts by exact Hnd'. simpl. now rewrite H1, H2, H3.
  - intros k. destruct (dict_get k S) as [d|] eqn:E.
    + rewrite (merge_all_get_present S D k d Hnd E).
      rewrite (Heq k) in E. now rewrite (merge_all_get_present S' D k d Hnd' E).
    + rewrite (merge_all_get_absent S D k E).
      rewrite (Heq k) in E. now rewrite (merge_all_get_absent S' D k E).
Qed.

Lemma reconcile_source_order_witness :
  let a := (py "alice", mk_account (Some (py "0xAA")) None) in
  let b := (py "bob", mk_account None (Some (py "k2"))) in
  let D := [(py "bob", mk_account (Some (py "0xBB")) None)] in
  (NoDup (keys [a; b]) /\ Permutation [a; b] [b; a])
  /\ exists R R' rep,
    merge_loop [a; b] D 0 0 0 = Ok (R, rep)
    /\ merge_loop [b; a] D 0 0 0 = Ok (R', rep)
    /\ dict_eq R R'.
Proof.
  intros a b D.
  assert (H1 : NoDup (keys [a; b])).
  { repeat constructor; simpl; intuition discriminate. }
  assert (H2 : Permutation [a; b] [b; a]) by apply perm_swap.
  split; [split; assumption|].
  exact (reconcile_source_order [a; b] [b; a] D H1 H2).
Defined.

(** * The anchor of the section *)

Lemma scan_canonical X :
  round_trip_valid X ->
  scan (flat_map (bare_block X) (sorted (keys X))) [] [] = Ok (sorted_items X).
Proof.
  intros [[Hnd Hval] Hext].
  assert (Hin : forall a, In a (sorted (keys X)) ->
            exists d, dict_get a X = Some d /\ In (a, d) X).
  { intros a Ha. apply (Permutation_in _ (sorted_perm _)) in Ha.
    apply dict_in_keys in Ha. destruct (dict_in_get _ _ Ha) as (d & Hd).
    exists d. split; [exact Hd|now apply dict_get_In]. }
  rewrite scan_blocks.
  - reflexivity.
  - eapply Permutation_NoDup; [symmetry; apply sorted_perm|exact Hnd].
  - reflexivity.
  - intros a Ha. destruct (Hin a Ha) as (d & Hd & Hi).
    exists d. split; [exact Hd|].
    destruct (Hval a d Hi) as (Hal & Hadr & Hpk).
    destruct (Hext a d Hi) as (_ & Hns).
    split; [exact Hal|]. split; [exact Hadr|].
    intros v Hv. split; [apply (Hpk v Hv)|apply (Hns v Hv)].
Qed.

Lemma cleanup_sorted_items X :
  round_trip_valid X -> cleanup (sorted_items X) = sorted_items X.
Proof.
  intros [[Hnd Hval] Hext]. unfold cleanup. apply filter_all.
  intros [a d] Hi. unfold sorted_items in Hi.
  apply in_map_iff in Hi as (a' & E & Ha'). injection E as -> <-. simpl.
  apply (Permutation_in _ (sorted_perm _)) in Ha'.
  apply dict_in_keys in Ha'. destruct (dict_in_get _ _ Ha') as (d & Hd).
  pose proof (dict_get_In _ _ _ Hd) as Hi.
  unfold entry. rewrite Hd.
  destruct (Hval a d Hi) as (_ & Hadr & Hpk).
  destruct (Hext a d Hi) as (Hsome & _).
  unfold has_field. apply orb_true_iff.
  destruct Hsome as [H|H]; [left|right].
  - destruct (address d) as [v|]; [|contradiction].
    destruct (Hadr v eq_refl) as (Hne & _). now apply truthy_true.
  - destruct (private_key d) as [v|]; [|contradiction].
    destruct (Hpk v eq_refl) as (Hne & _). now apply truthy_true.
Qed.

Lemma parse_from_anchor text pre anchor rest :
  splitlines text = pre ++ anchor :: rest ->
  (forall l, In l pre -> re_accounts l = None) ->
  re_accounts anchor = Some tt ->
  parse_accounts_accounts_section text
  = (accounts <- scan rest [] [] ;; Ok (cleanup accounts)).
Proof.
  intros Hs Hpre Ha. unfold parse_accounts_accounts_section. rewrite Hs.
  rewrite (find_start_app pre anchor rest 0 Hpre Ha).
  change (0 + length pre)%nat with (length pre).
  now rewrite skipn_app_cons.
Qed.

(** C5, amended: the section starts at the first line made of optional
    whitespace, the key [accounts], optional whitespace, a colon and
    nothing but whitespace. A text without such a line parses to the empty
    dictionary; in a text with one, the result is what the scan of the
    lines after the first one gives, whatever the lines before it are; in
    particular the accounts written below an indented anchor are returned,
    all of them when they are the lines of a valid dictionary. *)
Theorem accounts_anchor :
  (forall line,
     re_accounts line = Some tt <->
     exists w1 w2 w3, line = w1 ++ py "accounts" ++ w2 ++ py ":" ++ w3
       /\ forallb isspace w1 = true /\ forallb isspace w2 = true
       /\ forallb isspace w3 = true)
  /\ (forall text,
        (forall line, In line (splitlines text) -> re_accounts line = None) ->
        parse_accounts_accounts_section text = Ok [])
  /\ (forall text pre anchor rest,
        splitlines text = pre ++ anchor :: rest ->
        (forall l, In l pre -> re_accounts l = None) ->
        re_accounts anchor = Some tt ->
        parse_accounts_accounts_section text
        = (accounts <- scan rest [] [] ;; Ok (cleanup accounts)))
  /\ (forall text pre w1 w2 w3 X,
        splitlines text
        = pre ++ (w1 ++ py "accounts" ++ w2 ++ py ":" ++ w3)
              :: flat_map (bare_block X) (sorted (keys X)) ->
        (forall l, In l pre -> re_accounts l = None) ->
        spaces w1 -> spaces w2 -> spaces w3 ->
        round_trip_valid X ->
        parse_accounts_accounts_section text = Ok (sorted_items X)
        /\ dict_eq (sorted_items X) X)
  /\ parse_accounts_accounts_section
       (py "network: testnet" ++ [NL] ++ py "  accounts:" ++ [NL]
        ++ py "  a:" ++ [NL] ++ py "    address: x" ++ [NL]
        ++ py "    private_key: k" ++ [NL] ++ py "other:" ++ [NL]
        ++ py "  b:" ++ [NL] ++ py "    address: y" ++ [NL])
     = Ok [(py "a", mk_account (Some (py "x")) (Some (py "k")))].
Proof.
  split; [exact re_accounts_spec|]. split.
  { intros text H. unfold parse_accounts_accounts_section.
    now rewrite (find_start_none _ 0 H). }
  split; [exact parse_from_anchor|]. split; [|reflexivity].
  intros text pre w1 w2 w3 X Hs Hpre H1 H2 H3 HX.
  split; [|apply sorted_items_eq].
  rewrite (parse_from_anchor text pre _ _ Hs Hpre).
  - rewrite (scan_canonical X HX). simpl bind.
    now rewrite (cleanup_sorted_items X HX).
  - apply re_accounts_spec. exists w1, w2, w3. auto.
Qed.
